(** * Dry gas seal heat-transfer calculator: the calculation core

    A shallow embedding of [calculateHeatTransfer] (utils/formulas.ts), of the
    records of types.ts and of the two places of App.tsx that feed it
    ([INITIAL_INPUTS], [handleInputChange]); and, around it, of the insight
    service (services/geminiService.ts) and its button in App.tsx.

    A JavaScript [number] is an IEEE 754 binary64 value.  The function is
    written over an interface of the numeric operations it uses, and read in
    binary64 ([B64]), bit for bit, with the Standard Library's executable
    specification of IEEE arithmetic ([SpecFloat]); [Math.pow] follows the
    case table of ECMAScript's Number::exponentiate, and the value the
    standard leaves "implementation-approximated" is a parameter. *)

From Stdlib Require Import ZArith Zpower QArith Bool List SpecFloat Lia.
From Stdlib Require String Ascii.
Import ListNotations.

Set Implicit Arguments.

(** ** types.ts *)

Record SealInputs (number : Type) : Type := {
  d_outer    : number;  (* Outer diameter (m) *)
  n_rpm      : number;  (* Speed (r/min) *)
  rho        : number;  (* Density (kg/m^3) *)
  mu         : number;  (* Dynamic viscosity (Pa*s) *)
  lambda_gas : number;  (* Thermal conductivity (W/(m*K)) *)
  Pr         : number;  (* Prandtl number *)
  u_axial    : number;  (* Axial flow velocity (m/s) *)
  delta_gap  : number;  (* Gap (m) *)
  d_hyd      : number;  (* Hydraulic diameter (m) *)
  B          : number   (* Correction factor *)
}.

Record SealResults (number : Type) : Type := {
  Re_rot : number;
  Re_ax  : number;
  Nu_s   : number;
  H_s    : number;
  Nu_r   : number;
  H_r    : number
}.

(** ** The numeric operations of the source *)

(** A decimal literal of the source text, given by its rational value. *)
Class Literal (number : Type) : Type := lit : Q -> number.

Class Numeric (number : Type) : Type := {
  mul      : number -> number -> number;   (* x * y *)
  div      : number -> number -> number;   (* x / y *)
  add      : number -> number -> number;   (* x + y *)
  Math_pow : number -> number -> number;   (* Math.pow(base, exponent) *)
  Math_PI  : number                        (* Math.PI *)
}.

Declare Scope js_scope.
Delimit Scope js_scope with js.
Infix "*" := mul (at level 40, left associativity) : js_scope.
Infix "/" := div (at level 40, left associativity) : js_scope.
Infix "+" := add (at level 50, left associativity) : js_scope.

(** ** utils/formulas.ts *)

Section Formulas.
Context {number : Type} {literal : Literal number} {ops : Numeric number}.
Local Open Scope js_scope.

Definition calculateHeatTransfer (inputs : SealInputs number) : SealResults number :=
  let d_outer := d_outer inputs in
  let n_rpm := n_rpm inputs in
  let rho := rho inputs in
  let mu := mu inputs in
  let lambda_gas := lambda_gas inputs in
  let Pr := Pr inputs in
  let u_axial := u_axial inputs in
  let delta_gap := delta_gap inputs in
  let d_hyd := d_hyd inputs in
  let B := B inputs in
  (* 1. Preprocessing *)
  let omega := lit 2 * Math_PI * n_rpm / lit 60 in
  (* 2. Reynolds numbers *)
  let Re_rot := (rho * omega * d_outer * d_hyd) / (lit 2 * mu) in
  let Re_ax := (lit 2 * rho * u_axial * delta_gap) / mu in
  (* 3. Stationary ring *)
  let Nu_s := lit (23 # 1000) * B * Math_pow Re_ax (lit (8 # 10)) * Math_pow Pr (lit (4 # 10)) in
  let H_s := (Nu_s * lambda_gas) / (lit 2 * delta_gap) in
  (* 4. Rotating ring *)
  let term_in_Nu_r := (lit (5 # 10) * Math_pow Re_rot (lit 2) + Math_pow Re_ax (lit 2)) * Pr in
  let Nu_r := lit (135 # 1000) * Math_pow term_in_Nu_r (lit 1 / lit 3) in
  let H_r := (Nu_r * lambda_gas) / d_hyd in
  {| Re_rot := Re_rot; Re_ax := Re_ax; Nu_s := Nu_s; H_s := H_s; Nu_r := Nu_r; H_r := H_r |}.

(** App.tsx, [INITIAL_INPUTS]. *)
Definition INITIAL_INPUTS : SealInputs number := {|
  d_outer    := lit (150 # 1000);
  n_rpm      := lit 10300;
  rho        := lit (1225 # 1000);
  mu         := lit (181 # 10000000);
  lambda_gas := lit (26 # 1000);
  Pr         := lit (71 # 100);
  u_axial    := lit 5;
  delta_gap  := lit (5 # 1000000);
  d_hyd      := lit (1 # 100000);
  B          := lit 2
|}.
End Formulas.

(** ** The specification's formulas

    Written from the specification's algorithm (section 4.1, steps 1 to 7),
    one definition per step, over the same operations. *)

Section Specification.
Context {number : Type} {literal : Literal number} {ops : Numeric number}.
Local Open Scope js_scope.

Definition spec_omega (n_rpm : number) : number :=
  lit 2 * Math_PI * n_rpm / lit 60.

Definition spec_Re_rot (rho omega d_outer d_hyd mu : number) : number :=
  (rho * omega * d_outer * d_hyd) / (lit 2 * mu).

Definition spec_Re_ax (rho u_axial delta_gap mu : number) : number :=
  (lit 2 * rho * u_axial * delta_gap) / mu.

Definition spec_Nu_s (B Re_ax Pr : number) : number :=
  lit (23 # 1000) * B * Math_pow Re_ax (lit (8 # 10)) * Math_pow Pr (lit (4 # 10)).

Definition spec_H_s (Nu_s lambda_gas delta_gap : number) : number :=
  (Nu_s * lambda_gas) / (lit 2 * delta_gap).

Definition spec_Nu_r (Re_rot Re_ax Pr : number) : number :=
  let t := (lit (5 # 10) * Math_pow Re_rot (lit 2) + Math_pow Re_ax (lit 2)) * Pr in
  lit (135 # 1000) * Math_pow t (lit 1 / lit 3).

Definition spec_H_r (Nu_r lambda_gas d_hyd : number) : number :=
  (Nu_r * lambda_gas) / d_hyd.

End Specification.

(** ** App.tsx: the form *)

(** The [name] attributes of the ten input fields. *)
Inductive field : Type :=
| f_d_outer | f_n_rpm | f_rho | f_mu | f_lambda_gas
| f_Pr | f_u_axial | f_delta_gap | f_d_hyd | f_B.

Definition field_eq_dec (a b : field) : {a = b} + {a <> b}.
Proof. decide equality. Defined.

Section Fields.
Context {number : Type}.

Definition get_field (i : SealInputs number) (name : field) : number :=
  match name with
  | f_d_outer => d_outer i
  | f_n_rpm => n_rpm i
  | f_rho => rho i
  | f_mu => mu i
  | f_lambda_gas => lambda_gas i
  | f_Pr => Pr i
  | f_u_axial => u_axial i
  | f_delta_gap => delta_gap i
  | f_d_hyd => d_hyd i
  | f_B => B i
  end.

Definition of_fields (g : field -> number) : SealInputs number := {|
  d_outer    := g f_d_outer;
  n_rpm      := g f_n_rpm;
  rho        := g f_rho;
  mu         := g f_mu;
  lambda_gas := g f_lambda_gas;
  Pr         := g f_Pr;
  u_axial    := g f_u_axial;
  delta_gap  := g f_delta_gap;
  d_hyd      := g f_d_hyd;
  B          := g f_B
|}.

(** The object spread [{...prev, [name]: v}]. *)
Definition set_field (prev : SealInputs number) (name : field) (v : number) : SealInputs number :=
  of_fields (fun f => if field_eq_dec f name then v else get_field prev f).

End Fields.

(** ** The call, on objects

    [calculateHeatTransfer] receives a reference to an object and returns a
    reference to the object literal it builds.  The store holds the objects;
    a reference is an index in it. *)

Inductive error : Type := TypeError.

Inductive completion (A : Type) : Type :=
| Normal (v : A)
| Throw (e : error).

Arguments Normal {A} v.
Arguments Throw {A} e.

Inductive object (number : Type) : Type :=
| ObjInputs (i : SealInputs number)
| ObjResults (r : SealResults number).

Definition store (number : Type) : Type := list (object number).
Definition ref : Type := nat.

Section Call.
Context {number : Type} {literal : Literal number} {ops : Numeric number}.

(** The body reads the ten properties of [inputs] once (the destructuring),
    evaluates the formulas, and allocates the result.  It contains no [throw]
    and no assignment to a property.  A reference that denotes no
    [SealInputs] object is outside the function's TypeScript signature; it is
    answered with the TypeError of destructuring [undefined]. *)
Definition call_calculateHeatTransfer (inputs : ref) (st : store number)
  : completion ref * store number :=
  match nth_error st inputs with
  | Some (ObjInputs i) =>
      (Normal (length st), st ++ [ObjResults (calculateHeatTransfer i)])
  | _ => (Throw TypeError, st)
  end.
End Call.

(** ** Binary64 *)

Module B64.

Definition prec : Z := 53.
Definition emax : Z := 1024.

Definition float : Type := spec_float.

Definition fmul : float -> float -> float := SFmul prec emax.
Definition fdiv : float -> float -> float := SFdiv prec emax.
Definition fadd : float -> float -> float := SFadd prec emax.

Definition of_Z (z : Z) : float := binary_normalize prec emax z 0 false.

(** The double nearest to the rational [q]: numerator and denominator of the
    literals of the source are integers below 2^53, hence exact, and the
    division is correctly rounded. *)
Definition of_Q (q : Q) : float := fdiv (of_Z (Qnum q)) (of_Z (Zpos (Qden q))).

(** [Math.PI] is the double 0x400921FB54442D18. *)
Definition PI64 : float := S754_finite false 7074237752028440 (-51).

#[global] Instance literal : Literal float := of_Q.

Definition one : float := of_Z 1.
Definition pzero : float := S754_zero false.
Definition nzero : float := S754_zero true.
Definition pinf : float := S754_infinity false.
Definition ninf : float := S754_infinity true.

Definition is_finite (x : float) : bool :=
  match x with
  | S754_zero _ | S754_finite _ _ _ => true
  | S754_infinity _ | S754_nan => false
  end.

(** [x] is an integral Number: m * 2^e with no fractional bit set. *)
Definition is_integral (x : float) : bool :=
  match x with
  | S754_zero _ => true
  | S754_finite _ m e => (0 <=? e)%Z || (Z.land (Zpos m) (Z.ones (- e)) =? 0)%Z
  | _ => false
  end.

Definition is_odd_integer (x : float) : bool :=
  match x with
  | S754_finite _ m e =>
      if (0 <=? e)%Z then (e =? 0)%Z && Z.odd (Zpos m)
      else is_integral x && Z.odd (Z.shiftr (Zpos m) (- e))
  | _ => false
  end.

(** [exponent > +0], for an exponent that is neither NaN nor a zero. *)
Definition is_positive (x : float) : bool :=
  match x with
  | S754_infinity s | S754_finite s _ _ => negb s
  | _ => false
  end.

Section Engine.

(** What the engine returns where ECMAScript asks for "an
    implementation-approximated Number value representing the result of
    raising base to the exponent power". *)
Variable approx_pow : float -> float -> float.

(** Number::exponentiate (ECMAScript 2024, 6.1.6.1.3), the algorithm of
    [Math.pow]; the numbers are the steps of the standard. *)
Definition exponentiate (base exponent : float) : float :=
  match exponent with
  | S754_nan => S754_nan                                          (* 1 *)
  | S754_zero _ => one                                            (* 2 *)
  | _ =>
    match base with
    | S754_nan => S754_nan                                        (* 3 *)
    | S754_infinity false =>                                      (* 4 *)
        if is_positive exponent then pinf else pzero
    | S754_infinity true =>                                       (* 5 *)
        if is_positive exponent
        then (if is_odd_integer exponent then ninf else pinf)
        else (if is_odd_integer exponent then nzero else pzero)
    | S754_zero false =>                                          (* 6 *)
        if is_positive exponent then pzero else pinf
    | S754_zero true =>                                           (* 7 *)
        if is_positive exponent
        then (if is_odd_integer exponent then nzero else pzero)
        else (if is_odd_integer exponent then ninf else pinf)
    | S754_finite sb _ _ =>
      match exponent with
      | S754_infinity false =>                                    (* 9 *)
          match SFcompare (SFabs base) one with
          | Some Gt => pinf
          | Some Eq => S754_nan
          | _ => pzero
          end
      | S754_infinity true =>                                     (* 10 *)
          match SFcompare (SFabs base) one with
          | Some Gt => pzero
          | Some Eq => S754_nan
          | _ => pinf
          end
      | _ =>
          if sb && negb (is_integral exponent) then S754_nan      (* 12 *)
          else approx_pow base exponent                           (* 13 *)
      end
    end
  end.

Definition numeric : Numeric float := {|
  mul := fmul;
  div := fdiv;
  add := fadd;
  Math_pow := exponentiate;
  Math_PI := PI64
|}.

End Engine.

(** Equality of doubles as values of the model (NaN is equal to itself). *)
Definition same (x y : float) : bool :=
  match x, y with
  | S754_zero s, S754_zero s' => Bool.eqb s s'
  | S754_infinity s, S754_infinity s' => Bool.eqb s s'
  | S754_nan, S754_nan => true
  | S754_finite s m e, S754_finite s' m' e' =>
      Bool.eqb s s' && Pos.eqb m m' && Z.eqb e e'
  | _, _ => false
  end.

(** The correctly rounded powers at the five [Math.pow] calls of the
    reference case, as (base, exponent, base^exponent):
    3.383977900552487^0.8, 0.71^0.4, 54.75006257827241^2,
    3.383977900552487^2 and 1072.267547641598^(1/3). *)
Definition reference_powers : list (float * float * float) :=
  [ (S754_finite false 7620040805979087 (-51), S754_finite false 7205759403792794 (-53),
     S754_finite false 5971339908874139 (-51));
    (S754_finite false 6395111470866104 (-53), S754_finite false 7205759403792794 (-54),
     S754_finite false 7854040016482390 (-53));
    (S754_finite false 7705386294563093 (-47), S754_finite false 4503599627370496 (-51),
     S754_finite false 6591724715892061 (-41));
    (S754_finite false 7620040805979087 (-51), S754_finite false 4503599627370496 (-51),
     S754_finite false 6446512422185348 (-49));
    (S754_finite false 4715882546875172 (-42), S754_finite false 6004799503160661 (-54),
     S754_finite false 5761967994307192 (-49)) ].

Fixpoint lookup_power (table : list (float * float * float)) (base exponent : float)
  : option float :=
  match table with
  | [] => None
  | (b, e, v) :: rest =>
      if same b base && same e exponent then Some v
      else lookup_power rest base exponent
  end.

(** An engine for the examples: correctly rounded on the table, and 1
    elsewhere. *)
Definition reference_pow (base exponent : float) : float :=
  match lookup_power reference_powers base exponent with
  | Some v => v
  | None => one
  end.

(** [approx_pow] returns the correctly rounded powers of the table. *)
Definition agrees_on (table : list (float * float * float))
  (approx_pow : float -> float -> float) : Prop :=
  Forall (fun '(b, e, v) => approx_pow b e = v) table.

(** The domain constraints of the inputs, on doubles: a strictly positive
    finite double, or (for the two speeds) a zero as well. *)
Definition positive_finite (x : float) : bool :=
  match x with
  | S754_finite false m e => SpecFloat.bounded prec emax m e
  | _ => false
  end.

Definition nonneg_finite (x : float) : bool :=
  match x with
  | S754_zero _ => true
  | _ => positive_finite x
  end.

Definition valid_inputs (i : SealInputs float) : bool :=
  positive_finite (d_outer i) && nonneg_finite (n_rpm i) &&
  positive_finite (rho i) && positive_finite (mu i) &&
  positive_finite (lambda_gas i) && positive_finite (Pr i) &&
  nonneg_finite (u_axial i) && positive_finite (delta_gap i) &&
  positive_finite (d_hyd i) && positive_finite (B i).

Definition all_finite (r : SealResults float) : bool :=
  is_finite (Re_rot r) && is_finite (Re_ax r) && is_finite (Nu_s r) &&
  is_finite (H_s r) && is_finite (Nu_r r) && is_finite (H_r r).

(** *** Magnitudes

    [below k x]: [x] is a zero or a positive finite double smaller than 2^k
    (its significand has [d] binary digits, its exponent is [e], and
    [d + e <= k]).  [above k x]: [x] is a positive finite double, at least
    2^(k-1). *)
Definition below (k : Z) (x : float) : bool :=
  match x with
  | S754_zero _ => true
  | S754_finite false m e => (Zpos (digits2_pos m) + e <=? k)%Z
  | _ => false
  end.

Definition above (k : Z) (x : float) : bool :=
  match x with
  | S754_finite false m e => (k <=? Zpos (digits2_pos m) + e)%Z
  | _ => false
  end.

(** A double in [2^-K, 2^(K+1)); for the two speeds, a zero as well. *)
Definition in_range (K : Z) (x : float) : bool :=
  positive_finite x && above (1 - K) x && below (K + 1) x.

Definition in_range0 (K : Z) (x : float) : bool :=
  match x with
  | S754_zero _ => true
  | _ => in_range K x
  end.

Definition inputs_in_range (K : Z) (i : SealInputs float) : bool :=
  in_range K (d_outer i) && in_range0 K (n_rpm i) &&
  in_range K (rho i) && in_range K (mu i) &&
  in_range K (lambda_gas i) && in_range K (Pr i) &&
  in_range0 K (u_axial i) && in_range K (delta_gap i) &&
  in_range K (d_hyd i) && in_range K (B i).

(** The four exponents [Math.pow] is called with: 0.8, 0.4, 2 and 1.0/3.0. *)
Definition exponents : list float :=
  [lit (8 # 10); lit (4 # 10); lit 2; fdiv (lit 1) (lit 3)].

(** What is asked of the engine for the finiteness of the outputs: for a
    positive base below 2^k, k at most 400, and one of the four exponents, the
    approximated power is a zero or a positive finite double below 2^(2k+1)
    (the true power is below 2^(2k), the exponents being at most 2). *)
Definition pow_bounded (approx_pow : float -> float -> float) : Prop :=
  forall (m : positive) (e : Z) (exponent : float) (k : Z),
    In exponent exponents -> (0 <= k <= 400)%Z ->
    (Zpos (digits2_pos m) + e <= k)%Z ->
    below (2 * k + 1) (approx_pow (S754_finite false m e) exponent) = true.

(** *** Doubling

    [twice x] has the sign and the significand of [x] and the next exponent:
    it is 2x, exactly.  [inner x]: [x] is finite, not zero, with its exponent
    strictly between -1073 and 971, that is, at least one binade away from
    the subnormal range and from overflow. *)
Definition twice (x : float) : float :=
  match x with
  | S754_finite s m e => S754_finite s m (e + 1)
  | _ => x
  end.

Definition inner (x : float) : bool :=
  match x with
  | S754_finite _ _ e => (-1073 <? e)%Z && (e <? 971)%Z
  | _ => false
  end.

(** App.tsx, [handleInputChange]: [{...prev, [name]: parseFloat(value) || 0}],
    where [parsed] is what [parseFloat(value)] returned.  NaN and the zeros
    are the falsy numbers. *)
Definition falsy (v : float) : bool :=
  match v with
  | S754_nan | S754_zero _ => true
  | _ => false
  end.

Definition handleInputChange (prev : SealInputs float) (name : field) (parsed : float)
  : SealInputs float :=
  set_field prev name (if falsy parsed then lit 0 else parsed).

End B64.

(** ** Binary64: rounding, read on the value

    The definitions the properties of rounding are stated with. *)

Module Rounding.
Local Open Scope Z_scope.

(** The place of a value among the multiples of a quarter: four times its
    integer part, plus 0 on the integer, 1 below the half, 2 on the half and
    3 above it.  [code] reads it off a shift record. *)
Definition code (mrs : shr_record) : Z :=
  4 * shr_m mrs + 2 * Z.b2z (shr_r mrs) + Z.b2z (shr_s mrs).

(** The same place for the quotient N / D. *)
Definition qcode (N D : Z) : Z :=
  2 * (2 * N / D) + (if 2 * N mod D =? 0 then 0 else 1).

(** Rounding to nearest, ties to even, on a place. *)
Definition rne (c : Z) : Z :=
  let m := c / 4 in
  let t := c mod 4 in
  if t <=? 1 then m
  else if t =? 2 then (if Z.even m then m else m + 1)
  else m + 1.

(** The double with significand [m] (at most 2^53) at exponent [E]. *)
Definition rounded (s : bool) (m E : Z) : spec_float :=
  if m =? 0 then S754_zero s
  else if m <? 2 ^ 53
       then (if E <=? 971 then S754_finite s (Z.to_pos m) E else S754_infinity s)
       else (if E + 1 <=? 971 then S754_finite s (Z.to_pos (2 ^ 52)) (E + 1)
             else S754_infinity s).

(** A double that is not negative and not NaN: a zero, a strictly positive
    finite double, or +Infinity. *)
Definition nonnegative (x : spec_float) : bool :=
  match x with
  | S754_zero _ => true
  | S754_infinity false => true
  | S754_finite false m e => SpecFloat.bounded B64.prec B64.emax m e
  | _ => false
  end.

(** A strictly positive finite double with its magnitude between [lo] and
    [hi]: a value in [2^(lo-1), 2^hi). *)
Definition between (lo hi : Z) (x : spec_float) : bool :=
  B64.positive_finite x && B64.above lo x && B64.below hi x.

(** What is asked of the engine for the positivity of the outputs: for a
    double in [2^-k, 2^k), k at most 400, and one of the four exponents, the
    approximated power is a strictly positive double, at least 2^(-2k-1)
    (the true power is at least 2^(-2k), the exponents being at most 2). *)
Definition pow_positive (approx_pow : spec_float -> spec_float -> spec_float) : Prop :=
  forall (m : positive) (e : Z) (exponent : spec_float) (k : Z),
    In exponent B64.exponents -> (0 <= k <= 400)%Z ->
    SpecFloat.bounded B64.prec B64.emax m e = true ->
    (1 - k <= Zpos (digits2_pos m) + e <= k)%Z ->
    B64.positive_finite (approx_pow (S754_finite false m e) exponent) = true /\
    B64.above (- 2 * k) (approx_pow (S754_finite false m e) exponent) = true.

(** *** Engines given by a table

    [table_pow table] returns the power the table gives, and 1 elsewhere.
    [near_powers] is [B64.reference_powers] with the first power one unit in
    the last place lower: an engine that is accurate, not correctly
    rounded. *)
Definition table_pow (table : list (spec_float * spec_float * spec_float))
  (base exponent : spec_float) : spec_float :=
  match B64.lookup_power table base exponent with
  | Some v => v
  | None => B64.one
  end.

Definition near_powers : list (spec_float * spec_float * spec_float) :=
  [ (S754_finite false 7620040805979087 (-51), S754_finite false 7205759403792794 (-53),
     S754_finite false 5971339908874138 (-51));
    (S754_finite false 6395111470866104 (-53), S754_finite false 7205759403792794 (-54),
     S754_finite false 7854040016482390 (-53));
    (S754_finite false 7705386294563093 (-47), S754_finite false 4503599627370496 (-51),
     S754_finite false 6591724715892061 (-41));
    (S754_finite false 7620040805979087 (-51), S754_finite false 4503599627370496 (-51),
     S754_finite false 6446512422185348 (-49));
    (S754_finite false 4715882546875172 (-42), S754_finite false 6004799503160661 (-54),
     S754_finite false 5761967994307192 (-49)) ].

Definition near_pow : spec_float -> spec_float -> spec_float := table_pow near_powers.

Definition magnitude (x : spec_float) : Z :=
  match x with
  | S754_finite _ m e => Zpos (digits2_pos m) + e
  | _ => 0
  end.

(** An entry whose power is a strictly positive double within the two
    bounds asked of an engine. *)
Definition entry_ok (entry : spec_float * spec_float * spec_float) : bool :=
  let '(b, _, v) := entry in
  B64.positive_finite v &&
  (magnitude v <=? 2 * Z.max (magnitude b) 0 + 1) &&
  (- 2 * Z.max (magnitude b) (1 - magnitude b) <=? magnitude v).

End Rounding.

(** ** App.tsx: a sequence of change events *)

Module Form.
Import B64.

Definition is_nan (v : float) : bool :=
  match v with
  | S754_nan => true
  | _ => false
  end.

Definition is_negative_zero (v : float) : bool :=
  match v with
  | S754_zero true => true
  | _ => false
  end.

(** The record after the change events [events], oldest first: each one
    queues the updater [prev => ({...prev, [name]: parseFloat(value) || 0})],
    and the updaters are applied in order.  An event is the name of its field
    and what [parseFloat] returned for its text. *)
Definition apply_changes (events : list (field * float)) (inputs : SealInputs float)
  : SealInputs float :=
  fold_left (fun prev e => handleInputChange prev (fst e) (snd e)) events inputs.

End Form.

(** ** services/geminiService.ts, and the insight button of App.tsx

    A string is the sequence of bytes of the source text (UTF-8).  What is
    not code of the repository is a parameter: the two conversions of a number
    to text (a template substitution and [toFixed]), the environment variable
    [process.env.API_KEY] and the client library.  The calls to the library,
    to the console and to the state setters are recorded in a trace. *)

Module Insight.
Import String.
Local Open Scope string_scope.

(** ToBoolean on a string, and on a string that may be [undefined]. *)
Definition truthy (s : string) : bool :=
  match s with
  | EmptyString => false
  | String _ _ => true
  end.

Definition ToBoolean (s : option string) : bool :=
  match s with
  | Some s => truthy s
  | None => false
  end.

(** [s || fallback]. *)
Definition or_else (s : option string) (fallback : string) : string :=
  match s with
  | Some s => if truthy s then s else fallback
  | None => fallback
  end.

Section Text.
Context {number : Type}.
Variable ToString : number -> string.        (* the substitution ${x} *)
Variable toFixed : number -> nat -> string.  (* x.toFixed(digits) *)

Definition processInputsToString (inputs : SealInputs number) (results : SealResults number)
  : string :=
  "
    输入参数:
    - 动环外径 (Outer Diameter): " ++
  ToString (d_outer inputs) ++
  " m
    - 转速 (Speed): " ++
  ToString (n_rpm inputs) ++
  " rpm
    - 流体密度 (Density): " ++
  ToString (rho inputs) ++
  " kg/m^3
    - 动力粘度 (Viscosity): " ++
  ToString (mu inputs) ++
  " Pa*s
    - 导热系数 (Thermal Cond.): " ++
  ToString (lambda_gas inputs) ++
  " W/(m*K)
    - 普朗特数 (Prandtl): " ++
  ToString (Pr inputs) ++
  "
    - 轴向流速 (Axial Velocity): " ++
  ToString (u_axial inputs) ++
  " m/s
    - 密封间隙 (Gap): " ++
  ToString (delta_gap inputs) ++
  " m
    - 水力直径 (Hyd. Diameter): " ++
  ToString (d_hyd inputs) ++
  " m

    计算结果:
    - 旋转雷诺数 (Re_rot): " ++
  toFixed (Re_rot results) 2 ++
  "
    - 轴向雷诺数 (Re_ax): " ++
  toFixed (Re_ax results) 2 ++
  "
    - 静态努塞尔数 (Nu_s): " ++
  toFixed (Nu_s results) 2 ++
  "
    - 静环换热系数 (H_s): " ++
  toFixed (H_s results) 2 ++
  " W/(m^2*K)
    - 动态努塞尔数 (Nu_r): " ++
  toFixed (Nu_r results) 2 ++
  "
    - 动环换热系数 (H_r): " ++
  toFixed (H_r results) 2 ++
  " W/(m^2*K)
  ".

(** The template of [prompt] in [analyzeResults]. *)
Definition prompt (dataString : string) : string :=
  "
    你是一位专门从事涡轮机械和干气密封的高级机械工程师。
    请分析以下干气密封热传递模拟的计算结果。

    数据:
    " ++
  dataString ++
  "

    请提供一份简明扼要的工程评估报告（中文，最多 150 字），内容涵盖：
    1. 流动状态：根据雷诺数判断流动是主导旋转流（Couette）还是轴向流（Poiseuille）？
    2. 换热效率：比较 H_s 和 H_r。哪个环（动环或静环）的散热更有效？
    3. 潜在风险：这些数值是否在典型范围内，是否存在热变形的风险？
  ".

End Text.

(** *** Completions and traces *)

(** A thrown value: an [Error] with its message, or any other value, of the
    library's. *)
Inductive exn (foreign : Type) : Type :=
| Error (message : string)
| Foreign (v : foreign).

Arguments Error {foreign} message.
Arguments Foreign {foreign} v.

Inductive outcome (foreign A : Type) : Type :=
| Returned (v : A)
| Thrown (e : exn foreign).

Arguments Returned {foreign A} v.
Arguments Thrown {foreign A} e.

Inductive event (foreign : Type) : Type :=
| NewGoogleGenAI (apiKey : option string)       (* new GoogleGenAI({ apiKey }) *)
| GenerateContent (model contents : string)     (* ai.models.generateContent({ model, contents }) *)
| ConsoleError (label : string) (error : exn foreign)  (* console.error(label, error) *)
| SetAiAnalysis (text : string)
| SetIsAnalyzing (b : bool)
| SetApiKeyMissing (b : bool).

Arguments NewGoogleGenAI {foreign} apiKey.
Arguments GenerateContent {foreign} model contents.
Arguments ConsoleError {foreign} label error.
Arguments SetAiAnalysis {foreign} text.
Arguments SetIsAnalyzing {foreign} b.
Arguments SetApiKeyMissing {foreign} b.

(** A computation: how it completes, and what it did on the way. *)
Definition M (foreign A : Type) : Type := outcome foreign A * list (event foreign).

Section Monad.
Context {foreign : Type}.

Definition ret {A : Type} (v : A) : M foreign A := (Returned v, []).

Definition throw {A : Type} (e : exn foreign) : M foreign A := (Thrown e, []).

Definition emit (ev : event foreign) : M foreign unit := (Returned tt, [ev]).

Definition bind {A B : Type} (m : M foreign A) (k : A -> M foreign B) : M foreign B :=
  match m with
  | (Returned v, t) => let (r, t') := k v in (r, (t ++ t')%list)
  | (Thrown e, t) => (Thrown e, t)
  end.

(** [try { body } catch (error) { handler }]. *)
Definition try_catch {A : Type} (body : M foreign A) (handler : exn foreign -> M foreign A)
  : M foreign A :=
  match body with
  | (Returned v, t) => (Returned v, t)
  | (Thrown e, t) => let (r, t') := handler e in (r, (t ++ t')%list)
  end.

(** [try { body } finally { finalizer }]: the finalizer runs in both cases,
    and the completion is that of the body unless the finalizer throws. *)
Definition try_finally {A : Type} (body : M foreign A) (finalizer : M foreign unit)
  : M foreign A :=
  let (r, t) := body in
  match finalizer with
  | (Returned _, t') => (r, (t ++ t')%list)
  | (Thrown e, t') => (Thrown e, (t ++ t')%list)
  end.

End Monad.

Notation "x <- m ;; k" := (bind m (fun x => k))
  (at level 61, m at next level, right associativity).
Notation "m ;; k" := (bind m (fun _ => k))
  (at level 61, right associativity).

(** *** geminiService.ts, [analyzeResults] *)

Section Service.
Context {number : Type} {foreign client : Type}.
Variable ToString : number -> string.
Variable toFixed : number -> nat -> string.
Variable API_KEY : option string.  (* process.env.API_KEY *)
(** The constructor of the client, and [generateContent] awaited and its
    [text] read: each returns or throws. *)
Variable GoogleGenAI : option string -> outcome foreign client.
Variable generateContent : client -> string -> string -> outcome foreign (option string).

Definition new_GoogleGenAI (apiKey : option string) : M foreign client :=
  (GoogleGenAI apiKey, [NewGoogleGenAI apiKey]).

Definition models_generateContent (ai : client) (model contents : string)
  : M foreign (option string) :=
  (generateContent ai model contents, [GenerateContent model contents]).

Definition analyzeResults (inputs : SealInputs number) (results : SealResults number)
  : M foreign string :=
  if negb (ToBoolean API_KEY) then throw (Error "API Key 缺失")
  else
    ai <- new_GoogleGenAI API_KEY ;;
    let dataString := processInputsToString ToString toFixed inputs results in
    let prompt := prompt dataString in
    try_catch
      (text <- models_generateContent ai "gemini-2.5-flash" prompt ;;
       ret (or_else text "无法生成分析结果。"))
      (fun error =>
         emit (ConsoleError "Gemini API Error:" error) ;;
         throw (Error "生成 AI 分析失败。")).

(** *** App.tsx, the insight button *)

(** The three state variables the button reads and writes, with the initial
    values of their [useState]. *)
Record ui : Type := {
  aiAnalysis : string;
  isAnalyzing : bool;
  apiKeyMissing : bool
}.

Definition initial_ui : ui :=
  {| aiAnalysis := EmptyString; isAnalyzing := false; apiKeyMissing := false |}.

(** The state after the setter calls of a trace. *)
Definition set_state (s : ui) (ev : event foreign) : ui :=
  match ev with
  | SetAiAnalysis text =>
      {| aiAnalysis := text; isAnalyzing := isAnalyzing s; apiKeyMissing := apiKeyMissing s |}
  | SetIsAnalyzing b =>
      {| aiAnalysis := aiAnalysis s; isAnalyzing := b; apiKeyMissing := apiKeyMissing s |}
  | SetApiKeyMissing b =>
      {| aiAnalysis := aiAnalysis s; isAnalyzing := isAnalyzing s; apiKeyMissing := b |}
  | _ => s
  end.

Definition after (trace : list (event foreign)) (s : ui) : ui := fold_left set_state trace s.

(** The effect that runs once after the first render. *)
Definition check_api_key : M foreign unit :=
  if negb (ToBoolean API_KEY) then emit (SetApiKeyMissing true) else ret tt.

(** [handleGenerateInsight], for the [inputs] and [results] of the render it
    belongs to. *)
Definition handleGenerateInsight (inputs : SealInputs number)
  (results : option (SealResults number)) : M foreign unit :=
  match results with
  | None => ret tt
  | Some results =>
      emit (SetIsAnalyzing true) ;;
      try_finally
        (try_catch
           (text <- analyzeResults inputs results ;;
            emit (SetAiAnalysis text))
           (fun err => emit (SetAiAnalysis "生成分析时出错。请检查您的网络连接或 API Key。")))
        (emit (SetIsAnalyzing false))
  end.

(** The [disabled] attribute of the button, and the choice between the text
    and the placeholder below it. *)
Definition disabled (s : ui) : bool := isAnalyzing s || apiKeyMissing s.

Definition shows_analysis (s : ui) : bool := truthy (aiAnalysis s).

(** The requests to the service in a trace. *)
Definition is_request (ev : event foreign) : bool :=
  match ev with
  | GenerateContent _ _ => true
  | _ => false
  end.

Definition requests (trace : list (event foreign)) : list (event foreign) :=
  filter is_request trace.

End Service.

End Insight.

(** * Properties *)

(** ** Binary64: rounding

    Every operation of [SpecFloat] ends in [binary_round_aux], which shifts
    the significand to the exponent of the format, rounds to nearest even and
    shifts once more.  The lemmas below read it arithmetically, at precision
    53 and maximal exponent 1024: what it returns on a representable value,
    when it stays finite, how large the result can be, and that it commutes
    with doubling away from the subnormal range. *)

Section Binary64Arithmetic.
Import B64.
Local Open Scope Z_scope.

(** *** Digits and shifts *)

(** Names the powers of two, for [lia]. *)
Ltac abstract_pow :=
  repeat match goal with
         | |- context [Z.pow 2 ?x] =>
             let v := fresh "pw" in set (v := Z.pow 2 x) in *; clearbody v
         | H : context [Z.pow 2 ?x] |- _ =>
             let v := fresh "pw" in set (v := Z.pow 2 x) in *; clearbody v
         end.

(** [digits2_pos p] is the number of binary digits of [p]. *)
Lemma digits2_pos_bounds (p : positive) :
  2 ^ (Zpos (digits2_pos p) - 1) <= Zpos p < 2 ^ Zpos (digits2_pos p).
Proof.
  induction p as [p IH | p IH |]; cbn [digits2_pos].
  - rewrite Pos2Z.inj_succ, (Pos2Z.inj_xI p).
    replace (Z.succ (Zpos (digits2_pos p)) - 1) with (Z.succ (Zpos (digits2_pos p) - 1)) by lia.
    rewrite !Z.pow_succ_r by lia. abstract_pow; lia.
  - rewrite Pos2Z.inj_succ, (Pos2Z.inj_xO p).
    replace (Z.succ (Zpos (digits2_pos p)) - 1) with (Z.succ (Zpos (digits2_pos p) - 1)) by lia.
    rewrite !Z.pow_succ_r by lia. abstract_pow; lia.
  - cbn. lia.
Qed.

Lemma Zdigits2_le (z k : Z) : 0 <= k -> 0 <= z <= 2 ^ k -> Zdigits2 z <= k + 1.
Proof.
  intros Hk [Hz Hle]. destruct z as [| p | p]; cbn [Zdigits2]; [lia | | lia].
  destruct (digits2_pos_bounds p) as [Hlo _].
  destruct (Z_le_gt_dec (Zpos (digits2_pos p)) (k + 1)) as [H | H]; [assumption |].
  exfalso.
  assert (2 ^ (k + 1) <= 2 ^ (Zpos (digits2_pos p) - 1)) by (apply Z.pow_le_mono_r; lia).
  rewrite Z.pow_add_r in * by lia. lia.
Qed.

(** One right shift halves the significand, [iter_pos shr_1 n] divides it by
    2^n. *)
Lemma shr_1_m (mrs : shr_record) :
  0 <= shr_m mrs -> shr_m (shr_1 mrs) = shr_m mrs / 2.
Proof.
  destruct mrs as [m r s]; cbn [shr_m]. intros Hm.
  destruct m as [| q | q]; [reflexivity | | lia].
  destruct q as [q | q |]; cbn [shr_1 shr_m].
  - rewrite (Pos2Z.inj_xI q). apply Z.div_unique with (r := 1); lia.
  - rewrite (Pos2Z.inj_xO q). apply Z.div_unique with (r := 0); lia.
  - reflexivity.
Qed.

Lemma shr_1_nonneg (mrs : shr_record) : 0 <= shr_m mrs -> 0 <= shr_m (shr_1 mrs).
Proof.
  intros H. rewrite shr_1_m by assumption. apply Z.div_pos; lia.
Qed.

Lemma iter_pos_shr_1_m (n : positive) (mrs : shr_record) :
  0 <= shr_m mrs ->
  shr_m (SpecFloat.iter_pos shr_1 n mrs) = shr_m mrs / 2 ^ Zpos n.
Proof.
  revert mrs. induction n as [n IH | n IH |]; intros mrs Hm; cbn [SpecFloat.iter_pos].
  - assert (H1 := shr_1_nonneg mrs Hm).
    assert (H2 : 0 <= shr_m (SpecFloat.iter_pos shr_1 n (shr_1 mrs))).
    { rewrite IH by assumption. apply Z.div_pos; lia. }
    rewrite IH, IH, shr_1_m by assumption.
    rewrite !Z.div_div by lia. f_equal.
    rewrite (Pos2Z.inj_xI n), Z.pow_add_r, Z.pow_mul_r by lia.
    change (2 ^ 2) with 4. rewrite Z.pow_1_r.
    replace (4 ^ Zpos n) with (2 ^ Zpos n * 2 ^ Zpos n).
    2:{ rewrite <- Z.pow_mul_l. reflexivity. }
    lia.
  - assert (H2 : 0 <= shr_m (SpecFloat.iter_pos shr_1 n mrs)).
    { rewrite IH by assumption. apply Z.div_pos; lia. }
    rewrite IH, IH by assumption.
    rewrite !Z.div_div by lia. f_equal.
    rewrite (Pos2Z.inj_xO n), Z.pow_mul_r by lia.
    change (2 ^ 2) with 4.
    rewrite <- Z.pow_mul_l. reflexivity.
  - rewrite shr_1_m by assumption. reflexivity.
Qed.

Lemma shr_record_of_loc_m (m : Z) (l : location) : shr_m (shr_record_of_loc m l) = m.
Proof. destruct l as [| []]; reflexivity. Qed.

Lemma shr_spec (mrs : shr_record) (e n : Z) :
  0 <= shr_m mrs ->
  shr_m (fst (shr mrs e n)) = shr_m mrs / 2 ^ Z.max n 0 /\
  snd (shr mrs e n) = e + Z.max n 0.
Proof.
  intros Hm. destruct n as [| p | p]; cbn [shr fst snd].
  - rewrite Z.max_id, Z.pow_0_r, Z.div_1_r. lia.
  - rewrite Z.max_l by lia. split; [apply iter_pos_shr_1_m; assumption | reflexivity].
  - rewrite Z.max_r by lia. rewrite Z.pow_0_r, Z.div_1_r. lia.
Qed.

(** Rounding adds at most one to the truncated significand. *)
Lemma round_nearest_even_bounds (m : Z) (l : location) :
  m <= round_nearest_even m l <= m + 1.
Proof.
  destruct l as [| []]; cbn [round_nearest_even]; try lia.
  destruct (Z.even m); lia.
Qed.

(** The two shifts of [binary_round_aux], by their arithmetic. *)
Lemma binary_round_aux_spec (s : bool) (mx ex : Z) (lx : location) :
  0 <= mx ->
  exists m1 m2 e1 e2 : Z,
    e1 = ex + Z.max (fexp B64.prec B64.emax (Zdigits2 mx + ex) - ex) 0 /\
    mx / 2 ^ (e1 - ex) <= m1 <= mx / 2 ^ (e1 - ex) + 1 /\
    e2 = e1 + Z.max (fexp B64.prec B64.emax (Zdigits2 m1 + e1) - e1) 0 /\
    m2 = m1 / 2 ^ (e2 - e1) /\
    binary_round_aux B64.prec B64.emax s mx ex lx =
    match m2 with
    | Z0 => S754_zero s
    | Zpos m => if e2 <=? B64.emax - B64.prec then S754_finite s m e2 else S754_infinity s
    | Zneg _ => S754_nan
    end.
Proof.
  intros Hmx. unfold binary_round_aux, shr_fexp.
  set (n1 := fexp B64.prec B64.emax (Zdigits2 mx + ex) - ex).
  destruct (shr_spec (shr_record_of_loc mx lx) ex n1) as [Hm1 He1];
    [rewrite shr_record_of_loc_m; assumption |].
  destruct (shr (shr_record_of_loc mx lx) ex n1) as [mrs1 e1]; cbn [fst snd] in *.
  rewrite shr_record_of_loc_m in Hm1.
  set (m1 := round_nearest_even (shr_m mrs1) (loc_of_shr_record mrs1)).
  assert (Hr := round_nearest_even_bounds (shr_m mrs1) (loc_of_shr_record mrs1)).
  fold m1 in Hr.
  assert (H0 : 0 <= shr_m mrs1) by (rewrite Hm1; apply Z.div_pos; lia).
  set (n2 := fexp B64.prec B64.emax (Zdigits2 m1 + e1) - e1).
  destruct (shr_spec (shr_record_of_loc m1 loc_Exact) e1 n2) as [Hm2 He2];
    [rewrite shr_record_of_loc_m; lia |].
  destruct (shr (shr_record_of_loc m1 loc_Exact) e1 n2) as [mrs2 e2]; cbn [fst snd] in *.
  rewrite shr_record_of_loc_m in Hm2.
  exists m1, (shr_m mrs2), e1, e2.
  replace (e1 - ex) with (Z.max n1 0) by lia.
  replace (e2 - e1) with (Z.max n2 0) by lia.
  rewrite <- Hm1. repeat split; try assumption; lia.
Qed.

(** *** Finite results *)

(** A positive value whose magnitude is below 2^1023 rounds to a finite
    double. *)
Lemma binary_round_aux_finite (s : bool) (mx : positive) (ex : Z) (lx : location) :
  Zpos (digits2_pos mx) + ex + 1 <= B64.emax ->
  ex <= B64.emax - B64.prec ->
  B64.is_finite (binary_round_aux B64.prec B64.emax s (Zpos mx) ex lx) = true.
Proof.
  intros Hd He.
  destruct (@binary_round_aux_spec s (Zpos mx) ex lx) as (m1 & m2 & e1 & e2 & He1 & Hm1 & He2 & Hm2 & ->);
    [lia |].
  cbn [Zdigits2] in He1.
  unfold fexp, emin, B64.prec, B64.emax in *.
  set (d := Zpos (digits2_pos mx)) in *.
  destruct (digits2_pos_bounds mx) as [_ Hup]. fold d in Hup.
  assert (Hd0 : 0 < d) by (unfold d; lia).
  (* the mantissa after the first shift *)
  assert (Hq : 0 <= Zpos mx / 2 ^ (e1 - ex)) by (apply Z.div_pos; lia).
  assert (Hm1d : m1 <= 2 ^ Z.max (d - (e1 - ex)) 0).
  { destruct (Z_le_gt_dec (e1 - ex) d) as [Hle | Hgt].
    - rewrite Z.max_l by lia.
      assert (Zpos mx / 2 ^ (e1 - ex) < 2 ^ (d - (e1 - ex))).
      { apply Z.div_lt_upper_bound; [lia |].
        rewrite <- Z.pow_add_r by lia. replace (e1 - ex + (d - (e1 - ex))) with d by lia.
        assumption. }
      lia.
    - rewrite Z.max_r by lia. rewrite Z.pow_0_r.
      assert (Zpos mx / 2 ^ (e1 - ex) = 0).
      { apply Z.div_small. split; [lia |].
        apply Z.lt_le_trans with (2 ^ d); [assumption |].
        apply Z.pow_le_mono_r; lia. }
      lia. }
  assert (Hdig : Zdigits2 m1 <= Z.max (d - (e1 - ex)) 0 + 1)
    by (apply Zdigits2_le; lia).
  destruct m2 as [| m | m]; [reflexivity | |].
  - assert (Hle : (e2 <=? 1024 - 53) = true) by (apply Z.leb_le; lia).
    rewrite Hle. reflexivity.
  - exfalso. assert (0 <= m1 / 2 ^ (e2 - e1)) by (apply Z.div_pos; lia). lia.
Qed.

(** A significand within the format: 53 digits, or fewer at the least
    exponent. *)
Lemma bounded_cases (m : positive) (e : Z) :
  SpecFloat.bounded B64.prec B64.emax m e = true ->
  e <= 971 /\
  ((Zpos (digits2_pos m) = 53 /\ -1074 <= e) \/ (Zpos (digits2_pos m) < 53 /\ e = -1074)).
Proof.
  unfold SpecFloat.bounded, canonical_mantissa, fexp, emin, B64.prec, B64.emax.
  intros H. apply andb_true_iff in H. destruct H as [H1 H2].
  apply Z.eqb_eq in H1. apply Z.leb_le in H2. lia.
Qed.

Lemma digits2_pos_unique (p : positive) (d : Z) :
  2 ^ (d - 1) <= Zpos p < 2 ^ d -> Zpos (digits2_pos p) = d.
Proof.
  intros [Hlo Hhi]. destruct (digits2_pos_bounds p) as [Hlo' Hhi'].
  set (d' := Zpos (digits2_pos p)) in *.
  assert (Hd' : 0 < d') by (unfold d'; lia).
  destruct (Z_lt_le_dec d 1) as [Hd | Hd].
  { exfalso. assert (2 ^ d <= 2 ^ 0) by (apply Z.pow_le_mono_r; lia).
    rewrite Z.pow_0_r in *. lia. }
  destruct (Z.lt_trichotomy d' d) as [H | [H | H]]; [| assumption |]; exfalso.
  - assert (2 ^ d' <= 2 ^ (d - 1)) by (apply Z.pow_le_mono_r; lia). lia.
  - assert (2 ^ d <= 2 ^ (d' - 1)) by (apply Z.pow_le_mono_r; lia). lia.
Qed.

Lemma Zdigits2_shift (m : positive) (k : Z) :
  0 <= k -> Zdigits2 (Zpos m * 2 ^ k) = Zpos (digits2_pos m) + k.
Proof.
  intros Hk. destruct (digits2_pos_bounds m) as [Hlo Hhi].
  assert (Hp : 0 < 2 ^ k) by (apply Z.pow_pos_nonneg; lia).
  destruct (Zpos m * 2 ^ k) as [| p | p] eqn:E; [lia | | lia].
  cbn [Zdigits2]. apply digits2_pos_unique. rewrite <- E.
  replace (Zpos (digits2_pos m) + k - 1) with (Zpos (digits2_pos m) - 1 + k) by lia.
  rewrite !Z.pow_add_r by lia. nia.
Qed.

Lemma shr_1_double (k : Z) :
  0 <= k ->
  shr_1 {| shr_m := 2 * k; shr_r := false; shr_s := false |}
  = {| shr_m := k; shr_r := false; shr_s := false |}.
Proof.
  intros Hk. destruct k as [| p | p]; [reflexivity | reflexivity | lia].
Qed.

Lemma iter_pos_shr_1_exact (n : positive) (k : Z) :
  0 <= k ->
  SpecFloat.iter_pos shr_1 n {| shr_m := k * 2 ^ Zpos n; shr_r := false; shr_s := false |}
  = {| shr_m := k; shr_r := false; shr_s := false |}.
Proof.
  revert k. induction n as [n IH | n IH |]; intros k Hk; cbn [SpecFloat.iter_pos].
  - assert (Hp : 0 < 2 ^ Zpos n) by (apply Z.pow_pos_nonneg; lia).
    replace (k * 2 ^ Zpos n~1) with (2 * (k * 2 ^ Zpos n * 2 ^ Zpos n)).
    2:{ rewrite (Pos2Z.inj_xI n), Z.pow_add_r, Z.pow_mul_r by lia.
        change (2 ^ 2) with 4. rewrite Z.pow_1_r.
        replace (4 ^ Zpos n) with (2 ^ Zpos n * 2 ^ Zpos n)
          by (rewrite <- Z.pow_mul_l; reflexivity).
        ring. }
    rewrite shr_1_double by nia. rewrite IH by nia. apply IH; assumption.
  - assert (Hp : 0 < 2 ^ Zpos n) by (apply Z.pow_pos_nonneg; lia).
    replace (k * 2 ^ Zpos n~0) with (k * 2 ^ Zpos n * 2 ^ Zpos n).
    2:{ rewrite (Pos2Z.inj_xO n), Z.pow_mul_r by lia.
        change (2 ^ 2) with 4.
        replace (4 ^ Zpos n) with (2 ^ Zpos n * 2 ^ Zpos n)
          by (rewrite <- Z.pow_mul_l; reflexivity).
        ring. }
    rewrite IH by nia. apply IH; assumption.
  - rewrite Z.pow_1_r, Z.mul_comm. apply shr_1_double; assumption.
Qed.

(** Rounding a value that is representable returns it: [m * 2^k] at exponent
    [e], with [(m, e + k)] canonical. *)
Lemma binary_round_aux_exact (s : bool) (m : positive) (k e : Z) :
  0 <= k ->
  fexp B64.prec B64.emax (Zpos (digits2_pos m) + (e + k)) = e + k ->
  binary_round_aux B64.prec B64.emax s (Zpos m * 2 ^ k) e loc_Exact
  = if e + k <=? B64.emax - B64.prec then S754_finite s m (e + k) else S754_infinity s.
Proof.
  intros Hk Hcanon. unfold binary_round_aux, shr_fexp.
  rewrite Zdigits2_shift by assumption.
  replace (Zpos (digits2_pos m) + k + e) with (Zpos (digits2_pos m) + (e + k)) by lia.
  rewrite Hcanon. replace (e + k - e) with k by lia.
  cbn [shr_record_of_loc].
  assert (Hshr : shr {| shr_m := Zpos m * 2 ^ k; shr_r := false; shr_s := false |} e k
                 = ({| shr_m := Zpos m; shr_r := false; shr_s := false |}, e + k)).
  { destruct k as [| p | p]; cbn [shr]; [| | lia].
    - rewrite Z.pow_0_r, Z.mul_1_r, Z.add_0_r. reflexivity.
    - rewrite iter_pos_shr_1_exact by lia. reflexivity. }
  rewrite Hshr. cbn [shr_m loc_of_shr_record round_nearest_even Zdigits2 shr_record_of_loc].
  rewrite Hcanon, Z.sub_diag. cbn [shr shr_m]. reflexivity.
Qed.

(** *** The product with 2 *)

(** [2 * x] for a finite [x]: the next exponent for a normal [x] (or
    overflow), the doubled significand for a subnormal one. *)
Lemma fmul_two (s : bool) (m : positive) (e : Z) :
  SpecFloat.bounded B64.prec B64.emax m e = true ->
  B64.fmul (lit 2%Q) (S754_finite s m e) =
  if (Zpos (digits2_pos m) =? 53)
  then (if e + 1 <=? 971 then S754_finite s m (e + 1) else S754_infinity s)
  else S754_finite s m~0 e.
Proof.
  intros Hb. destruct (bounded_cases m e Hb) as [He [[Hd Hlo] | [Hd Hlo]]].
  - rewrite (proj2 (Z.eqb_eq _ _) Hd).
    change (lit 2%Q) with (S754_finite false 4503599627370496 (-51)).
    unfold B64.fmul, SFmul. cbn [xorb].
    replace (Zpos (4503599627370496 * m)) with (Zpos m * 2 ^ 52) by (rewrite Pos2Z.inj_mul; lia).
    rewrite binary_round_aux_exact; [| lia |].
    + replace (-51 + e + 52) with (e + 1) by lia. reflexivity.
    + unfold fexp, emin, B64.prec, B64.emax. lia.
  - assert (Hne : (Zpos (digits2_pos m) =? 53) = false) by (apply Z.eqb_neq; lia).
    rewrite Hne.
    change (lit 2%Q) with (S754_finite false 4503599627370496 (-51)).
    unfold B64.fmul, SFmul. cbn [xorb].
    replace (Zpos (4503599627370496 * m)) with (Zpos m~0 * 2 ^ 51)
      by (rewrite Pos2Z.inj_mul, (Pos2Z.inj_xO m); lia).
    rewrite binary_round_aux_exact; [| lia |].
    + replace (-51 + e + 51) with e by lia.
      assert (Hle : (e <=? B64.emax - B64.prec) = true)
        by (apply Z.leb_le; unfold B64.emax, B64.prec; lia).
      rewrite Hle. reflexivity.
    + cbn [digits2_pos]. rewrite Pos2Z.inj_succ.
      unfold fexp, emin, B64.prec, B64.emax. lia.
Qed.

Lemma digits2_pos_le (p : positive) (k : Z) : Zpos p < 2 ^ k -> Zpos (digits2_pos p) <= k.
Proof.
  intros Hlt. destruct (digits2_pos_bounds p) as [Hlo _].
  destruct (Z_le_gt_dec (Zpos (digits2_pos p)) k) as [H | H]; [assumption | exfalso].
  assert (2 ^ k <= 2 ^ (Zpos (digits2_pos p) - 1)).
  { destruct (Z_lt_le_dec k 0) as [Hk | Hk].
    - rewrite (Z.pow_neg_r 2 k) by assumption. apply Z.pow_nonneg; lia.
    - apply Z.pow_le_mono_r; lia. }
  lia.
Qed.

Lemma digits2_pos_mul (a b : positive) :
  Zpos (digits2_pos (a * b)) <= Zpos (digits2_pos a) + Zpos (digits2_pos b).
Proof.
  apply digits2_pos_le.
  destruct (digits2_pos_bounds a) as [_ Ha], (digits2_pos_bounds b) as [_ Hb].
  rewrite Pos2Z.inj_mul, Z.pow_add_r by lia. nia.
Qed.

(** A product whose magnitude stays below 2^1023 does not overflow. *)
Lemma fmul_finite (sx sy : bool) (mx my : positive) (ex ey : Z) :
  Zpos (digits2_pos mx) + Zpos (digits2_pos my) + (ex + ey) + 1 <= B64.emax ->
  ex + ey <= B64.emax - B64.prec ->
  B64.is_finite (B64.fmul (S754_finite sx mx ex) (S754_finite sy my ey)) = true.
Proof.
  intros Hd He. unfold B64.fmul, SFmul. apply binary_round_aux_finite; [| assumption].
  pose proof (digits2_pos_mul mx my). lia.
Qed.


(** *** The zero-speed boundary: supporting facts *)

Lemma positive_finite_inv (x : B64.float) :
  B64.positive_finite x = true ->
  exists m e, x = S754_finite false m e /\ SpecFloat.bounded B64.prec B64.emax m e = true.
Proof.
  destruct x as [| | | [] m e]; try discriminate. intros H. exists m, e. split; [reflexivity | exact H].
Qed.

Lemma fmul_two_positive (x : B64.float) :
  B64.positive_finite x = true ->
  (exists m e, B64.fmul (lit 2%Q) x = S754_finite false m e) \/
  B64.fmul (lit 2%Q) x = S754_infinity false.
Proof.
  intros Hx. destruct (positive_finite_inv x Hx) as (m & e & -> & Hb).
  rewrite fmul_two by assumption.
  destruct (Zpos (digits2_pos m) =? 53); [destruct (e + 1 <=? 971) |]; eauto.
Qed.

Lemma valid_inputs_inv (i : SealInputs B64.float) :
  B64.valid_inputs i = true ->
  B64.positive_finite (d_outer i) = true /\ B64.nonneg_finite (n_rpm i) = true /\
  B64.positive_finite (rho i) = true /\ B64.positive_finite (mu i) = true /\
  B64.positive_finite (lambda_gas i) = true /\ B64.positive_finite (Pr i) = true /\
  B64.nonneg_finite (u_axial i) = true /\ B64.positive_finite (delta_gap i) = true /\
  B64.positive_finite (d_hyd i) = true /\ B64.positive_finite (B i) = true.
Proof.
  unfold B64.valid_inputs. rewrite !andb_true_iff. tauto.
Qed.


(** *** Scaling by two *)

Lemma shr_fst_same (mrs : shr_record) (e e' n n' : Z) :
  Z.max n 0 = Z.max n' 0 -> fst (shr mrs e n) = fst (shr mrs e' n').
Proof.
  intros H. destruct n as [| p | p], n' as [| p' | p']; cbn [shr fst]; try reflexivity; try lia.
  assert (p = p') by lia. subst. reflexivity.
Qed.

Lemma shr_snd (mrs : shr_record) (e n : Z) : snd (shr mrs e n) = e + Z.max n 0.
Proof. destruct n; cbn [shr snd]; lia. Qed.

(** Doubling the value doubles the rounded result, away from the subnormal
    range and from overflow. *)
Lemma binary_round_aux_scale (s s' : bool) (mx ex : Z) (lx : location) (m : positive) (e : Z) :
  0 <= mx ->
  binary_round_aux B64.prec B64.emax s mx ex lx = S754_finite s' m e ->
  -1073 < e -> e + 1 <= 971 ->
  binary_round_aux B64.prec B64.emax s mx (ex + 1) lx = S754_finite s' m (e + 1).
Proof.
  intros Hmx Hres Hlo Hhi. revert Hres. unfold binary_round_aux, shr_fexp.
  set (R := shr_record_of_loc mx lx).
  set (d := Zdigits2 mx).
  set (n1 := fexp B64.prec B64.emax (d + ex) - ex).
  set (n1' := fexp B64.prec B64.emax (d + (ex + 1)) - (ex + 1)).
  assert (HR : 0 <= shr_m R) by (unfold R; rewrite shr_record_of_loc_m; assumption).
  destruct (shr_spec R ex n1 HR) as [Hm1 He1].
  pose proof (shr_snd R (ex + 1) n1') as He1'.
  pose proof (shr_fst_same R ex (ex + 1) n1 n1') as Hsame1.
  destruct (shr R ex n1) as [mrs1 e1]. destruct (shr R (ex + 1) n1') as [mrs1' e1'].
  cbn [fst snd] in *.
  set (m1 := round_nearest_even (shr_m mrs1) (loc_of_shr_record mrs1)).
  assert (Hr := round_nearest_even_bounds (shr_m mrs1) (loc_of_shr_record mrs1)).
  fold m1 in Hr.
  set (R1 := shr_record_of_loc m1 loc_Exact).
  set (d1 := Zdigits2 m1).
  set (n2 := fexp B64.prec B64.emax (d1 + e1) - e1).
  assert (Hq : 0 <= shr_m mrs1) by (rewrite Hm1; apply Z.div_pos; lia).
  assert (HR1 : 0 <= shr_m R1) by (unfold R1; rewrite shr_record_of_loc_m; lia).
  destruct (shr_spec R1 e1 n2 HR1) as [Hm2 He2].
  (* the magnitude of the mantissa after the first shift *)
  assert (Hd : 0 <= d) by (unfold d; destruct mx; cbn; lia).
  assert (Hmxd : mx < 2 ^ d).
  { unfold d. destruct mx as [| p | p]; cbn [Zdigits2]; [cbn; lia | | lia].
    apply (digits2_pos_bounds p). }
  assert (Hd1 : d1 <= Z.max (d - Z.max n1 0) 0 + 1).
  { unfold d1. apply Zdigits2_le; [lia |]. split; [lia |].
    unfold R in Hm1; rewrite shr_record_of_loc_m in Hm1.
    destruct (Z_le_gt_dec (Z.max n1 0) d) as [Hle | Hgt].
    - rewrite Z.max_l by lia.
      assert (mx / 2 ^ Z.max n1 0 < 2 ^ (d - Z.max n1 0)).
      { apply Z.div_lt_upper_bound; [lia |].
        rewrite <- Z.pow_add_r by lia.
        replace (Z.max n1 0 + (d - Z.max n1 0)) with d by lia. assumption. }
      lia.
    - rewrite Z.max_r by lia. rewrite Z.pow_0_r.
      assert (mx / 2 ^ Z.max n1 0 = 0).
      { apply Z.div_small. split; [lia |].
        apply Z.lt_le_trans with (2 ^ d); [assumption |].
        apply Z.pow_le_mono_r; lia. }
      lia. }
  destruct (shr R1 e1 n2) as [mrs2 e2] eqn:Eshr2. cbn [fst snd] in *.
  intros Hres.
  assert (He : e2 = e /\ shr_m mrs2 = Zpos m /\ s = s').
  { destruct (shr_m mrs2) as [| q | q]; try discriminate Hres.
    destruct (e2 <=? B64.emax - B64.prec); try discriminate Hres.
    injection Hres as -> -> ->. auto. }
  destruct He as (-> & Hm & ->).
  unfold fexp, emin, B64.prec, B64.emax in *.
  assert (Hn1 : Z.max n1 0 = Z.max n1' 0) by lia.
  specialize (Hsame1 Hn1). subst mrs1'.
  fold m1. fold R1. fold d1.
  assert (He1'' : e1' = e1 + 1) by lia. rewrite He1''.
  set (n2' := Z.max (d1 + (e1 + 1) - 53) (3 - 1024 - 53) - (e1 + 1)).
  assert (Hn2 : Z.max n2 0 = Z.max n2' 0) by lia.
  pose proof (shr_fst_same R1 e1 (e1 + 1) n2 n2' Hn2) as Hsame2.
  pose proof (shr_snd R1 (e1 + 1) n2') as He2'.
  rewrite Eshr2 in Hsame2. cbn [fst] in Hsame2.
  destruct (shr R1 (e1 + 1) n2') as [mrs2' e2']. cbn [fst snd] in *. subst mrs2'.
  rewrite Hm.
  assert (Hle : (e2' <=? 1024 - 53) = true) by (apply Z.leb_le; lia).
  rewrite Hle. f_equal. lia.
Qed.

(** A product and a quotient whose rounded result is [inner]: the same
    operation on a twice larger value returns [twice] that result. *)
Lemma fmul_scale (sx sy s : bool) (mx my m : positive) (ex ey e : Z) :
  B64.fmul (S754_finite sx mx ex) (S754_finite sy my ey) = S754_finite s m e ->
  -1073 < e -> e + 1 <= 971 ->
  B64.fmul (S754_finite sx mx (ex + 1)) (S754_finite sy my ey) = S754_finite s m (e + 1).
Proof.
  unfold B64.fmul, SFmul. intros H Hlo Hhi.
  replace (ex + 1 + ey) with (ex + ey + 1) by lia.
  apply binary_round_aux_scale; [lia | assumption ..].
Qed.

(** The exponent of a rounded result is at most one above the exponent the
    format gives to the magnitude of the value. *)
Lemma binary_round_aux_exponent (s s' : bool) (mx ex : Z) (lx : location) (m : positive) (e : Z) :
  0 <= mx ->
  binary_round_aux B64.prec B64.emax s mx ex lx = S754_finite s' m e ->
  e <= Z.max ex (fexp B64.prec B64.emax (Zdigits2 mx + ex)) + 1.
Proof.
  intros Hmx Hres.
  destruct (@binary_round_aux_spec s mx ex lx Hmx)
    as (m1 & m2 & e1 & e2 & He1 & Hm1 & He2 & Hm2 & Heq).
  rewrite Heq in Hres.
  assert (He : e2 = e).
  { destruct m2 as [| q | q]; try discriminate Hres.
    destruct (e2 <=? B64.emax - B64.prec); try discriminate Hres.
    injection Hres as _ _ ->. reflexivity. }
  subst e2.
  set (d := Zdigits2 mx) in *.
  assert (Hd : 0 <= d) by (unfold d; destruct mx; cbn; lia).
  assert (Hmxd : mx < 2 ^ d).
  { unfold d. destruct mx as [| p | p]; cbn [Zdigits2]; [cbn; lia | | lia].
    apply (digits2_pos_bounds p). }
  assert (Hq : 0 <= mx / 2 ^ (e1 - ex)) by (apply Z.div_pos; lia).
  assert (Hd1 : Zdigits2 m1 <= Z.max (d - (e1 - ex)) 0 + 1).
  { apply Zdigits2_le; [lia |]. split; [lia |].
    destruct (Z_le_gt_dec (e1 - ex) d) as [Hle | Hgt].
    - rewrite Z.max_l by lia.
      assert (mx / 2 ^ (e1 - ex) < 2 ^ (d - (e1 - ex))).
      { apply Z.div_lt_upper_bound; [lia |].
        rewrite <- Z.pow_add_r by lia.
        replace (e1 - ex + (d - (e1 - ex))) with d by lia. assumption. }
      lia.
    - rewrite Z.max_r by lia. rewrite Z.pow_0_r.
      assert (mx / 2 ^ (e1 - ex) = 0).
      { apply Z.div_small. split; [lia |].
        apply Z.lt_le_trans with (2 ^ d); [assumption |].
        apply Z.pow_le_mono_r; lia. }
      lia. }
  unfold fexp, emin, B64.prec, B64.emax in *. lia.
Qed.

Lemma Zdigits2_lt (z k : Z) : 0 <= k -> 0 <= z < 2 ^ k -> Zdigits2 z <= k.
Proof.
  intros Hk [Hz Hlt]. destruct z as [| p | p]; cbn [Zdigits2]; [lia | | lia].
  apply digits2_pos_le; assumption.
Qed.

Lemma fdiv_scale (sx sy s : bool) (mx my m : positive) (ex ey e : Z) :
  B64.fdiv (S754_finite sx mx ex) (S754_finite sy my ey) = S754_finite s m e ->
  -1073 < e -> e + 1 <= 971 ->
  B64.fdiv (S754_finite sx mx (ex + 1)) (S754_finite sy my ey) = S754_finite s m (e + 1).
Proof.
  unfold B64.fdiv, SFdiv, SFdiv_core_binary. cbn [Zdigits2].
  set (d1 := Zpos (digits2_pos mx)). set (d2 := Zpos (digits2_pos my)).
  set (e' := Z.min (fexp B64.prec B64.emax (d1 + ex - (d2 + ey))) (ex - ey)).
  set (e'' := Z.min (fexp B64.prec B64.emax (d1 + (ex + 1) - (d2 + ey))) (ex + 1 - ey)).
  assert (Hd1 : 0 < d1) by (unfold d1; lia).
  assert (Hd2 : 0 < d2) by (unfold d2; lia).
  destruct (digits2_pos_bounds mx) as [_ Hmx]. fold d1 in Hmx.
  destruct (digits2_pos_bounds my) as [Hmy _]. fold d2 in Hmy.
  assert (Hs : 0 <= ex - ey - e') by (unfold e'; lia).
  set (m' := match ex - ey - e' with
             | Z0 => Zpos mx
             | Zpos _ => Z.shiftl (Zpos mx) (ex - ey - e')
             | Zneg _ => 0
             end).
  assert (Hm' : m' = Zpos mx * 2 ^ (ex - ey - e')).
  { unfold m'. destruct (ex - ey - e') as [| p | p]; [| | lia].
    - rewrite Z.pow_0_r; lia.
    - apply Z.shiftl_mul_pow2; lia. }
  intros Hres Hlo Hhi.
  (* away from the subnormal range the quotient is computed at the next exponent *)
  assert (He'' : e'' = e' + 1).
  { unfold e'', e', fexp, emin, B64.prec, B64.emax in *.
    destruct (Z_le_gt_dec (3 - 1024 - 53) (d1 + ex - (d2 + ey) - 53)) as [Hc | Hc]; [lia |].
    destruct (Z_lt_le_dec (ex - ey) (3 - 1024 - 53)) as [Hc' | Hc']; [lia |].
    exfalso.
    assert (He'v : Z.min (Z.max (d1 + ex - (d2 + ey) - 53) (3 - 1024 - 53)) (ex - ey) = -1074)
      by lia.
    rewrite He'v in *.
    destruct (Z.div_eucl m' (Zpos my)) as [q r] eqn:Ediv.
    assert (Hq : q = m' / Zpos my) by (unfold Z.div; rewrite Ediv; reflexivity).
    assert (Hq0 : 0 <= q) by (rewrite Hq; apply Z.div_pos; lia).
    assert (Hp : 0 < 2 ^ (ex - ey - -1074)) by (apply Z.pow_pos_nonneg; lia).
    assert (Hdq : Zdigits2 q <= 53).
    { apply Zdigits2_lt; [lia |]. split; [assumption |].
      rewrite Hq. apply Z.div_lt_upper_bound; [lia |].
      rewrite Hm'.
      apply Z.lt_le_trans with (2 ^ d1 * 2 ^ (ex - ey - -1074)); [nia |].
      rewrite <- Z.pow_add_r by lia.
      apply Z.le_trans with (2 ^ (d2 - 1) * 2 ^ 53); [| nia].
      rewrite <- Z.pow_add_r by lia. apply Z.pow_le_mono_r; lia. }
    pose proof (binary_round_aux_exponent _ _ _ Hq0 Hres) as Hexp.
    unfold fexp, emin, B64.prec, B64.emax in Hexp. lia. }
  rewrite He''.
  replace (ex + 1 - ey - (e' + 1)) with (ex - ey - e') by lia.
  fold m'.
  destruct (Z.div_eucl m' (Zpos my)) as [q r] eqn:Ediv.
  apply binary_round_aux_scale; try assumption.
  assert (Hq : q = m' / Zpos my) by (unfold Z.div; rewrite Ediv; reflexivity).
  rewrite Hq. apply Z.div_pos; [| lia].
  rewrite Hm'. assert (0 < 2 ^ (ex - ey - e')) by (apply Z.pow_pos_nonneg; lia). nia.
Qed.


(** *** Magnitudes of results *)

Lemma below_mono (k k' : Z) (x : B64.float) : k <= k' -> below k x = true -> below k' x = true.
Proof.
  intros Hk. destruct x as [| | | [] m e]; cbn [below]; try easy.
  rewrite !Z.leb_le. lia.
Qed.

Lemma below_finite (k : Z) (x : B64.float) : below k x = true -> B64.is_finite x = true.
Proof. destruct x as [| | | [] m e]; cbn; easy. Qed.

Lemma Zdigits2_nonneg (z : Z) : 0 <= Zdigits2 z.
Proof. destruct z; cbn; lia. Qed.

Lemma Zdigits2_bound (z : Z) : 0 <= z -> z < 2 ^ Zdigits2 z.
Proof.
  intros Hz. destruct z as [| p | p]; cbn [Zdigits2]; [cbn; lia | | lia].
  apply (digits2_pos_bounds p).
Qed.

Lemma Zdigits2_div_pow2 (z t : Z) :
  0 <= z -> 0 <= t -> Zdigits2 (z / 2 ^ t) <= Z.max (Zdigits2 z - t) 0.
Proof.
  intros Hz Ht. pose proof (Zdigits2_bound Hz) as Hb. pose proof (Zdigits2_nonneg z) as Hd.
  assert (Hp : 0 < 2 ^ t) by (apply Z.pow_pos_nonneg; lia).
  apply Zdigits2_lt; [lia |]. split; [apply Z.div_pos; lia |].
  destruct (Z_le_gt_dec t (Zdigits2 z)) as [Hle | Hgt].
  - rewrite Z.max_l by lia. apply Z.div_lt_upper_bound; [lia |].
    rewrite <- Z.pow_add_r by lia. replace (t + (Zdigits2 z - t)) with (Zdigits2 z) by lia.
    assumption.
  - rewrite Z.max_r by lia. rewrite Z.pow_0_r.
    rewrite Z.div_small; [lia |]. split; [lia |].
    apply Z.lt_le_trans with (2 ^ Zdigits2 z); [assumption |].
    apply Z.pow_le_mono_r; lia.
Qed.

(** A non-negative value below 2^k rounds to a non-negative finite double
    below 2^(k+1). *)
Lemma binary_round_aux_below (mx ex : Z) (lx : location) (k : Z) :
  0 <= mx -> Zdigits2 mx + ex <= k -> -1074 <= k -> k + 1 <= 1024 -> ex <= 971 ->
  below (k + 1) (binary_round_aux B64.prec B64.emax false mx ex lx) = true.
Proof.
  intros Hmx Hk Hlo Hhi Hex.
  destruct (@binary_round_aux_spec false mx ex lx Hmx)
    as (m1 & m2 & e1 & e2 & He1 & Hm1 & He2 & Hm2 & ->).
  set (d := Zdigits2 mx) in *.
  pose proof (Zdigits2_nonneg mx) as Hd. fold d in Hd.
  pose proof (Zdigits2_bound Hmx) as Hmxd. fold d in Hmxd.
  assert (Hq : 0 <= mx / 2 ^ (e1 - ex)) by (apply Z.div_pos; lia).
  assert (Hd1 : Zdigits2 m1 <= Z.max (d - (e1 - ex)) 0 + 1).
  { apply Zdigits2_le; [lia |]. split; [lia |].
    destruct (Z_le_gt_dec (e1 - ex) d) as [Hle | Hgt].
    - rewrite Z.max_l by lia.
      assert (mx / 2 ^ (e1 - ex) < 2 ^ (d - (e1 - ex))).
      { apply Z.div_lt_upper_bound; [lia |].
        rewrite <- Z.pow_add_r by lia.
        replace (e1 - ex + (d - (e1 - ex))) with d by lia. assumption. }
      lia.
    - rewrite Z.max_r by lia. rewrite Z.pow_0_r.
      assert (mx / 2 ^ (e1 - ex) = 0).
      { apply Z.div_small. split; [lia |].
        apply Z.lt_le_trans with (2 ^ d); [assumption |].
        apply Z.pow_le_mono_r; lia. }
      lia. }
  assert (Hm1' : 0 <= m1) by lia.
  assert (Ht : 0 <= e2 - e1) by lia.
  pose proof (Zdigits2_div_pow2 Hm1' Ht) as Hd2. rewrite <- Hm2 in Hd2.
  pose proof (Zdigits2_nonneg m1) as Hd1'.
  unfold fexp, emin, B64.prec, B64.emax in *.
  destruct m2 as [| m | m]; cbn [below]; [reflexivity | |].
  - assert (Hle : (e2 <=? 1024 - 53) = true) by (apply Z.leb_le; lia).
    rewrite Hle. cbn [below]. apply Z.leb_le. cbn [Zdigits2] in Hd2. lia.
  - exfalso. assert (0 <= m1 / 2 ^ (e2 - e1)) by (apply Z.div_pos; lia). lia.
Qed.

(** The magnitude of a product, of a quotient and of a sum, from those of
    the operands. *)
Lemma fmul_below (a b : Z) (x y : B64.float) :
  below a x = true -> below b y = true -> -1074 <= a + b -> a + b <= 973 ->
  below (a + b + 1) (B64.fmul x y) = true.
Proof.
  intros Hx Hy Hlo Hhi.
  destruct x as [sx | | | [] mx ex], y as [sy | | | [] my ey]; try discriminate; try reflexivity.
  cbn [below] in Hx, Hy. apply Z.leb_le in Hx, Hy.
  unfold B64.fmul, SFmul. cbn [xorb].
  pose proof (digits2_pos_mul mx my) as Hd.
  assert (0 < Zpos (digits2_pos mx)) by lia. assert (0 < Zpos (digits2_pos my)) by lia.
  apply binary_round_aux_below; cbn [Zdigits2]; lia.
Qed.

Lemma fdiv_below (a b : Z) (x y : B64.float) :
  below a x = true -> above b y = true -> -1075 <= a - b -> a - b <= 1022 ->
  below (a - b + 2) (B64.fdiv x y) = true.
Proof.
  intros Hx Hy Hlo Hhi.
  destruct x as [sx | | | [] mx ex], y as [sy | | | [] my ey]; try discriminate; try reflexivity.
  cbn [below above] in Hx, Hy. apply Z.leb_le in Hx, Hy.
  unfold B64.fdiv, SFdiv, SFdiv_core_binary. cbn [Zdigits2 xorb].
  set (d1 := Zpos (digits2_pos mx)) in *. set (d2 := Zpos (digits2_pos my)) in *.
  set (e' := Z.min (fexp B64.prec B64.emax (d1 + ex - (d2 + ey))) (ex - ey)).
  assert (Hd1 : 0 < d1) by (unfold d1; lia).
  assert (Hd2 : 0 < d2) by (unfold d2; lia).
  destruct (digits2_pos_bounds mx) as [_ Hmx]. fold d1 in Hmx.
  destruct (digits2_pos_bounds my) as [Hmy _]. fold d2 in Hmy.
  assert (Hs : 0 <= ex - ey - e') by (unfold e'; lia).
  set (m' := match ex - ey - e' with
             | Z0 => Zpos mx
             | Zpos _ => Z.shiftl (Zpos mx) (ex - ey - e')
             | Zneg _ => 0
             end).
  assert (Hm' : m' = Zpos mx * 2 ^ (ex - ey - e')).
  { unfold m'. destruct (ex - ey - e') as [| p | p]; [| | lia].
    - rewrite Z.pow_0_r; lia.
    - apply Z.shiftl_mul_pow2; lia. }
  destruct (Z.div_eucl m' (Zpos my)) as [q r] eqn:Ediv.
  assert (Hq : q = m' / Zpos my) by (unfold Z.div; rewrite Ediv; reflexivity).
  assert (Hp : 0 < 2 ^ (ex - ey - e')) by (apply Z.pow_pos_nonneg; lia).
  assert (Hq0 : 0 <= q) by (rewrite Hq; apply Z.div_pos; nia).
  assert (Hdq : Zdigits2 q <= Z.max (d1 + (ex - ey - e') - d2 + 1) 0).
  { apply Zdigits2_lt; [lia |]. split; [assumption |].
    rewrite Hq. apply Z.div_lt_upper_bound; [lia |]. rewrite Hm'.
    apply Z.lt_le_trans with (2 ^ d1 * 2 ^ (ex - ey - e')); [nia |].
    rewrite <- Z.pow_add_r by lia.
    apply Z.le_trans with (2 ^ (d2 - 1) * 2 ^ Z.max (d1 + (ex - ey - e') - d2 + 1) 0).
    - rewrite <- Z.pow_add_r by lia. apply Z.pow_le_mono_r; lia.
    - assert (0 < 2 ^ Z.max (d1 + (ex - ey - e') - d2 + 1) 0) by (apply Z.pow_pos_nonneg; lia).
      nia. }
  replace (a - b + 2) with (a - b + 1 + 1) by lia.
  unfold e', fexp, emin, B64.prec, B64.emax in *.
  apply binary_round_aux_below; lia.
Qed.

Lemma shl_align_spec (m : positive) (e e' : Z) :
  let '(m', e'') := shl_align m e e' in
  e'' = Z.min e e' /\ Zpos (digits2_pos m') + e'' = Zpos (digits2_pos m) + e.
Proof.
  unfold shl_align. destruct (e' - e) as [| p | p] eqn:E; [split; lia | split; lia |].
  split; [lia |].
  pose proof (shift_pos_correct p m) as Hs. unfold shift_pos in Hs.
  change (Z.pow_pos 2 p) with (2 ^ Zpos p) in Hs.
  pose proof (@Zdigits2_shift m (Zpos p)) as Hd. rewrite Z.mul_comm, <- Hs in Hd.
  cbn [Zdigits2] in Hd. lia.
Qed.

Lemma digits2_pos_add (a b : positive) :
  Zpos (digits2_pos (a + b)) <= Z.max (Zpos (digits2_pos a)) (Zpos (digits2_pos b)) + 1.
Proof.
  apply digits2_pos_le.
  destruct (digits2_pos_bounds a) as [_ Ha], (digits2_pos_bounds b) as [_ Hb].
  set (da := Zpos (digits2_pos a)) in *. set (db := Zpos (digits2_pos b)) in *.
  assert (0 < da) by (unfold da; lia). assert (0 < db) by (unfold db; lia).
  rewrite Z.pow_add_r, Z.pow_1_r by lia.
  assert (2 ^ da <= 2 ^ Z.max da db) by (apply Z.pow_le_mono_r; lia).
  assert (2 ^ db <= 2 ^ Z.max da db) by (apply Z.pow_le_mono_r; lia).
  rewrite Pos2Z.inj_add. lia.
Qed.

Lemma fadd_below (a b : Z) (x y : B64.float) :
  below a x = true -> below b y = true -> -1075 <= Z.max a b -> Z.max a b <= 972 ->
  below (Z.max a b + 2) (B64.fadd x y) = true.
Proof.
  intros Hx Hy Hlo Hhi.
  destruct x as [sx | | | [] mx ex], y as [sy | | | [] my ey]; try discriminate.
  - destruct sx, sy; reflexivity.
  - cbn [B64.fadd SFadd]. unfold B64.fadd, SFadd. apply below_mono with b; [lia | assumption].
  - unfold B64.fadd, SFadd. apply below_mono with a; [lia | assumption].
  - cbn [below] in Hx, Hy. apply Z.leb_le in Hx, Hy.
    unfold B64.fadd, SFadd. cbn [cond_Zopp].
    pose proof (shl_align_spec mx ex (Z.min ex ey)) as Hax.
    pose proof (shl_align_spec my ey (Z.min ex ey)) as Hay.
    destruct (shl_align mx ex (Z.min ex ey)) as [mx' ex'].
    destruct (shl_align my ey (Z.min ex ey)) as [my' ey'].
    cbn [fst]. destruct Hax as [Hex' Hdx], Hay as [Hey' Hdy].
    change (Zpos mx' + Zpos my') with (Zpos (mx' + my')).
    cbn [binary_normalize]. unfold binary_round.
    pose proof (digits2_pos_add mx' my') as Hsum.
    set (ms := (mx' + my')%positive) in *.
    pose proof (shl_align_spec ms (Z.min ex ey)
                  (fexp B64.prec B64.emax (Zpos (digits2_pos ms) + Z.min ex ey))) as Haz.
    destruct (shl_align ms (Z.min ex ey)
                (fexp B64.prec B64.emax (Zpos (digits2_pos ms) + Z.min ex ey))) as [mz ez].
    destruct Haz as [Hez Hdz].
    assert (0 < Zpos (digits2_pos mx)) by lia. assert (0 < Zpos (digits2_pos my)) by lia.
    replace (Z.max a b + 2) with (Z.max a b + 1 + 1) by lia.
    apply binary_round_aux_below; cbn [Zdigits2]; lia.
Qed.

(** *** Inputs in range *)

Lemma in_range_inv (K : Z) (x : B64.float) :
  in_range K x = true ->
  B64.positive_finite x = true /\ above (1 - K) x = true /\ below (K + 1) x = true.
Proof. unfold in_range. rewrite !andb_true_iff. tauto. Qed.

Lemma in_range0_below (K : Z) (x : B64.float) : in_range0 K x = true -> below (K + 1) x = true.
Proof.
  destruct x as [s | s | | s m e]; cbn [in_range0]; try reflexivity;
    intros H; apply in_range_inv in H; apply H.
Qed.

Lemma fmul_two_above (k b : Z) (x : B64.float) :
  B64.positive_finite x = true -> above k x = true -> below b x = true -> b <= 1000 ->
  above (k + 1) (B64.fmul (lit 2%Q) x) = true.
Proof.
  intros Hx Ha Hb Hb'.
  destruct x as [| | | [] m e]; try discriminate.
  cbn [B64.positive_finite] in Hx. cbn [above below] in Ha, Hb.
  apply Z.leb_le in Ha, Hb.
  rewrite fmul_two by assumption.
  destruct (bounded_cases m e Hx) as [He [[Hd Hlo] | [Hd Hlo]]].
  - rewrite (proj2 (Z.eqb_eq _ _) Hd).
    assert (Hle : (e + 1 <=? 971) = true) by (apply Z.leb_le; lia).
    rewrite Hle. cbn [above]. apply Z.leb_le. lia.
  - assert (Hne : (Zpos (digits2_pos m) =? 53) = false) by (apply Z.eqb_neq; lia).
    rewrite Hne. cbn [above digits2_pos]. apply Z.leb_le. rewrite Pos2Z.inj_succ. lia.
Qed.

Lemma inputs_in_range_inv (K : Z) (i : SealInputs B64.float) :
  inputs_in_range K i = true ->
  in_range K (d_outer i) = true /\ in_range0 K (n_rpm i) = true /\
  in_range K (rho i) = true /\ in_range K (mu i) = true /\
  in_range K (lambda_gas i) = true /\ in_range K (Pr i) = true /\
  in_range0 K (u_axial i) = true /\ in_range K (delta_gap i) = true /\
  in_range K (d_hyd i) = true /\ in_range K (B i) = true.
Proof. unfold inputs_in_range. rewrite !andb_true_iff. tauto. Qed.

(** *** Doubling an operand *)

Lemma inner_inv (x : B64.float) :
  inner x = true -> exists s m e, x = S754_finite s m e /\ -1073 < e /\ e + 1 <= 971.
Proof.
  destruct x as [| | | s m e]; try discriminate. cbn [inner].
  rewrite andb_true_iff, !Z.ltb_lt. intros [H1 H2]. exists s, m, e. repeat split; lia.
Qed.

Lemma fmul_finite_inv (x y : B64.float) (s : bool) (m : positive) (e : Z) :
  B64.fmul x y = S754_finite s m e ->
  exists sx mx ex sy my ey, x = S754_finite sx mx ex /\ y = S754_finite sy my ey.
Proof.
  destruct x as [sx | sx | | sx mx ex], y as [sy | sy | | sy my ey]; try discriminate.
  intros _. repeat eexists.
Qed.

Lemma fdiv_finite_inv (x y : B64.float) (s : bool) (m : positive) (e : Z) :
  B64.fdiv x y = S754_finite s m e ->
  exists sx mx ex sy my ey, x = S754_finite sx mx ex /\ y = S754_finite sy my ey.
Proof.
  destruct x as [sx | sx | | sx mx ex], y as [sy | sy | | sy my ey]; try discriminate.
  intros _. repeat eexists.
Qed.

Lemma fmul_twice_l (x y : B64.float) :
  inner (B64.fmul x y) = true -> B64.fmul (twice x) y = twice (B64.fmul x y).
Proof.
  intros Hin. destruct (inner_inv _ Hin) as (s & m & e & E & Hlo & Hhi).
  destruct (fmul_finite_inv _ _ E) as (sx & mx & ex & sy & my & ey & -> & ->).
  rewrite E. cbn [twice]. apply fmul_scale; assumption.
Qed.

Lemma fmul_twice_r (x y : B64.float) :
  inner (B64.fmul x y) = true -> B64.fmul x (twice y) = twice (B64.fmul x y).
Proof.
  intros Hin. destruct (inner_inv _ Hin) as (s & m & e & E & Hlo & Hhi).
  destruct (fmul_finite_inv _ _ E) as (sx & mx & ex & sy & my & ey & -> & ->).
  rewrite E. cbn [twice]. revert E. unfold B64.fmul, SFmul. intros E.
  replace (ex + (ey + 1)) with (ex + ey + 1) by lia.
  apply binary_round_aux_scale; [lia | assumption ..].
Qed.

Lemma fdiv_twice_l (x y : B64.float) :
  inner (B64.fdiv x y) = true -> B64.fdiv (twice x) y = twice (B64.fdiv x y).
Proof.
  intros Hin. destruct (inner_inv _ Hin) as (s & m & e & E & Hlo & Hhi).
  destruct (fdiv_finite_inv _ _ E) as (sx & mx & ex & sy & my & ey & -> & ->).
  rewrite E. cbn [twice]. apply fdiv_scale; assumption.
Qed.

Lemma fmul_two_twice (x : B64.float) :
  valid_binary B64.prec B64.emax x = true -> inner x = true ->
  B64.fmul (lit 2%Q) x = twice x.
Proof.
  intros Hv Hin. destruct (inner_inv _ Hin) as (s & m & e & -> & Hlo & Hhi).
  cbn [valid_binary] in Hv. rewrite fmul_two by assumption.
  destruct (bounded_cases m e Hv) as [He [[Hd _] | [_ Hd]]]; [| lia].
  rewrite (proj2 (Z.eqb_eq _ _) Hd).
  assert (Hle : (e + 1 <=? 971) = true) by (apply Z.leb_le; lia).
  rewrite Hle. reflexivity.
Qed.


(** *** Equality of doubles *)

Lemma same_eq (x y : float) : same x y = true -> x = y.
Proof.
  destruct x as [s | s | | s m e], y as [s' | s' | | s' m' e']; cbn [same];
    try discriminate; try reflexivity.
  - intros H. apply eqb_prop in H. subst. reflexivity.
  - intros H. apply eqb_prop in H. subst. reflexivity.
  - rewrite !andb_true_iff. intros [[H1 H2] H3].
    apply eqb_prop in H1. apply Pos.eqb_eq in H2. apply Z.eqb_eq in H3.
    subst. reflexivity.
Qed.

End Binary64Arithmetic.


(** ** Binary64: rounding is a function of the value

    [binary_round_aux] receives a value as an integer part, a location within
    the unit and an exponent.  Its result is read here on the value itself:
    the value is brought to the exponent of the format, rounded to nearest
    even and packed ([binary_round_aux_rounded]).  From this: the result is a
    valid double, rounding preserves the order of the values, and so do the
    product and the quotient by a strictly positive double. *)

Section Places.
Import B64 Rounding.
Local Open Scope Z_scope.

Lemma qcode_spec (N D a r : Z) :
  2 * N = D * a + r -> 0 <= r < D ->
  qcode N D = 2 * a + (if r =? 0 then 0 else 1).
Proof.
  intros H Hr. unfold qcode.
  assert (Ha : 2 * N / D = a) by (symmetry; apply Z.div_unique with r; lia).
  assert (Hm : 2 * N mod D = r) by (symmetry; apply Z.mod_unique with a; lia).
  rewrite Ha, Hm. reflexivity.
Qed.

Lemma qcode_inv (N D : Z) :
  0 < D ->
  exists a r, 2 * N = D * a + r /\ 0 <= r < D /\
              qcode N D = 2 * a + (if r =? 0 then 0 else 1).
Proof.
  intros HD. exists (2 * N / D), (2 * N mod D).
  pose proof (Z.div_mod (2 * N) D ltac:(lia)) as H.
  pose proof (Z.mod_pos_bound (2 * N) D HD) as Hr.
  repeat split; try lia. 
Qed.

Lemma qcode_mono (N D N' D' : Z) :
  0 < D -> 0 < D' -> N * D' <= N' * D -> qcode N D <= qcode N' D'.
Proof.
  intros HD HD' H.
  destruct (qcode_inv N HD) as (a & r & E & Hr & ->).
  destruct (qcode_inv N' HD') as (a' & r' & E' & Hr' & ->).
  assert (Hle : (D * a + r) * D' <= (D' * a' + r') * D) by nia.
  assert (Ha : a <= a').
  { destruct (Z_le_gt_dec a a') as [Hl | Hg]; [assumption | exfalso].
    assert (0 <= D * D') by nia.
    assert (D * D' * (a' + 1) <= D * D' * a) by (apply Z.mul_le_mono_nonneg_l; lia).
    assert (r' * D < D' * D) by (apply Z.mul_lt_mono_pos_r; lia).
    assert (0 <= r * D') by nia.
    lia. }
  destruct (Z.eq_dec a a') as [-> | Hne].
  - destruct (r' =? 0) eqn:Er'; [| destruct (r =? 0); lia].
    apply Z.eqb_eq in Er'. subst r'.
    assert (0 <= r * D') by nia.
    assert (r * D' <= 0) by lia.
    assert (r = 0) by nia. subst r. change (0 =? 0) with true. cbv iota. lia.
  - destruct (r =? 0), (r' =? 0); lia.
Qed.

Lemma qcode_integer (M : Z) : qcode M 1 = 4 * M.
Proof.
  rewrite (@qcode_spec M 1 (2 * M) 0) by lia.
  change (0 =? 0) with true. cbv iota. lia.
Qed.

Lemma shr_1_code (mrs : shr_record) :
  0 <= shr_m mrs ->
  code (shr_1 mrs) = 2 * shr_m mrs + Z.b2z (shr_r mrs || shr_s mrs).
Proof.
  destruct mrs as [m r s]; cbn [shr_m shr_r shr_s]. intros Hm. unfold code.
  destruct m as [| q | q]; [| | lia].
  - cbn [shr_1 shr_m shr_r shr_s]. cbn [Z.b2z]. lia.
  - destruct q as [q | q |]; cbn [shr_1 shr_m shr_r shr_s Z.b2z]; lia.
Qed.

Lemma shr_1_qcode (mrs : shr_record) (N D : Z) :
  0 <= shr_m mrs -> 0 < D ->
  code mrs = qcode N D -> code (shr_1 mrs) = qcode N (2 * D).
Proof.
  intros Hm HD Hc. rewrite shr_1_code by assumption.
  destruct (qcode_inv N HD) as (a & r & E & Hr & Hq). rewrite Hq in Hc.
  unfold code in Hc.
  set (m := shr_m mrs) in *. set (br := shr_r mrs) in *. set (bs := shr_s mrs) in *.
  assert (Ha : a = 2 * m + Z.b2z br) by (destruct br, bs, (r =? 0); cbn [Z.b2z] in *; lia).
  assert (Hs : Z.b2z bs = if r =? 0 then 0 else 1)
    by (destruct br, bs, (r =? 0); cbn [Z.b2z] in *; lia).
  rewrite (@qcode_spec N (2 * D) m (D * Z.b2z br + r)).
  - destruct br, bs; cbn [Z.b2z orb] in *; destruct (r =? 0) eqn:Er;
      try lia; try (apply Z.eqb_eq in Er; subst r);
      repeat match goal with
             | |- context [?x =? 0] => 
                 let E := fresh in destruct (x =? 0) eqn:E;
                 [apply Z.eqb_eq in E | apply Z.eqb_neq in E]
             end; lia.
  - subst a. lia.
  - destruct br; cbn [Z.b2z]; lia.
Qed.

Lemma iter_pos_shr_1_nonneg (n : positive) (mrs : shr_record) :
  0 <= shr_m mrs -> 0 <= shr_m (SpecFloat.iter_pos shr_1 n mrs).
Proof.
  intros H. rewrite iter_pos_shr_1_m by assumption. apply Z.div_pos; lia.
Qed.

Lemma iter_pos_shr_1_qcode (n : positive) (mrs : shr_record) (N D : Z) :
  0 <= shr_m mrs -> 0 < D ->
  code mrs = qcode N D ->
  code (SpecFloat.iter_pos shr_1 n mrs) = qcode N (D * 2 ^ Zpos n).
Proof.
  revert mrs D. induction n as [n IH | n IH |]; intros mrs D Hm HD Hc;
    cbn [SpecFloat.iter_pos].
  - assert (Hp : 0 < 2 ^ Zpos n) by (apply Z.pow_pos_nonneg; lia).
    rewrite (IH _ (2 * D * 2 ^ Zpos n)).
    + f_equal. rewrite (Pos2Z.inj_xI n), Z.pow_add_r, Z.pow_mul_r by lia.
      change (2 ^ 2) with 4. rewrite Z.pow_1_r.
      replace (4 ^ Zpos n) with (2 ^ Zpos n * 2 ^ Zpos n)
        by (rewrite <- Z.pow_mul_l; reflexivity).
      ring.
    + apply iter_pos_shr_1_nonneg, shr_1_nonneg, Hm.
    + nia.
    + apply IH; [apply shr_1_nonneg, Hm | lia | apply shr_1_qcode; assumption].
  - assert (Hp : 0 < 2 ^ Zpos n) by (apply Z.pow_pos_nonneg; lia).
    rewrite (IH _ (D * 2 ^ Zpos n)).
    + f_equal. rewrite (Pos2Z.inj_xO n), Z.pow_mul_r by lia.
      change (2 ^ 2) with 4.
      replace (4 ^ Zpos n) with (2 ^ Zpos n * 2 ^ Zpos n)
        by (rewrite <- Z.pow_mul_l; reflexivity).
      ring.
    + apply iter_pos_shr_1_nonneg, Hm.
    + nia.
    + apply IH; assumption.
  - rewrite Z.pow_1_r, Z.mul_comm. apply shr_1_qcode; assumption.
Qed.

Lemma shr_qcode (mrs : shr_record) (e n N D : Z) :
  0 <= shr_m mrs -> 0 < D -> 0 <= n ->
  code mrs = qcode N D ->
  code (fst (shr mrs e n)) = qcode N (D * 2 ^ n) /\ snd (shr mrs e n) = e + n /\
  0 <= shr_m (fst (shr mrs e n)).
Proof.
  intros Hm HD Hn Hc. destruct n as [| p | p]; cbn [shr fst snd]; [| | lia].
  - rewrite Z.pow_0_r, Z.mul_1_r. repeat split; [assumption | lia | assumption].
  - repeat split; [apply iter_pos_shr_1_qcode; assumption | 
                   apply iter_pos_shr_1_nonneg; assumption].
Qed.

Lemma rne_place (m t : Z) :
  0 <= t < 4 ->
  rne (4 * m + t) =
  if t <=? 1 then m else if t =? 2 then (if Z.even m then m else m + 1) else m + 1.
Proof.
  intros Ht. unfold rne.
  assert (Hd : (4 * m + t) / 4 = m) by (symmetry; apply Z.div_unique with t; lia).
  assert (Hm : (4 * m + t) mod 4 = t) by (symmetry; apply Z.mod_unique with m; lia).
  rewrite Hd, Hm. reflexivity.
Qed.

Lemma rne_inv (c : Z) :
  exists m t, c = 4 * m + t /\ 0 <= t < 4 /\
    rne c = if t <=? 1 then m else if t =? 2 then (if Z.even m then m else m + 1) else m + 1.
Proof.
  exists (c / 4), (c mod 4).
  pose proof (Z.div_mod c 4 ltac:(lia)) as H.
  pose proof (Z.mod_pos_bound c 4 ltac:(lia)) as Hr.
  repeat split; try lia.
Qed.

Lemma rne_mono (c c' : Z) : c <= c' -> rne c <= rne c'.
Proof.
  intros H.
  destruct (rne_inv c) as (m & t & -> & Ht & ->).
  destruct (rne_inv c') as (m' & t' & -> & Ht' & ->).
  destruct (Z.eq_dec m m') as [<- | Hne].
  - destruct (t <=? 1) eqn:E1, (t' <=? 1) eqn:E1', (t =? 2) eqn:E2, (t' =? 2) eqn:E2',
      (Z.even m); lia.
  - assert (m + 1 <= m') by lia.
    destruct (t <=? 1), (t' <=? 1), (t =? 2), (t' =? 2), (Z.even m), (Z.even m'); lia.
Qed.

Lemma rne_integer (k : Z) : rne (4 * k) = k.
Proof.
  replace (4 * k) with (4 * k + 0) by lia. rewrite rne_place by lia. reflexivity.
Qed.

Lemma rne_round (mrs : shr_record) :
  round_nearest_even (shr_m mrs) (loc_of_shr_record mrs) = rne (code mrs).
Proof.
  destruct mrs as [m r s]. unfold code. cbn [shr_m shr_r shr_s].
  destruct r, s; cbn [Z.b2z loc_of_shr_record round_nearest_even].
  - replace (4 * m + 2 * 1 + 1) with (4 * m + 3) by lia. rewrite rne_place by lia. reflexivity.
  - replace (4 * m + 2 * 1 + 0) with (4 * m + 2) by lia. rewrite rne_place by lia. reflexivity.
  - replace (4 * m + 2 * 0 + 1) with (4 * m + 1) by lia. rewrite rne_place by lia. reflexivity.
  - replace (4 * m + 2 * 0 + 0) with (4 * m + 0) by lia. rewrite rne_place by lia. reflexivity.
Qed.

Lemma code_of_loc_exact (m : Z) : code (shr_record_of_loc m loc_Exact) = qcode m 1.
Proof. rewrite qcode_integer. unfold code. cbn. lia. Qed.

Lemma code_of_loc (m : Z) (l : location) :
  exists t, 0 <= t < 4 /\ code (shr_record_of_loc m l) = 4 * m + t.
Proof.
  destruct l as [| []]; unfold code; cbn [shr_record_of_loc shr_m shr_r shr_s Z.b2z];
    [exists 0 | exists 2 | exists 1 | exists 3]; lia.
Qed.

(** A record that stands for N / D has the integer part of N / D. *)
Lemma qcode_floor (m : Z) (l : location) (N D : Z) :
  0 < D -> code (shr_record_of_loc m l) = qcode N D ->
  D * m <= N < D * (m + 1).
Proof.
  intros HD Hc. destruct (code_of_loc m l) as (t & Ht & Et). rewrite Et in Hc.
  destruct (qcode_inv N HD) as (a & r & E & Hr & Hq). rewrite Hq in Hc.
  assert (Ha : 2 * m <= a <= 2 * m + 1) by (destruct (r =? 0); lia).
  nia.
Qed.

(** [binary_round_aux] on a value N / D * 2^ex given with its integer part
    and its location, when the exponent [E] of the format for it is not below
    [ex]: the value is brought to [E], rounded to nearest even, and packed. *)
Lemma binary_round_aux_rounded (s : bool) (mx ex : Z) (lx : location) (N D : Z) :
  0 <= mx -> 0 < D ->
  code (shr_record_of_loc mx lx) = qcode N D ->
  ex <= fexp prec emax (Zdigits2 mx + ex) ->
  let E := fexp prec emax (Zdigits2 mx + ex) in
  let m1 := rne (qcode N (D * 2 ^ (E - ex))) in
  binary_round_aux prec emax s mx ex lx = rounded s m1 E /\
  0 <= m1 <= 2 ^ 53 /\ (-1074 < E -> 2 ^ 52 <= m1).
Proof.
  intros Hmx HD Hc HE E m1.
  pose proof (@qcode_floor mx lx N D HD Hc) as [Hlo Hhi].
  pose proof (Zdigits2_bound Hmx) as Hd. pose proof (Zdigits2_nonneg mx) as Hd0.
  set (d := Zdigits2 mx) in *.
  assert (HEmin : -1074 <= E) by (unfold E, fexp, emin, prec, emax; lia).
  assert (HEd : d + ex - 53 <= E) by (unfold E, fexp, emin, prec, emax; lia).
  set (n := E - ex) in *. assert (Hn : 0 <= n) by (unfold n; fold E in HE; lia).
  assert (Hpn : 0 < 2 ^ n) by (apply Z.pow_pos_nonneg; lia).
  assert (HDn : 0 < D * 2 ^ n) by nia.
  (* bounds on the rounded significand *)
  assert (Hm1 : 0 <= m1 <= 2 ^ 53).
  { split.
    - rewrite <- (rne_integer 0). apply rne_mono. rewrite <- qcode_integer.
      apply qcode_mono; [lia | assumption | nia].
    - set (U := Z.max (d - n) 0).
      assert (HU : 0 <= U <= 53) by (unfold U, n; lia).
      apply Z.le_trans with (2 ^ U); [| apply Z.pow_le_mono_r; lia].
      rewrite <- (rne_integer (2 ^ U)). apply rne_mono. rewrite <- qcode_integer.
      apply qcode_mono; [assumption | lia |].
      assert (Hp : 2 ^ d <= 2 ^ U * 2 ^ n).
      { rewrite <- Z.pow_add_r by lia. apply Z.pow_le_mono_r; unfold U; lia. }
      assert (HDd : D * (mx + 1) <= D * 2 ^ d) by (apply Z.mul_le_mono_nonneg_l; lia).
      assert (D * 2 ^ d <= D * (2 ^ U * 2 ^ n)) by (apply Z.mul_le_mono_nonneg_l; lia).
      lia. }
  assert (Hnormal : -1074 < E -> 2 ^ 52 <= m1).
  { intros Hgt.
    assert (HEeq : E = d + ex - 53) by (unfold E, fexp, emin, prec, emax in *; lia).
    assert (Hd53 : n = d - 53) by (unfold n; lia).
    assert (Hmx1 : 2 ^ (d - 1) <= mx).
    { destruct mx as [| p | p]; [| | lia].
      - unfold d in *. cbn [Zdigits2] in *. lia.
      - unfold d. cbn [Zdigits2]. apply (digits2_pos_bounds p). }
    rewrite <- (rne_integer (2 ^ 52)). apply rne_mono. rewrite <- qcode_integer.
    apply qcode_mono; [lia | assumption |].
    assert (Hp : 2 ^ 52 * 2 ^ n = 2 ^ (d - 1)).
    { rewrite <- Z.pow_add_r by lia. f_equal. lia. }
    assert (D * 2 ^ (d - 1) <= D * mx) by (apply Z.mul_le_mono_nonneg_l; lia).
    nia. }
  split; [| split; assumption].
  (* the two shifts *)
  unfold binary_round_aux, shr_fexp. fold d. fold E. fold n.
  destruct (@shr_qcode (shr_record_of_loc mx lx) ex n N D) as (Hc1 & He1 & Hm0);
    [rewrite shr_record_of_loc_m; assumption | assumption | assumption | assumption |].
  destruct (shr (shr_record_of_loc mx lx) ex n) as [mrs1 e1]. cbn [fst snd] in *.
  rewrite rne_round, Hc1. fold m1. subst e1. replace (ex + n) with E by (unfold n; lia).
  unfold rounded.
  destruct (Z.eq_dec m1 0) as [H0 | H0].
  - rewrite H0. cbn [Zdigits2 Z.add].
    assert (Hs : fexp prec emax E - E <= 0) by (unfold fexp, emin, prec, emax; lia).
    destruct (fexp prec emax E - E) as [| p | p]; [| lia |]; reflexivity.
  - assert (Hne : (m1 =? 0) = false) by (apply Z.eqb_neq; assumption). rewrite Hne.
    destruct (Z_lt_le_dec m1 (2 ^ 53)) as [Hlt | Hge].
    + assert (Hltb : (m1 <? 2 ^ 53) = true) by (apply Z.ltb_lt; assumption). rewrite Hltb.
      destruct m1 as [| p | p] eqn:Em1; [lia | | lia].
      assert (Hdp : Zpos (digits2_pos p) <= 53) by (apply digits2_pos_le; assumption).
      cbn [Zdigits2].
      assert (Hs : fexp prec emax (Zpos (digits2_pos p) + E) - E <= 0)
        by (unfold fexp, emin, prec, emax; lia).
      destruct (fexp prec emax (Zpos (digits2_pos p) + E) - E) as [| q | q]; [| lia |];
        reflexivity.
    + assert (Hltb : (m1 <? 2 ^ 53) = false) by (apply Z.ltb_ge; assumption). rewrite Hltb.
      assert (E53 : m1 = 2 ^ 53) by lia. rewrite E53.
      change (Zdigits2 (2 ^ 53)) with 54.
      assert (Hs : fexp prec emax (54 + E) - E = 1) by (unfold fexp, emin, prec, emax; lia).
      rewrite Hs. reflexivity.
Qed.

Lemma rounded_valid (s : bool) (m E : Z) :
  0 <= m <= 2 ^ 53 -> (-1074 < E -> 2 ^ 52 <= m) -> -1074 <= E ->
  valid_binary prec emax (rounded s m E) = true.
Proof.
  intros Hm Hn HE. unfold rounded.
  destruct (m =? 0) eqn:E0; [reflexivity |]. apply Z.eqb_neq in E0.
  destruct (m <? 2 ^ 53) eqn:E1.
  - apply Z.ltb_lt in E1. destruct (E <=? 971) eqn:E2; [| reflexivity].
    apply Z.leb_le in E2. destruct m as [| p | p]; [lia | | lia].
    cbn [valid_binary Z.to_pos]. unfold SpecFloat.bounded, canonical_mantissa.
    apply andb_true_iff. split; [| apply Z.leb_le; unfold emax, prec; lia].
    apply Z.eqb_eq.
    assert (Hd : Zpos (digits2_pos p) <= 53) by (apply digits2_pos_le; assumption).
    destruct (Z.eq_dec E (-1074)) as [-> | Hne].
    + unfold fexp, emin, prec, emax. lia.
    + assert (Hp : 2 ^ 52 <= Zpos p) by (apply Hn; lia).
      assert (Hd' : Zpos (digits2_pos p) = 53) by (apply digits2_pos_unique; lia).
      unfold fexp, emin, prec, emax. lia.
  - destruct (E + 1 <=? 971) eqn:E2; [| reflexivity].
    apply Z.leb_le in E2.
    cbn [valid_binary]. unfold SpecFloat.bounded, canonical_mantissa.
    apply andb_true_iff. split; [| apply Z.leb_le; unfold emax, prec; lia].
    apply Z.eqb_eq. change (Zpos (digits2_pos (Z.to_pos (2 ^ 52)))) with 53.
    unfold fexp, emin, prec, emax. lia.
Qed.

Lemma SFleb_finite (m m' : positive) (e e' : Z) :
  e < e' \/ (e = e' /\ Zpos m <= Zpos m') ->
  SFleb (S754_finite false m e) (S754_finite false m' e') = true.
Proof.
  intros H. unfold SFleb, SFcompare.
  destruct (Z.compare_spec e e') as [He | He | He]; [| reflexivity | lia].
  destruct H as [H | [_ H]]; [lia |].
  change (Pos.compare_cont Eq m m') with (Pos.compare m m').
  destruct (Pos.compare_spec m m') as [Hm | Hm | Hm]; [reflexivity | reflexivity | lia].
Qed.

Lemma rounded_leb (m m' E E' : Z) :
  0 <= m <= 2 ^ 53 -> 0 <= m' <= 2 ^ 53 ->
  (E = E' /\ m <= m') \/ (E < E' /\ 2 ^ 52 <= m') ->
  SFleb (rounded false m E) (rounded false m' E') = true.
Proof.
  intros Hm Hm' H. unfold rounded.
  destruct (m =? 0) eqn:E0; [apply Z.eqb_eq in E0 | apply Z.eqb_neq in E0].
  { destruct (m' =? 0); [reflexivity |].
    destruct (m' <? 2 ^ 53); [destruct (E' <=? 971) | destruct (E' + 1 <=? 971)]; reflexivity. }
  assert (E0' : (m' =? 0) = false) by (apply Z.eqb_neq; lia). rewrite E0'.
  destruct (m <? 2 ^ 53) eqn:E1; [apply Z.ltb_lt in E1 | apply Z.ltb_ge in E1];
    (destruct (m' <? 2 ^ 53) eqn:E1'; [apply Z.ltb_lt in E1' | apply Z.ltb_ge in E1']).
  - destruct (E <=? 971) eqn:E2; [apply Z.leb_le in E2 | apply Z.leb_gt in E2];
      (destruct (E' <=? 971) eqn:E2'; [apply Z.leb_le in E2' | apply Z.leb_gt in E2']);
      try reflexivity; [| lia].
    apply SFleb_finite. rewrite !Z2Pos.id by lia. lia.
  - destruct (E <=? 971) eqn:E2; [apply Z.leb_le in E2 | apply Z.leb_gt in E2];
      (destruct (E' + 1 <=? 971) eqn:E2';
       [apply Z.leb_le in E2' | apply Z.leb_gt in E2']);
      try reflexivity; [| lia].
    apply SFleb_finite. lia.
  - destruct (E + 1 <=? 971) eqn:E2; [apply Z.leb_le in E2 | apply Z.leb_gt in E2];
      (destruct (E' <=? 971) eqn:E2'; [apply Z.leb_le in E2' | apply Z.leb_gt in E2']);
      try reflexivity; [| lia].
    apply SFleb_finite. rewrite !Z2Pos.id by lia. lia.
  - destruct (E + 1 <=? 971) eqn:E2; [apply Z.leb_le in E2 | apply Z.leb_gt in E2];
      (destruct (E' + 1 <=? 971) eqn:E2';
       [apply Z.leb_le in E2' | apply Z.leb_gt in E2']);
      try reflexivity; [| lia].
    apply SFleb_finite. lia.
Qed.

(** Rounding preserves the order of the values: (N / D) * 2^ex against
    (N' / D') * 2^ex'. *)
Lemma binary_round_aux_mono (mx ex : Z) (lx : location) (N D : Z)
  (mx' ex' : Z) (lx' : location) (N' D' : Z) :
  0 <= mx -> 0 < D -> code (shr_record_of_loc mx lx) = qcode N D ->
  ex <= fexp prec emax (Zdigits2 mx + ex) ->
  0 <= mx' -> 0 < D' -> code (shr_record_of_loc mx' lx') = qcode N' D' ->
  ex' <= fexp prec emax (Zdigits2 mx' + ex') ->
  N * D' * 2 ^ (Z.max ex ex' - ex') <= N' * D * 2 ^ (Z.max ex ex' - ex) ->
  SFleb (binary_round_aux prec emax false mx ex lx)
        (binary_round_aux prec emax false mx' ex' lx') = true.
Proof.
  intros Hmx HD Hc HE Hmx' HD' Hc' HE' Hle.
  destruct (@binary_round_aux_rounded false mx ex lx N D Hmx HD Hc HE) as (-> & Hm1 & Hn1).
  destruct (@binary_round_aux_rounded false mx' ex' lx' N' D' Hmx' HD' Hc' HE')
    as (-> & Hm1' & Hn1').
  pose proof (@qcode_floor mx lx N D HD Hc) as [Hlo Hhi].
  pose proof (@qcode_floor mx' lx' N' D' HD' Hc') as [Hlo' Hhi'].
  set (E := fexp prec emax (Zdigits2 mx + ex)) in *.
  set (E' := fexp prec emax (Zdigits2 mx' + ex')) in *.
  set (T := Z.max ex ex') in *.
  assert (HEmin : -1074 <= E) by (unfold E, fexp, emin, prec, emax; lia).
  assert (HEE : E <= E').
  { destruct (Z.eq_dec mx 0) as [-> | Hne].
    - cbn [Zdigits2 Z.add] in *. unfold E, E', fexp, emin, prec, emax in *. lia.
    - assert (Hd : Zdigits2 mx + ex <= Zdigits2 mx' + ex').
      { pose proof (Zdigits2_bound Hmx') as Hb'.
        pose proof (Zdigits2_nonneg mx') as Hd0'. pose proof (Zdigits2_nonneg mx) as Hd0.
        set (d := Zdigits2 mx) in *. set (d' := Zdigits2 mx') in *.
        assert (Hmx1 : 2 ^ (d - 1) <= mx).
        { destruct mx as [| p | p]; [lia | | lia].
          unfold d. cbn [Zdigits2]. apply (digits2_pos_bounds p). }
        assert (Hd1 : 1 <= d).
        { destruct mx as [| p | p]; [lia | | lia]. unfold d. cbn [Zdigits2]. lia. }
        destruct (Z_le_gt_dec (d + ex) (d' + ex')) as [Hok | Hbad]; [assumption | exfalso].
        assert (Ha : 0 <= T - ex') by (unfold T; lia).
        assert (Hb : 0 <= T - ex) by (unfold T; lia).
        assert (Hpa : 0 < 2 ^ (T - ex')) by (apply Z.pow_pos_nonneg; lia).
        assert (Hpb : 0 < 2 ^ (T - ex)) by (apply Z.pow_pos_nonneg; lia).
        assert (H1 : 2 ^ (d' + (T - ex)) <= 2 ^ (d - 1 + (T - ex')))
          by (apply Z.pow_le_mono_r; lia).
        rewrite !Z.pow_add_r in H1 by lia.
        (* D * D' * 2^(d-1) * 2^(T-ex') <= N * D' * 2^(T-ex') <= N' * D * 2^(T-ex)
           < D * D' * 2^d' * 2^(T-ex) *)
        assert (H2 : D * 2 ^ (d - 1) <= N).
        { apply Z.le_trans with (D * mx); [apply Z.mul_le_mono_nonneg_l; lia | lia]. }
        assert (H3 : N' < D' * 2 ^ d').
        { apply Z.lt_le_trans with (D' * (mx' + 1)); [lia |].
          apply Z.mul_le_mono_nonneg_l; lia. }
        assert (H4 : D * 2 ^ (d - 1) * (D' * 2 ^ (T - ex')) <= N * (D' * 2 ^ (T - ex')))
          by (apply Z.mul_le_mono_nonneg_r; nia).
        assert (H5 : N' * (D * 2 ^ (T - ex)) < D' * 2 ^ d' * (D * 2 ^ (T - ex)))
          by (apply Z.mul_lt_mono_pos_r; nia).
        assert (H6 : D * D' * (2 ^ d' * 2 ^ (T - ex)) <= D * D' * (2 ^ (d - 1) * 2 ^ (T - ex')))
          by (apply Z.mul_le_mono_nonneg_l; nia).
        nia. }
      unfold E, E', fexp, emin, prec, emax. lia. }
  apply rounded_leb; [assumption | assumption |].
  destruct (Z.eq_dec E E') as [Heq | Hne].
  - left. split; [assumption |]. apply rne_mono, qcode_mono.
    + assert (0 < 2 ^ (E - ex)) by (apply Z.pow_pos_nonneg; fold E in HE; lia). nia.
    + assert (0 < 2 ^ (E' - ex')) by (apply Z.pow_pos_nonneg; fold E' in HE'; lia). nia.
    + rewrite <- Heq.
      assert (HT : T <= E) by (fold E in HE; fold E' in HE'; unfold T; lia).
      replace (E - ex') with (T - ex' + (E - T)) by lia.
      replace (E - ex) with (T - ex + (E - T)) by lia.
      rewrite !Z.pow_add_r by (unfold T; lia).
      assert (Hp : 0 < 2 ^ (E - T)) by (apply Z.pow_pos_nonneg; lia).
      assert (H1 : N * D' * 2 ^ (T - ex') * 2 ^ (E - T) <= N' * D * 2 ^ (T - ex) * 2 ^ (E - T))
        by (apply Z.mul_le_mono_nonneg_r; lia).
      lia.
  - right. split; [lia |]. apply Hn1'. lia.
Qed.

Lemma digits2_pos_ge (p : positive) (k : Z) : 2 ^ k <= Zpos p -> k + 1 <= Zpos (digits2_pos p).
Proof.
  intros H. destruct (digits2_pos_bounds p) as [_ Hhi].
  destruct (Z_le_gt_dec (k + 1) (Zpos (digits2_pos p))) as [Hok | Hbad]; [assumption | exfalso].
  assert (2 ^ Zpos (digits2_pos p) <= 2 ^ k) by (apply Z.pow_le_mono_r; lia). lia.
Qed.

Lemma digits2_pos_mul_ge (a b : positive) :
  Zpos (digits2_pos a) + Zpos (digits2_pos b) - 1 <= Zpos (digits2_pos (a * b)).
Proof.
  destruct (digits2_pos_bounds a) as [Ha _], (digits2_pos_bounds b) as [Hb _].
  set (da := Zpos (digits2_pos a)) in *. set (db := Zpos (digits2_pos b)) in *.
  assert (0 < da) by (unfold da; lia). assert (0 < db) by (unfold db; lia).
  replace (da + db - 1) with (da - 1 + (db - 1) + 1) by lia.
  apply digits2_pos_ge. rewrite Pos2Z.inj_mul, Z.pow_add_r by lia.
  apply Z.mul_le_mono_nonneg; try assumption; apply Z.pow_nonneg; lia.
Qed.

(** The product of two doubles is shifted to the right, never to the
    left. *)
Lemma product_exponent (mx my : positive) (ex ey : Z) :
  SpecFloat.bounded prec emax mx ex = true -> SpecFloat.bounded prec emax my ey = true ->
  ex + ey <= fexp prec emax (Zdigits2 (Zpos (mx * my)) + (ex + ey)).
Proof.
  intros Hx Hy. pose proof (digits2_pos_mul_ge mx my) as Hd.
  destruct (bounded_cases mx ex Hx) as [_ Hcx], (bounded_cases my ey Hy) as [_ Hcy].
  assert (0 < Zpos (digits2_pos mx)) by lia. assert (0 < Zpos (digits2_pos my)) by lia.
  cbn [Zdigits2]. unfold fexp, emin, prec, emax. lia.
Qed.

(** The order of two doubles, on their values. *)
Lemma SFleb_value (mx my : positive) (ex ey : Z) :
  SpecFloat.bounded prec emax mx ex = true -> SpecFloat.bounded prec emax my ey = true ->
  SFleb (S754_finite false mx ex) (S754_finite false my ey) = true ->
  ex <= ey /\ Zpos mx <= Zpos my * 2 ^ (ey - ex).
Proof.
  intros Hx Hy. unfold SFleb, SFcompare.
  destruct (bounded_cases mx ex Hx) as [_ Hcx], (bounded_cases my ey Hy) as [_ Hcy].
  destruct (digits2_pos_bounds mx) as [_ Hmx], (digits2_pos_bounds my) as [Hmy _].
  destruct (Z.compare_spec ex ey) as [He | He | He]; [| | discriminate].
  - subst ey. change (Pos.compare_cont Eq mx my) with (Pos.compare mx my).
    destruct (Pos.compare_spec mx my) as [Hm | Hm | Hm]; try discriminate; intros _;
      rewrite Z.sub_diag, Z.pow_0_r; lia.
  - intros _. split; [lia |].
    assert (Hdy : Zpos (digits2_pos my) = 53) by lia. rewrite Hdy in Hmy.
    assert (Hdx : 2 ^ Zpos (digits2_pos mx) <= 2 ^ 53) by (apply Z.pow_le_mono_r; lia).
    assert (Hp : 2 ^ 1 <= 2 ^ (ey - ex)) by (apply Z.pow_le_mono_r; lia).
    change (2 ^ (53 - 1)) with (2 ^ 52) in Hmy. 
    assert (Zpos my * 2 ^ 1 <= Zpos my * 2 ^ (ey - ex)) by (apply Z.mul_le_mono_nonneg_l; lia).
    change (2 ^ 1) with 2 in *. change (2 ^ 53) with (2 * 2 ^ 52) in Hdx. lia.
Qed.

Lemma fmul_finite_mono_r (mc mx my : positive) (ec ex ey : Z) :
  SpecFloat.bounded prec emax mc ec = true ->
  SpecFloat.bounded prec emax mx ex = true -> SpecFloat.bounded prec emax my ey = true ->
  SFleb (S754_finite false mx ex) (S754_finite false my ey) = true ->
  SFleb (fmul (S754_finite false mc ec) (S754_finite false mx ex))
        (fmul (S754_finite false mc ec) (S754_finite false my ey)) = true.
Proof.
  intros Hc Hx Hy Hle. destruct (@SFleb_value mx my ex ey Hx Hy Hle) as [He Hv].
  unfold fmul, SFmul. cbn [xorb].
  apply binary_round_aux_mono with (N := Zpos (mc * mx)) (D := 1) (N' := Zpos (mc * my)) (D' := 1);
    try lia; try apply code_of_loc_exact; try (apply product_exponent; assumption).
  rewrite Z.max_r by lia.
  replace (ec + ey - (ec + ey)) with 0 by lia.
  replace (ec + ey - (ec + ex)) with (ey - ex) by lia.
  rewrite Z.pow_0_r, !Pos2Z.inj_mul. nia.
Qed.

Lemma fmul_comm (x y : float) : fmul x y = fmul y x.
Proof.
  unfold fmul, SFmul.
  destruct x as [sx | sx | | sx mx ex], y as [sy | sy | | sy my ey];
    try reflexivity; try (rewrite xorb_comm; reflexivity).
  rewrite xorb_comm, Pos.mul_comm, Z.add_comm. reflexivity.
Qed.

Lemma fmul_finite_valid (sx sy : bool) (mx my : positive) (ex ey : Z) :
  SpecFloat.bounded prec emax mx ex = true -> SpecFloat.bounded prec emax my ey = true ->
  valid_binary prec emax (fmul (S754_finite sx mx ex) (S754_finite sy my ey)) = true.
Proof.
  intros Hx Hy. unfold fmul, SFmul.
  destruct (@binary_round_aux_rounded (xorb sx sy) (Zpos (mx * my)) (ex + ey) loc_Exact
              (Zpos (mx * my)) 1) as (-> & Hm & Hn);
    [lia | lia | apply code_of_loc_exact | apply product_exponent; assumption |].
  apply rounded_valid; [assumption | assumption |].
  unfold fexp, emin, prec, emax. lia.
Qed.

Lemma rounded_nonnegative (m E : Z) :
  0 <= m <= 2 ^ 53 -> (-1074 < E -> 2 ^ 52 <= m) -> -1074 <= E ->
  nonnegative (rounded false m E) = true.
Proof.
  intros Hm Hn HE. pose proof (@rounded_valid false m E Hm Hn HE) as Hv. revert Hv.
  unfold rounded.
  destruct (m =? 0); [reflexivity |].
  destruct (m <? 2 ^ 53); [destruct (E <=? 971) | destruct (E + 1 <=? 971)];
    cbn [valid_binary nonnegative]; auto.
Qed.

Lemma fmul_nonnegative (c x : float) :
  positive_finite c = true -> nonnegative x = true -> nonnegative (fmul c x) = true.
Proof.
  intros Hc Hx. destruct (positive_finite_inv _ Hc) as (mc & ec & -> & Hbc).
  destruct x as [sx | [] | | [] mx ex]; try discriminate; try reflexivity.
  cbn [nonnegative] in Hx. unfold fmul, SFmul. cbn [xorb].
  destruct (@binary_round_aux_rounded false (Zpos (mc * mx)) (ec + ex) loc_Exact
              (Zpos (mc * mx)) 1) as (-> & Hm & Hn);
    [lia | lia | apply code_of_loc_exact | apply product_exponent; assumption |].
  apply rounded_nonnegative; [assumption | assumption |].
  unfold fexp, emin, prec, emax. lia.
Qed.

Lemma SFleb_zero_l (s : bool) (y : float) : nonnegative y = true -> SFleb (S754_zero s) y = true.
Proof. destruct y as [sy | [] | | [] my ey]; try discriminate; reflexivity. Qed.

Lemma SFleb_inf_r (x : float) :
  nonnegative x = true -> SFleb x (S754_infinity false) = true.
Proof. destruct x as [sx | [] | | [] mx ex]; try discriminate; reflexivity. Qed.

(** Multiplication by a strictly positive double preserves the order. *)
Lemma fmul_mono_r (c x y : float) :
  positive_finite c = true -> nonnegative x = true -> nonnegative y = true ->
  SFleb x y = true -> SFleb (fmul c x) (fmul c y) = true.
Proof.
  intros Hc Hx Hy Hle.
  pose proof (@fmul_nonnegative c x Hc Hx) as Hcx.
  pose proof (@fmul_nonnegative c y Hc Hy) as Hcy.
  destruct (positive_finite_inv _ Hc) as (mc & ec & -> & Hbc).
  destruct x as [sx | [] | | [] mx ex]; try discriminate.
  - apply SFleb_zero_l. assumption.
  - destruct y as [sy | [] | | [] my ey]; try discriminate. reflexivity.
  - destruct y as [sy | [] | | [] my ey]; try discriminate.
    + apply SFleb_inf_r. assumption.
    + apply fmul_finite_mono_r; assumption.
Qed.

Lemma fmul_mono_l (c x y : float) :
  positive_finite c = true -> nonnegative x = true -> nonnegative y = true ->
  SFleb x y = true -> SFleb (fmul x c) (fmul y c) = true.
Proof.
  intros. rewrite (fmul_comm x c), (fmul_comm y c). apply fmul_mono_r; assumption.
Qed.

Lemma fmul_nonnegative_l (c x : float) :
  positive_finite c = true -> nonnegative x = true -> nonnegative (fmul x c) = true.
Proof. intros. rewrite fmul_comm. apply fmul_nonnegative; assumption. Qed.

(** The location [SFdiv] computes from the remainder is the place of the
    quotient. *)
Lemma new_location_code (N D : Z) :
  0 <= N -> 0 < D ->
  code (shr_record_of_loc (N / D) (new_location D (N mod D))) = qcode N D.
Proof.
  intros HN HD.
  pose proof (Z.div_mod N D ltac:(lia)) as Hdm.
  pose proof (Z.mod_pos_bound N D HD) as Hr.
  set (q := N / D) in *. set (r := N mod D) in *. clearbody q r.
  destruct (Z.eq_dec r 0) as [Hr0 | Hr0].
  { assert (Hl : new_location D r = loc_Exact).
    { unfold new_location. destruct (Z.even D);
        unfold new_location_even, new_location_odd;
        rewrite (proj2 (Z.eqb_eq r 0) Hr0); reflexivity. }
    rewrite Hl, (@qcode_spec N D (2 * q) 0) by lia.
    change (0 =? 0) with true. unfold code.
    cbn [shr_record_of_loc shr_m shr_r shr_s Z.b2z]. lia. }
  assert (Hne : (r =? 0) = false) by (apply Z.eqb_neq; assumption).
  unfold new_location.
  destruct (Z.even D) eqn:Ev; unfold new_location_even, new_location_odd; rewrite Hne.
  - destruct (Z.compare_spec (2 * r) D) as [Hc | Hc | Hc].
    + rewrite (@qcode_spec N D (2 * q + 1) 0) by lia.
      change (0 =? 0) with true. unfold code.
      cbn [shr_record_of_loc shr_m shr_r shr_s Z.b2z]. lia.
    + rewrite (@qcode_spec N D (2 * q) (2 * r)) by lia.
      assert (H2 : (2 * r =? 0) = false) by (apply Z.eqb_neq; lia). rewrite H2.
      unfold code. cbn [shr_record_of_loc shr_m shr_r shr_s Z.b2z]. lia.
    + rewrite (@qcode_spec N D (2 * q + 1) (2 * r - D)) by lia.
      assert (H2 : (2 * r - D =? 0) = false) by (apply Z.eqb_neq; lia). rewrite H2.
      unfold code. cbn [shr_record_of_loc shr_m shr_r shr_s Z.b2z]. lia.
  - assert (Hodd : Z.odd D = true) by (rewrite <- Z.negb_even, Ev; reflexivity).
    apply Z.odd_spec in Hodd. destruct Hodd as [k Hk].
    destruct (Z.compare_spec (2 * r + 1) D) as [Hc | Hc | Hc].
    + rewrite (@qcode_spec N D (2 * q) (2 * r)) by lia.
      assert (H2 : (2 * r =? 0) = false) by (apply Z.eqb_neq; lia). rewrite H2.
      unfold code. cbn [shr_record_of_loc shr_m shr_r shr_s Z.b2z]. lia.
    + rewrite (@qcode_spec N D (2 * q) (2 * r)) by lia.
      assert (H2 : (2 * r =? 0) = false) by (apply Z.eqb_neq; lia). rewrite H2.
      unfold code. cbn [shr_record_of_loc shr_m shr_r shr_s Z.b2z]. lia.
    + rewrite (@qcode_spec N D (2 * q + 1) (2 * r - D)) by lia.
      assert (H2 : (2 * r - D =? 0) = false) by (apply Z.eqb_neq; lia). rewrite H2.
      unfold code. cbn [shr_record_of_loc shr_m shr_r shr_s Z.b2z]. lia.
Qed.

(** The quotient of two finite doubles, as [SFdiv] hands it to the
    rounding: the integer part of (mx * 2^s) / my at exponent [e'], with
    s = ex - ey - e' not negative, and [e'] not above the exponent of the
    format for it. *)
Lemma fdiv_finite_eq (sx sy : bool) (mx my : positive) (ex ey : Z) :
  let e' := Z.min (fexp prec emax (Zpos (digits2_pos mx) + ex - (Zpos (digits2_pos my) + ey)))
                  (ex - ey) in
  let N := Zpos mx * 2 ^ (ex - ey - e') in
  fdiv (S754_finite sx mx ex) (S754_finite sy my ey)
  = binary_round_aux prec emax (xorb sx sy) (N / Zpos my) e' (new_location (Zpos my) (N mod Zpos my))
  /\ 0 <= ex - ey - e' /\ 0 <= N / Zpos my /\
  e' <= fexp prec emax (Zdigits2 (N / Zpos my) + e').
Proof.
  intros e' N.
  assert (Hs : 0 <= ex - ey - e') by (unfold e'; lia).
  assert (Hp : 0 < 2 ^ (ex - ey - e')) by (apply Z.pow_pos_nonneg; lia).
  assert (HN : 0 < N) by (unfold N; nia).
  assert (Hq : 0 <= N / Zpos my) by (apply Z.div_pos; lia).
  split; [| split; [assumption | split; [assumption |]]].
  - unfold fdiv, SFdiv, SFdiv_core_binary. cbn [Zdigits2]. fold e'.
    assert (Hm' : match ex - ey - e' with
                  | 0 => Zpos mx
                  | Zpos _ => Z.shiftl (Zpos mx) (ex - ey - e')
                  | Zneg _ => 0
                  end = N).
    { unfold N. destruct (ex - ey - e') as [| p | p] eqn:Es; [| | lia].
      - rewrite Z.pow_0_r. lia.
      - rewrite Z.shiftl_mul_pow2 by lia. reflexivity. }
    rewrite Hm'. unfold Z.div, Z.modulo.
    destruct (Z.div_eucl N (Zpos my)) as [q r]. reflexivity.
  - destruct (Z_le_gt_dec e' (-1074)) as [Hlow | Hhigh].
    { unfold fexp, emin, prec, emax. lia. }
    set (dx := Zpos (digits2_pos mx)) in *. set (dy := Zpos (digits2_pos my)) in *.
    assert (He' : e' <= dx + ex - (dy + ey) - 53)
      by (unfold e', fexp, emin, prec, emax in *; lia).
    destruct (digits2_pos_bounds mx) as [Hmx _], (digits2_pos_bounds my) as [_ Hmy].
    fold dx in Hmx. fold dy in Hmy.
    assert (Hdx : 0 < dx) by (unfold dx; lia). assert (Hdy : 0 < dy) by (unfold dy; lia).
    assert (Hq52 : 2 ^ 52 <= N / Zpos my).
    { apply Z.div_le_lower_bound; [lia |].
      assert (H1 : 2 ^ (dy + 52) <= 2 ^ (dx - 1 + (ex - ey - e')))
        by (apply Z.pow_le_mono_r; lia).
      rewrite !Z.pow_add_r in H1 by lia.
      assert (H2 : 2 ^ (dx - 1) * 2 ^ (ex - ey - e') <= Zpos mx * 2 ^ (ex - ey - e'))
        by (apply Z.mul_le_mono_nonneg_r; lia).
      assert (H3 : Zpos my * 2 ^ 52 <= 2 ^ dy * 2 ^ 52)
        by (apply Z.mul_le_mono_nonneg_r; lia).
      unfold N. lia. }
    assert (Hdq : 53 <= Zdigits2 (N / Zpos my)).
    { destruct (N / Zpos my) as [| p | p]; [lia | | lia].
      cbn [Zdigits2]. apply (@digits2_pos_ge p 52). assumption. }
    unfold fexp, emin, prec, emax. lia.
Qed.

Lemma fdiv_finite_mono (mc mx my : positive) (ec ex ey : Z) :
  SpecFloat.bounded prec emax mx ex = true -> SpecFloat.bounded prec emax my ey = true ->
  SFleb (S754_finite false mx ex) (S754_finite false my ey) = true ->
  SFleb (fdiv (S754_finite false mx ex) (S754_finite false mc ec))
        (fdiv (S754_finite false my ey) (S754_finite false mc ec)) = true.
Proof.
  intros Hx Hy Hle. destruct (@SFleb_value mx my ex ey Hx Hy Hle) as [He Hv].
  destruct (fdiv_finite_eq false false mx mc ex ec) as (-> & Hsx & Hqx & HEx).
  destruct (fdiv_finite_eq false false my mc ey ec) as (-> & Hsy & Hqy & HEy).
  set (e1 := Z.min (fexp prec emax (Zpos (digits2_pos mx) + ex - (Zpos (digits2_pos mc) + ec)))
                   (ex - ec)) in *.
  set (e2 := Z.min (fexp prec emax (Zpos (digits2_pos my) + ey - (Zpos (digits2_pos mc) + ec)))
                   (ey - ec)) in *.
  cbn [xorb].
  assert (Hp1 : 0 < 2 ^ (ex - ec - e1)) by (apply Z.pow_pos_nonneg; lia).
  assert (Hp2 : 0 < 2 ^ (ey - ec - e2)) by (apply Z.pow_pos_nonneg; lia).
  apply binary_round_aux_mono
    with (N := Zpos mx * 2 ^ (ex - ec - e1)) (D := Zpos mc)
         (N' := Zpos my * 2 ^ (ey - ec - e2)) (D' := Zpos mc);
    try assumption; try lia; try (apply new_location_code; nia).
  set (T := Z.max e1 e2).
  assert (Ha : 0 <= T - e2) by (unfold T; lia).
  assert (Hb : 0 <= T - e1) by (unfold T; lia).
  set (A := ex - ec - e1 + (T - e2)).
  assert (HA : 0 <= A) by (unfold A; lia).
  replace (Zpos mx * 2 ^ (ex - ec - e1) * Zpos mc * 2 ^ (T - e2))
    with (Zpos mc * (Zpos mx * 2 ^ A))
    by (unfold A; rewrite Z.pow_add_r by lia; ring).
  replace (Zpos my * 2 ^ (ey - ec - e2) * Zpos mc * 2 ^ (T - e1))
    with (Zpos mc * (Zpos my * 2 ^ (ey - ex) * 2 ^ A)).
  2:{ rewrite <- Z.mul_assoc, <- Z.pow_add_r by lia.
      replace (ey - ex + A) with (ey - ec - e2 + (T - e1)) by (unfold A; lia).
      rewrite Z.pow_add_r by lia. ring. }
  apply Z.mul_le_mono_nonneg_l; [lia |].
  apply Z.mul_le_mono_nonneg_r; [apply Z.pow_nonneg; lia | assumption].
Qed.

Lemma fdiv_finite_rounded (sx sy : bool) (mx my : positive) (ex ey : Z) :
  exists m E, fdiv (S754_finite sx mx ex) (S754_finite sy my ey) = rounded (xorb sx sy) m E /\
    0 <= m <= 2 ^ 53 /\ (-1074 < E -> 2 ^ 52 <= m) /\ -1074 <= E.
Proof.
  destruct (fdiv_finite_eq sx sy mx my ex ey) as (-> & Hs & Hq & HE).
  set (e' := Z.min (fexp prec emax (Zpos (digits2_pos mx) + ex - (Zpos (digits2_pos my) + ey)))
                   (ex - ey)) in *.
  set (N := Zpos mx * 2 ^ (ex - ey - e')) in *.
  assert (Hp : 0 < 2 ^ (ex - ey - e')) by (apply Z.pow_pos_nonneg; lia).
  destruct (@binary_round_aux_rounded (xorb sx sy) (N / Zpos my) e'
              (new_location (Zpos my) (N mod Zpos my)) N (Zpos my)) as (-> & Hm & Hn);
    [assumption | lia | apply new_location_code; unfold N; nia | assumption |].
  eexists _, _. split; [reflexivity |]. split; [assumption |]. split; [assumption |].
  unfold fexp, emin, prec, emax. lia.
Qed.

Lemma fdiv_finite_valid (sx sy : bool) (mx my : positive) (ex ey : Z) :
  valid_binary prec emax (fdiv (S754_finite sx mx ex) (S754_finite sy my ey)) = true.
Proof.
  destruct (fdiv_finite_rounded sx sy mx my ex ey) as (m & E & -> & Hm & Hn & HE).
  apply rounded_valid; assumption.
Qed.

Lemma fdiv_nonnegative (x c : float) :
  positive_finite c = true -> nonnegative x = true -> nonnegative (fdiv x c) = true.
Proof.
  intros Hc Hx. destruct (positive_finite_inv _ Hc) as (mc & ec & -> & Hbc).
  destruct x as [sx | [] | | [] mx ex]; try discriminate; try reflexivity.
  destruct (fdiv_finite_rounded false false mx mc ex ec) as (m & E & -> & Hm & Hn & HE).
  apply rounded_nonnegative; assumption.
Qed.

(** Division by a strictly positive double preserves the order. *)
Lemma fdiv_mono (c x y : float) :
  positive_finite c = true -> nonnegative x = true -> nonnegative y = true ->
  SFleb x y = true -> SFleb (fdiv x c) (fdiv y c) = true.
Proof.
  intros Hc Hx Hy Hle.
  pose proof (@fdiv_nonnegative x c Hc Hx) as Hcx.
  pose proof (@fdiv_nonnegative y c Hc Hy) as Hcy.
  destruct (positive_finite_inv _ Hc) as (mc & ec & -> & Hbc).
  destruct x as [sx | [] | | [] mx ex]; try discriminate.
  - apply SFleb_zero_l. assumption.
  - destruct y as [sy | [] | | [] my ey]; try discriminate. reflexivity.
  - destruct y as [sy | [] | | [] my ey]; try discriminate.
    + apply SFleb_inf_r. assumption.
    + apply fdiv_finite_mono; assumption.
Qed.

End Places.

(** ** Binary64: magnitudes from below

    The counterparts of the bounds from above: in the normal range a product,
    a quotient and a sum of strictly positive doubles are strictly positive,
    with a magnitude bounded from below. *)

Section Between.
Import B64 Rounding.
Local Open Scope Z_scope.

Lemma above_mono (k k' : Z) (x : float) : k' <= k -> above k x = true -> above k' x = true.
Proof.
  intros Hk. destruct x as [| | | [] m e]; cbn [above]; try easy.
  rewrite !Z.leb_le. lia.
Qed.

Lemma digits2_pos_mono (p q : positive) :
  Zpos p <= Zpos q -> Zpos (digits2_pos p) <= Zpos (digits2_pos q).
Proof.
  intros H. destruct (digits2_pos_bounds p) as [Hp _].
  pose proof (@digits2_pos_ge q (Zpos (digits2_pos p) - 1)). lia.
Qed.

(** In the normal range a finite result is a strictly positive double, of a
    magnitude not below that of the truncated value. *)
Lemma binary_round_aux_positive (mx ex : Z) (lx : location) (N D : Z) :
  0 <= mx -> 0 < D ->
  code (shr_record_of_loc mx lx) = qcode N D ->
  ex <= fexp prec emax (Zdigits2 mx + ex) ->
  -1074 < fexp prec emax (Zdigits2 mx + ex) ->
  is_finite (binary_round_aux prec emax false mx ex lx) = true ->
  positive_finite (binary_round_aux prec emax false mx ex lx) = true /\
  above (Zdigits2 mx + ex) (binary_round_aux prec emax false mx ex lx) = true.
Proof.
  intros Hmx HD Hc HE Hnorm.
  destruct (@binary_round_aux_rounded false mx ex lx N D Hmx HD Hc HE) as (-> & Hm & Hn).
  set (E := fexp prec emax (Zdigits2 mx + ex)) in *.
  assert (HEeq : E = Zdigits2 mx + ex - 53) by (unfold E, fexp, emin, prec, emax in *; lia).
  set (m1 := rne (qcode N (D * 2 ^ (E - ex)))) in *.
  assert (Hm52 : 2 ^ 52 <= m1) by (apply Hn; assumption).
  assert (Hv : valid_binary prec emax (rounded false m1 E) = true)
    by (apply rounded_valid; [assumption | assumption | lia]).
  revert Hv. unfold rounded.
  assert (E0 : (m1 =? 0) = false) by (apply Z.eqb_neq; lia). rewrite E0.
  destruct (m1 <? 2 ^ 53) eqn:E1; [apply Z.ltb_lt in E1 | apply Z.ltb_ge in E1].
  - destruct (E <=? 971); [| discriminate].
    intros Hv _. cbn [valid_binary] in Hv. cbn [positive_finite above]. split; [exact Hv |].
    apply Z.leb_le.
    assert (Hd : Zpos (digits2_pos (Z.to_pos m1)) = 53).
    { apply digits2_pos_unique. rewrite Z2Pos.id by lia. change (2 ^ (53 - 1)) with (2 ^ 52). lia. }
    lia.
  - destruct (E + 1 <=? 971); [| discriminate].
    intros Hv _. cbn [valid_binary] in Hv. cbn [positive_finite above]. split; [exact Hv |].
    apply Z.leb_le. change (Zpos (digits2_pos (Z.to_pos (2 ^ 52)))) with 53. lia.
Qed.

Lemma fmul_above (a b : Z) (x y : float) :
  positive_finite x = true -> positive_finite y = true ->
  above a x = true -> above b y = true -> -1019 <= a + b ->
  is_finite (fmul x y) = true ->
  positive_finite (fmul x y) = true /\ above (a + b - 1) (fmul x y) = true.
Proof.
  intros Hx Hy Ha Hb Hlo.
  destruct (positive_finite_inv _ Hx) as (mx & ex & -> & Hbx).
  destruct (positive_finite_inv _ Hy) as (my & ey & -> & Hby).
  cbn [above] in Ha, Hb. apply Z.leb_le in Ha, Hb.
  unfold fmul, SFmul. cbn [xorb]. intros Hfin.
  pose proof (digits2_pos_mul_ge mx my) as Hd.
  destruct (@binary_round_aux_positive (Zpos (mx * my)) (ex + ey) loc_Exact (Zpos (mx * my)) 1)
    as [Hp Hab]; try lia; try assumption.
  - apply code_of_loc_exact.
  - apply product_exponent; assumption.
  - cbn [Zdigits2]. unfold fexp, emin, prec, emax. lia.
  - split; [exact Hp |]. apply above_mono with (2 := Hab). cbn [Zdigits2]. lia.
Qed.

Lemma fdiv_above (a b : Z) (x y : float) :
  positive_finite x = true -> positive_finite y = true ->
  above a x = true -> below b y = true -> -1020 <= a - b ->
  is_finite (fdiv x y) = true ->
  positive_finite (fdiv x y) = true /\ above (a - b) (fdiv x y) = true.
Proof.
  intros Hx Hy Ha Hb Hlo.
  destruct (positive_finite_inv _ Hx) as (mx & ex & -> & Hbx).
  destruct (positive_finite_inv _ Hy) as (my & ey & -> & Hby).
  cbn [above below] in Ha, Hb. apply Z.leb_le in Ha, Hb.
  destruct (fdiv_finite_eq false false mx my ex ey) as (-> & Hs & Hq & HE).
  cbn [xorb].
  set (dx := Zpos (digits2_pos mx)) in *. set (dy := Zpos (digits2_pos my)) in *.
  set (e' := Z.min (fexp prec emax (dx + ex - (dy + ey))) (ex - ey)) in *.
  set (N := Zpos mx * 2 ^ (ex - ey - e')) in *.
  assert (Hp : 0 < 2 ^ (ex - ey - e')) by (apply Z.pow_pos_nonneg; lia).
  destruct (digits2_pos_bounds mx) as [Hmx _], (digits2_pos_bounds my) as [_ Hmy].
  fold dx in Hmx. fold dy in Hmy.
  assert (Hdx : 0 < dx) by (unfold dx; lia). assert (Hdy : 0 < dy) by (unfold dy; lia).
  assert (He' : e' <= dx + ex - (dy + ey) - 53)
    by (unfold e', fexp, emin, prec, emax; lia).
  set (g := dx + ex - (dy + ey)) in *.
  assert (Hq1 : 2 ^ (g - 1 - e') <= N / Zpos my).
  { apply Z.div_le_lower_bound; [lia |].
    assert (H1 : 2 ^ (dy + (g - 1 - e')) = 2 ^ (dx - 1 + (ex - ey - e')))
      by (f_equal; unfold g; lia).
    rewrite !Z.pow_add_r in H1 by lia.
    assert (H2 : 2 ^ (dx - 1) * 2 ^ (ex - ey - e') <= Zpos mx * 2 ^ (ex - ey - e'))
      by (apply Z.mul_le_mono_nonneg_r; lia).
    assert (H3 : Zpos my * 2 ^ (g - 1 - e') <= 2 ^ dy * 2 ^ (g - 1 - e'))
      by (apply Z.mul_le_mono_nonneg_r; [apply Z.pow_nonneg; lia | lia]).
    unfold N. lia. }
  assert (Hdq : g - e' <= Zdigits2 (N / Zpos my)).
  { assert (Hpos : 0 < 2 ^ (g - 1 - e')) by (apply Z.pow_pos_nonneg; lia).
    destruct (N / Zpos my) as [| p | p]; [lia | | lia].
    cbn [Zdigits2]. pose proof (@digits2_pos_ge p (g - 1 - e') Hq1). lia. }
  intros Hfin.
  destruct (@binary_round_aux_positive (N / Zpos my) e'
              (new_location (Zpos my) (N mod Zpos my)) N (Zpos my))
    as [Hpf Hab]; try lia; try assumption.
  - apply new_location_code; unfold N; nia.
  - unfold fexp, emin, prec, emax. lia.
  - split; [exact Hpf |]. apply above_mono with (2 := Hab). lia.
Qed.

Lemma fadd_above (a : Z) (x y : float) :
  positive_finite x = true -> positive_finite y = true ->
  above a x = true -> -1020 <= a ->
  is_finite (fadd x y) = true ->
  positive_finite (fadd x y) = true /\ above a (fadd x y) = true.
Proof.
  intros Hx Hy Ha Hlo.
  destruct (positive_finite_inv _ Hx) as (mx & ex & -> & Hbx).
  destruct (positive_finite_inv _ Hy) as (my & ey & -> & Hby).
  cbn [above] in Ha. apply Z.leb_le in Ha.
  unfold fadd, SFadd. cbn [cond_Zopp].
  pose proof (shl_align_spec mx ex (Z.min ex ey)) as Hax.
  pose proof (shl_align_spec my ey (Z.min ex ey)) as Hay.
  destruct (shl_align mx ex (Z.min ex ey)) as [mx' ex'].
  destruct (shl_align my ey (Z.min ex ey)) as [my' ey'].
  cbn [fst]. destruct Hax as [Hex' Hdx], Hay as [Hey' Hdy].
  change (Zpos mx' + Zpos my') with (Zpos (mx' + my')).
  cbn [binary_normalize]. unfold binary_round.
  assert (Hsum : Zpos (digits2_pos mx') <= Zpos (digits2_pos (mx' + my')))
    by (apply digits2_pos_mono; lia).
  set (ms := (mx' + my')%positive) in *.
  pose proof (shl_align_spec ms (Z.min ex ey)
                (fexp prec emax (Zpos (digits2_pos ms) + Z.min ex ey))) as Haz.
  destruct (shl_align ms (Z.min ex ey)
              (fexp prec emax (Zpos (digits2_pos ms) + Z.min ex ey))) as [mz ez].
  destruct Haz as [Hez Hdz].
  intros Hfin.
  destruct (@binary_round_aux_positive (Zpos mz) ez loc_Exact (Zpos mz) 1)
    as [Hpf Hab]; try lia; try assumption.
  - apply code_of_loc_exact.
  - cbn [Zdigits2]. rewrite Hdz. lia.
  - cbn [Zdigits2]. rewrite Hdz. unfold fexp, emin, prec, emax. lia.
  - split; [exact Hpf |]. apply above_mono with (2 := Hab). cbn [Zdigits2]. lia.
Qed.

Lemma between_inv (lo hi : Z) (x : float) :
  between lo hi x = true ->
  positive_finite x = true /\ above lo x = true /\ below hi x = true.
Proof. unfold between. rewrite !andb_true_iff. tauto. Qed.

Lemma between_intro (lo hi : Z) (x : float) :
  positive_finite x = true -> above lo x = true -> below hi x = true ->
  between lo hi x = true.
Proof. intros H1 H2 H3. unfold between. rewrite H1, H2, H3. reflexivity. Qed.

Lemma between_weaken (lo hi lo' hi' : Z) (x : float) :
  between lo hi x = true -> lo' <= lo -> hi <= hi' -> between lo' hi' x = true.
Proof.
  intros H Hlo Hhi. apply between_inv in H. destruct H as (H1 & H2 & H3).
  apply between_intro; [assumption | apply above_mono with (2 := H2); assumption |
                        apply below_mono with (2 := H3); assumption].
Qed.

Lemma fmul_between (a A b B' : Z) (x y : float) :
  between a A x = true -> between b B' y = true ->
  -1019 <= a + b -> A + B' <= 973 ->
  between (a + b - 1) (A + B' + 1) (fmul x y) = true.
Proof.
  intros Hx Hy Hlo Hhi.
  apply between_inv in Hx, Hy. destruct Hx as (Hx1 & Hx2 & Hx3), Hy as (Hy1 & Hy2 & Hy3).
  assert (Hle : a <= A /\ b <= B').
  { destruct (positive_finite_inv _ Hx1) as (mx & ex & -> & _).
    destruct (positive_finite_inv _ Hy1) as (my & ey & -> & _).
    cbn [above below] in *. rewrite !Z.leb_le in *. lia. }
  assert (Hb : below (A + B' + 1) (fmul x y) = true) by (apply fmul_below; try assumption; lia).
  destruct (@fmul_above a b x y) as [Hp Ha]; try assumption.
  - apply below_finite with (1 := Hb).
  - apply between_intro; assumption.
Qed.

Lemma fdiv_between (a A b B' : Z) (x y : float) :
  between a A x = true -> between b B' y = true ->
  -1020 <= a - B' -> A - b <= 1022 ->
  between (a - B') (A - b + 2) (fdiv x y) = true.
Proof.
  intros Hx Hy Hlo Hhi.
  apply between_inv in Hx, Hy. destruct Hx as (Hx1 & Hx2 & Hx3), Hy as (Hy1 & Hy2 & Hy3).
  assert (Hle : a <= A /\ b <= B').
  { destruct (positive_finite_inv _ Hx1) as (mx & ex & -> & _).
    destruct (positive_finite_inv _ Hy1) as (my & ey & -> & _).
    cbn [above below] in *. rewrite !Z.leb_le in *. lia. }
  assert (Hb : below (A - b + 2) (fdiv x y) = true) by (apply fdiv_below; try assumption; lia).
  destruct (@fdiv_above a B' x y) as [Hp Ha]; try assumption.
  - apply below_finite with (1 := Hb).
  - apply between_intro; assumption.
Qed.

Lemma fadd_between (a A b B' : Z) (x y : float) :
  between a A x = true -> between b B' y = true ->
  -1020 <= a -> Z.max A B' <= 972 ->
  between a (Z.max A B' + 2) (fadd x y) = true.
Proof.
  intros Hx Hy Hlo Hhi.
  apply between_inv in Hx, Hy. destruct Hx as (Hx1 & Hx2 & Hx3), Hy as (Hy1 & Hy2 & Hy3).
  assert (Hle : a <= A /\ b <= B').
  { destruct (positive_finite_inv _ Hx1) as (mx & ex & -> & _).
    destruct (positive_finite_inv _ Hy1) as (my & ey & -> & _).
    cbn [above below] in *. rewrite !Z.leb_le in *. lia. }
  assert (Hb : below (Z.max A B' + 2) (fadd x y) = true)
    by (apply fadd_below; try assumption; lia).
  destruct (@fadd_above a x y) as [Hp Ha]; try assumption.
  - apply below_finite with (1 := Hb).
  - apply between_intro; assumption.
Qed.

End Between.

(** ** Engines given by a table *)

Section Engines.
Import B64 Rounding.
Local Open Scope Z_scope.

Lemma lookup_power_In (table : list (float * float * float)) (base exponent v : float) :
  lookup_power table base exponent = Some v ->
  exists e : float, In (base, e, v) table.
Proof.
  induction table as [| [[b e] w] rest IH]; cbn [lookup_power]; [discriminate |].
  destruct (same b base) eqn:Eb; cbn [andb].
  - destruct (same e exponent).
    + intros [= <-]. apply same_eq in Eb. subst. exists e. left. reflexivity.
    + intros H. destruct (IH H) as [e' He']. exists e'. right. exact He'.
  - intros H. destruct (IH H) as [e' He']. exists e'. right. exact He'.
Qed.

Lemma table_pow_bounded (table : list (float * float * float)) :
  forallb entry_ok table = true -> pow_bounded (table_pow table).
Proof.
  intros Hok m e exponent k _ Hk Hmag. unfold table_pow.
  destruct (lookup_power table (S754_finite false m e) exponent) as [v |] eqn:E.
  - apply lookup_power_In in E. destruct E as [e' He'].
    rewrite forallb_forall in Hok. specialize (Hok _ He'). cbn [entry_ok] in Hok.
    rewrite !andb_true_iff in Hok. destruct Hok as [[Hp Hup] _].
    destruct v as [| | | [] mv ev]; try discriminate Hp.
    cbn [magnitude] in Hup. apply Z.leb_le in Hup. cbn [below]. apply Z.leb_le. lia.
  - change one with (S754_finite false 4503599627370496 (-52)).
    cbn [below]. apply Z.leb_le.
    change (digits2_pos 4503599627370496) with 53%positive. lia.
Qed.

Lemma table_pow_positive (table : list (float * float * float)) :
  forallb entry_ok table = true -> pow_positive (table_pow table).
Proof.
  intros Hok m e exponent k _ Hk _ Hmag. unfold table_pow.
  destruct (lookup_power table (S754_finite false m e) exponent) as [v |] eqn:E.
  - apply lookup_power_In in E. destruct E as [e' He'].
    rewrite forallb_forall in Hok. specialize (Hok _ He'). cbn [entry_ok] in Hok.
    rewrite !andb_true_iff in Hok. destruct Hok as [[Hp _] Hlo].
    split; [exact Hp |].
    destruct v as [| | | [] mv ev]; try discriminate Hp.
    cbn [magnitude] in Hlo. apply Z.leb_le in Hlo. cbn [above]. apply Z.leb_le. lia.
  - change one with (S754_finite false 4503599627370496 (-52)).
    split; [vm_compute; reflexivity |].
    cbn [above]. apply Z.leb_le.
    change (digits2_pos 4503599627370496) with 53%positive. lia.
Qed.

Lemma reference_pow_positive : pow_positive reference_pow.
Proof.
  change reference_pow with (table_pow reference_powers).
  apply table_pow_positive. vm_compute; reflexivity.
Qed.

Lemma near_pow_bounded : pow_bounded near_pow.
Proof. apply table_pow_bounded. vm_compute; reflexivity. Qed.

Lemma near_pow_positive : pow_positive near_pow.
Proof. apply table_pow_positive. vm_compute; reflexivity. Qed.

Lemma reference_pow_agrees : agrees_on reference_powers reference_pow.
Proof. unfold agrees_on, reference_powers. repeat constructor. Qed.

(** The engine [near_pow] is not correctly rounded at the first call. *)
Lemma near_pow_not_rounded : ~ agrees_on reference_powers near_pow.
Proof.
  unfold agrees_on, reference_powers. intros H. inversion H as [| x l H1 _]. 
  vm_compute in H1. discriminate H1.
Qed.

End Engines.

(** ** C1: the six outputs follow the specified formulas *)

Section Refinement.
Context {number : Type} {literal : Literal number} {ops : Numeric number}.

(** C1.  For every input record, and whatever the arithmetic, each of the
    six outputs of [calculateHeatTransfer] is the value of the specification's
    formula for it: [Re_rot] and [Re_ax] from the inputs (with
    omega = 2*pi*n_rpm/60), [Nu_s] from [B], [Re_ax] and [Pr], [H_s] from
    [Nu_s], [Nu_r] from [Re_rot], [Re_ax] and [Pr], and [H_r] from [Nu_r]. *)
Theorem calculateHeatTransfer_formulas (inputs : SealInputs number) :
  let r := calculateHeatTransfer inputs in
  Re_rot r = spec_Re_rot (rho inputs) (spec_omega (n_rpm inputs))
               (d_outer inputs) (d_hyd inputs) (mu inputs) /\
  Re_ax r = spec_Re_ax (rho inputs) (u_axial inputs) (delta_gap inputs) (mu inputs) /\
  Nu_s r = spec_Nu_s (B inputs) (Re_ax r) (Pr inputs) /\
  H_s r = spec_H_s (Nu_s r) (lambda_gas inputs) (delta_gap inputs) /\
  Nu_r r = spec_Nu_r (Re_rot r) (Re_ax r) (Pr inputs) /\
  H_r r = spec_H_r (Nu_r r) (lambda_gas inputs) (d_hyd inputs).
Proof.
  intros r. subst r.
  unfold calculateHeatTransfer, spec_Re_rot, spec_omega, spec_Re_ax, spec_Nu_s,
    spec_H_s, spec_Nu_r, spec_H_r.
  cbn [Re_rot Re_ax Nu_s H_s Nu_r H_r].
  repeat split.
Qed.

End Refinement.

(** ** C2: the reference case *)

(** For inputs in the range [2^-32, 2^33) with both speeds strictly positive,
    and a [Math.pow] bounded on both sides, every intermediate value stays in
    the normal range: the six outputs are strictly positive finite doubles. *)
Section PositiveInRange.
Import B64 Rounding.
Local Open Scope Z_scope.
Variable approx_pow : float -> float -> float.
Let engine : Numeric float := numeric approx_pow.
Local Existing Instance engine.
Hypothesis Hbounded : pow_bounded approx_pow.
Hypothesis Hpositive : pow_positive approx_pow.

Lemma exponentiate_between (base exponent : float) (k : Z) :
  In exponent exponents -> 0 <= k <= 400 -> between (1 - k) k base = true ->
  between (- 2 * k) (2 * k + 1) (exponentiate approx_pow base exponent) = true.
Proof.
  intros Hin Hk Hb. apply between_inv in Hb. destruct Hb as (Hp & Ha & Hb).
  destruct (positive_finite_inv _ Hp) as (m & e & -> & Hbd).
  cbn [above below] in Ha, Hb. apply Z.leb_le in Ha, Hb.
  assert (E : exponentiate approx_pow (S754_finite false m e) exponent
              = approx_pow (S754_finite false m e) exponent)
    by (destruct Hin as [<- | [<- | [<- | [<- | []]]]]; reflexivity).
  rewrite E.
  edestruct Hpositive as [H1 H2]; [exact Hin | exact Hk | exact Hbd | split; [exact Ha | exact Hb] |].
  apply between_intro; [assumption | assumption |].
  apply Hbounded; assumption.
Qed.

Ltac between_step :=
  lazymatch goal with
  | |- between _ _ (fmul _ _) = true =>
      eapply between_weaken;
      [eapply fmul_between; [eassumption | eassumption | lia | lia] | lia | lia]
  | |- between _ _ (fdiv _ _) = true =>
      eapply between_weaken;
      [eapply fdiv_between; [eassumption | eassumption | lia | lia] | lia | lia]
  | |- between _ _ (fadd _ _) = true =>
      eapply between_weaken;
      [eapply fadd_between; [eassumption | eassumption | lia | lia] | lia | lia]
  end.

Ltac power_step k :=
  eapply between_weaken;
  [eapply (@exponentiate_between _ _ k);
   [unfold exponents; cbn [List.In]; auto 6 | lia |
    eapply between_weaken; [eassumption | lia | lia]]
  | lia | lia].

(** With a [Math.pow] bounded on both sides and the ten inputs strictly
    positive, in [2^-32, 2^33), every intermediate value stays between
    2^-817 and 2^815: the six outputs are strictly positive finite doubles. *)
Lemma outputs_positive_in_range (i : SealInputs float) :
  inputs_in_range 32 i = true ->
  positive_finite (n_rpm i) = true -> positive_finite (u_axial i) = true ->
  let r := calculateHeatTransfer i in
  positive_finite (Re_rot r) = true /\ positive_finite (Re_ax r) = true /\
  positive_finite (Nu_s r) = true /\ positive_finite (H_s r) = true /\
  positive_finite (Nu_r r) = true /\ positive_finite (H_r r) = true.
Proof.
  intros Hi Hnp Hup r; subst r. destruct (inputs_in_range_inv 32 i Hi)
    as (Hd & Hn & Hrho & Hmu & Hlam & HPr & Hu & Hdelta & Hdh & HB).
  assert (Hn' : between (-31) 33 (n_rpm i) = true)
    by (destruct (n_rpm i) as [| | | [] m e]; try discriminate; exact Hn).
  assert (Hu' : between (-31) 33 (u_axial i) = true)
    by (destruct (u_axial i) as [| | | [] m e]; try discriminate; exact Hu).
  change (in_range 32) with (between (-31) 33) in *.
  unfold calculateHeatTransfer. cbn [Re_rot Re_ax Nu_s H_s Nu_r H_r].
  cbn [mul div add Math_pow Math_PI engine numeric].
  (* the constants *)
  assert (C2pi : between 3 3 (fmul (lit 2%Q) PI64) = true) by (vm_compute; reflexivity).
  assert (C60 : between 6 6 (lit 60%Q) = true) by (vm_compute; reflexivity).
  assert (C2 : between 2 2 (lit 2%Q) = true) by (vm_compute; reflexivity).
  assert (C23 : between (-5) (-5) (lit (23 # 1000)%Q) = true) by (vm_compute; reflexivity).
  assert (C5 : between 0 0 (lit (5 # 10)%Q) = true) by (vm_compute; reflexivity).
  assert (C135 : between (-2) (-2) (lit (135 # 1000)%Q) = true) by (vm_compute; reflexivity).
  (* the divisors *)
  set (mu2 := fmul (lit 2%Q) (mu i)).
  assert (D2mu : between (-30) 36 mu2 = true) by (unfold mu2; between_step).
  set (delta2 := fmul (lit 2%Q) (delta_gap i)).
  assert (D2delta : between (-30) 36 delta2 = true) by (unfold delta2; between_step).
  (* omega *)
  set (x1 := fmul (fmul (lit 2%Q) PI64) (n_rpm i)).
  assert (B1 : between (-29) 37 x1 = true) by (unfold x1; between_step).
  set (omega := fdiv x1 (lit 60%Q)).
  assert (Bomega : between (-35) 33 omega = true) by (unfold omega; between_step).
  (* Re_rot *)
  set (x2 := fmul (rho i) omega).
  assert (B2 : between (-67) 67 x2 = true) by (unfold x2; between_step).
  set (x3 := fmul x2 (d_outer i)).
  assert (B3 : between (-99) 101 x3 = true) by (unfold x3; between_step).
  set (x4 := fmul x3 (d_hyd i)).
  assert (B4 : between (-131) 135 x4 = true) by (unfold x4; between_step).
  set (vRe_rot := fdiv x4 mu2).
  assert (BRe_rot : between (-167) 167 vRe_rot = true) by (unfold vRe_rot; between_step).
  (* Re_ax *)
  set (y1 := fmul (lit 2%Q) (rho i)).
  assert (A1 : between (-30) 36 y1 = true) by (unfold y1; between_step).
  set (y2 := fmul y1 (u_axial i)).
  assert (A2 : between (-62) 70 y2 = true) by (unfold y2; between_step).
  set (y3 := fmul y2 (delta_gap i)).
  assert (A3 : between (-94) 104 y3 = true) by (unfold y3; between_step).
  set (vRe_ax := fdiv y3 (mu i)).
  assert (BRe_ax : between (-127) 137 vRe_ax = true) by (unfold vRe_ax; between_step).
  (* Nu_s, H_s *)
  set (p1 := exponentiate approx_pow vRe_ax (lit (8 # 10)%Q)).
  assert (P1 : between (-274) 275 p1 = true) by (unfold p1; power_step 137).
  set (p2 := exponentiate approx_pow (Pr i) (lit (4 # 10)%Q)).
  assert (P2 : between (-66) 67 p2 = true) by (unfold p2; power_step 33).
  set (z1 := fmul (lit (23 # 1000)%Q) (B i)).
  assert (S1 : between (-37) 29 z1 = true) by (unfold z1; between_step).
  set (z2 := fmul z1 p1).
  assert (S2 : between (-312) 305 z2 = true) by (unfold z2; between_step).
  set (vNu_s := fmul z2 p2).
  assert (BNu_s : between (-379) 373 vNu_s = true) by (unfold vNu_s; between_step).
  set (z3 := fmul vNu_s (lambda_gas i)).
  assert (S3 : between (-411) 407 z3 = true) by (unfold z3; between_step).
  set (vH_s := fdiv z3 delta2).
  assert (BH_s : between (-447) 439 vH_s = true) by (unfold vH_s; between_step).
  (* Nu_r, H_r *)
  set (p3 := exponentiate approx_pow vRe_rot (lit 2%Q)).
  assert (P3 : between (-336) 337 p3 = true) by (unfold p3; power_step 168).
  set (p4 := exponentiate approx_pow vRe_ax (lit 2%Q)).
  assert (P4 : between (-274) 275 p4 = true) by (unfold p4; power_step 137).
  set (t1 := fmul (lit (5 # 10)%Q) p3).
  assert (T1 : between (-337) 338 t1 = true) by (unfold t1; between_step).
  set (t2 := fadd t1 p4).
  assert (T2 : between (-337) 340 t2 = true) by (unfold t2; between_step).
  set (t3 := fmul t2 (Pr i)).
  assert (T3 : between (-369) 374 t3 = true) by (unfold t3; between_step).
  set (p5 := exponentiate approx_pow t3 (fdiv (lit 1%Q) (lit 3%Q))).
  assert (P5 : between (-748) 749 p5 = true) by (unfold p5; power_step 374).
  set (vNu_r := fmul (lit (135 # 1000)%Q) p5).
  assert (BNu_r : between (-751) 748 vNu_r = true) by (unfold vNu_r; between_step).
  set (w1 := fmul vNu_r (lambda_gas i)).
  assert (W1 : between (-783) 782 w1 = true) by (unfold w1; between_step).
  set (vH_r := fdiv w1 (d_hyd i)).
  assert (BH_r : between (-816) 815 vH_r = true) by (unfold vH_r; between_step).
  repeat split;
    match goal with
    | H : between _ _ ?x = true |- positive_finite ?x = true =>
        exact (proj1 (between_inv _ _ _ H))
    end.
Qed.

End PositiveInRange.

Section ReferenceCase.
Import B64 Rounding.

(** When [Math.pow] returns the correctly rounded powers at its five calls,
    the two coefficients of the reference case are these doubles. *)
Lemma reference_case_golden (approx_pow : B64.float -> B64.float -> B64.float) :
  B64.agrees_on B64.reference_powers approx_pow ->
  let r := calculateHeatTransfer (ops := B64.numeric approx_pow) INITIAL_INPUTS in
  H_s r = S754_finite false 4865151211167768 (-44) /\
  H_r r = S754_finite false 7900198304694627 (-41).
Proof.
  unfold B64.agrees_on, B64.reference_powers. intros Hpow.
  repeat match goal with
         | H : Forall _ (_ :: _) |- _ => inversion H; clear H; subst
         end.
  unfold calculateHeatTransfer; cbn [H_s H_r].
  cbn [mul div add Math_pow Math_PI B64.numeric].
  repeat match goal with
         | |- context [B64.exponentiate approx_pow ?a ?b] =>
             lazymatch a with context [approx_pow] => fail | _ => idtac end;
             let v := eval lazy in (B64.exponentiate approx_pow a b) in
             change (B64.exponentiate approx_pow a b) with v;
             match goal with
             | H : approx_pow _ _ = _ |- _ => rewrite H
             end
         end.
  split; vm_compute; reflexivity.
Qed.

(** The reference inputs are in range, with both speeds strictly
    positive. *)
Lemma INITIAL_INPUTS_in_range :
  inputs_in_range 32 INITIAL_INPUTS = true /\
  positive_finite (n_rpm (INITIAL_INPUTS (number := float))) = true /\
  positive_finite (u_axial (INITIAL_INPUTS (number := float))) = true.
Proof. repeat split; vm_compute; reflexivity. Qed.

(** C2, as stated, fails: at the reference inputs (which satisfy the domain
    constraints) the returned [Re_rot] is below 55, not near 29,090,472, and
    the returned [Re_ax] is below 4, not near 676.8.  This holds in binary64
    whatever [Math.pow] approximates. *)
Lemma reference_case_reynolds_small :
  B64.valid_inputs INITIAL_INPUTS = true /\
  forall approx_pow,
    let r := calculateHeatTransfer (ops := B64.numeric approx_pow) INITIAL_INPUTS in
    SFltb (Re_rot r) (lit 55) = true /\ SFltb (Re_ax r) (lit 4) = true.
Proof.
  split; [vm_compute; reflexivity |].
  intros approx_pow r; subst r. split; lazy; reflexivity.
Qed.

(** C2, amended.  At the reference inputs the function returns, in binary64
    and whatever [Math.pow] approximates, [Re_rot] = 7705386294563093 * 2^-47
    (54.75006257827241) and [Re_ax] = 7620040805979087 * 2^-51
    (3.383977900552487).  [H_s] and [H_r] are strictly positive finite
    doubles for every [Math.pow] that is bounded on both sides
    ([pow_bounded], [pow_positive]: on a positive double in [2^-k, 2^k) and
    the four exponents of the code it returns a positive finite double in
    [2^(-2k-1), 2^(2k+1))), as an accurate implementation is, correctly
    rounded or not.  When [Math.pow] returns the
    correctly rounded powers at its five calls, [H_s] = 4865151211167768 *
    2^-44 (276.55182811757686) and [H_r] = 7900198304694627 * 2^-41
    (3592.5942505376165). *)
Theorem reference_case_values (approx_pow : float -> float -> float) :
  let r := calculateHeatTransfer (ops := numeric approx_pow) INITIAL_INPUTS in
  Re_rot r = S754_finite false 7705386294563093 (-47) /\
  Re_ax r = S754_finite false 7620040805979087 (-51) /\
  SFltb (lit (5475 # 100)) (Re_rot r) && SFltb (Re_rot r) (lit (547501 # 10000)) = true /\
  SFltb (lit (33839 # 10000)) (Re_ax r) && SFltb (Re_ax r) (lit (3384 # 1000)) = true /\
  (pow_bounded approx_pow -> pow_positive approx_pow ->
   positive_finite (H_s r) = true /\ positive_finite (H_r r) = true) /\
  (agrees_on reference_powers approx_pow ->
   H_s r = S754_finite false 4865151211167768 (-44) /\
   H_r r = S754_finite false 7900198304694627 (-41)).
Proof.
  intros r; subst r.
  do 4 (split; [lazy; reflexivity |]).
  split.
  - intros Hb Hp. destruct INITIAL_INPUTS_in_range as (Hi & Hn & Hu).
    destruct (@outputs_positive_in_range approx_pow Hb Hp INITIAL_INPUTS Hi Hn Hu)
      as (_ & _ & _ & Hs & _ & Hr).
    split; assumption.
  - intros Hpow. apply reference_case_golden, Hpow.
Qed.

End ReferenceCase.

(** The coefficients at the reference inputs for an engine that is accurate
    and not correctly rounded: [near_pow], one unit in the last place below
    the correctly rounded power at the first call. *)
Lemma reference_case_values_witness :
  let r := calculateHeatTransfer (ops := B64.numeric Rounding.near_pow) INITIAL_INPUTS in
  B64.positive_finite (H_s r) = true /\ B64.positive_finite (H_r r) = true.
Proof.
  destruct (reference_case_values Rounding.near_pow) as (_ & _ & _ & _ & H & _).
  apply H; [apply near_pow_bounded | apply near_pow_positive].
Defined.

(** ** C3: no validation *)

Section Unvalidated.
Variable approx_pow : B64.float -> B64.float -> B64.float.
Let engine : Numeric B64.float := B64.numeric approx_pow.
Local Existing Instance engine.

Lemma fdiv_zero_divisor (x : B64.float) (s : bool) :
  B64.is_finite (B64.fdiv x (S754_zero s)) = false.
Proof. destruct x; reflexivity. Qed.

Lemma fmul_two_zero (s : bool) : B64.fmul (lit 2) (S754_zero s) = S754_zero s.
Proof. destruct s; reflexivity. Qed.

(** A zero viscosity is divided by: both Reynolds numbers come out as an
    infinity or NaN. *)
Lemma zero_viscosity (i : SealInputs B64.float) (s : bool) :
  mu i = S754_zero s ->
  B64.is_finite (Re_rot (calculateHeatTransfer i)) = false /\
  B64.is_finite (Re_ax (calculateHeatTransfer i)) = false.
Proof.
  intros Hmu. unfold calculateHeatTransfer. cbn [Re_rot Re_ax].
  rewrite Hmu. cbn [mul div engine B64.numeric].
  rewrite fmul_two_zero. split; apply fdiv_zero_divisor.
Qed.

Lemma zero_gap (i : SealInputs B64.float) (s : bool) :
  delta_gap i = S754_zero s ->
  B64.is_finite (H_s (calculateHeatTransfer i)) = false.
Proof.
  intros Hgap. unfold calculateHeatTransfer. cbn [H_s].
  rewrite Hgap. cbn [mul div engine B64.numeric].
  rewrite fmul_two_zero. apply fdiv_zero_divisor.
Qed.

Lemma zero_hydraulic_diameter (i : SealInputs B64.float) (s : bool) :
  d_hyd i = S754_zero s ->
  B64.is_finite (H_r (calculateHeatTransfer i)) = false.
Proof.
  intros Hz. unfold calculateHeatTransfer. cbn [H_r].
  rewrite Hz. cbn [mul div engine B64.numeric]. apply fdiv_zero_divisor.
Qed.

(** C3, amended.  The function validates nothing and fails on no input: for
    every input record the call completes normally and allocates a
    [SealResults].  With [mu] a zero the returned [Re_rot] and [Re_ax] are not
    finite, and with [delta_gap] a zero the returned [H_s] is not finite. *)
Theorem domain_violation_returns (st : store B64.float) (inputs : ref)
  (i : SealInputs B64.float) :
  nth_error st inputs = Some (ObjInputs i) ->
  exists r : SealResults B64.float,
    call_calculateHeatTransfer inputs st = (Normal (length st), st ++ [ObjResults r]) /\
    (forall s, mu i = S754_zero s ->
       B64.is_finite (Re_rot r) = false /\ B64.is_finite (Re_ax r) = false) /\
    (forall s, delta_gap i = S754_zero s -> B64.is_finite (H_s r) = false).
Proof.
  intros Hget. exists (calculateHeatTransfer i).
  unfold call_calculateHeatTransfer. rewrite Hget.
  split; [reflexivity |].
  split; intros s Hz; [exact (zero_viscosity i Hz) | exact (zero_gap i Hz)].
Qed.

End Unvalidated.

(** C3, as stated, fails: with [mu = 0] and the other inputs of the reference
    case, the call completes normally (it throws nothing) and the record it
    allocates has [Re_rot] and [Re_ax] equal to +Infinity. *)
Lemma zero_viscosity_no_error :
  let i := set_field INITIAL_INPUTS f_mu (lit 0) in
  mu i = B64.pzero /\
  forall approx_pow,
    let r := calculateHeatTransfer (ops := B64.numeric approx_pow) i in
    call_calculateHeatTransfer (ops := B64.numeric approx_pow) 0%nat [ObjInputs i]
      = (Normal 1%nat, [ObjInputs i; ObjResults r]) /\
    Re_rot r = B64.pinf /\ Re_ax r = B64.pinf.
Proof.
  split; [reflexivity |].
  intros approx_pow r; subst r.
  split; [reflexivity |]. split; lazy; reflexivity.
Qed.

Lemma domain_violation_returns_witness :
  exists r : SealResults B64.float,
    call_calculateHeatTransfer (ops := B64.numeric B64.reference_pow) 0%nat
      [ObjInputs (set_field INITIAL_INPUTS f_mu (lit 0))]
    = (Normal 1%nat, [ObjInputs (set_field INITIAL_INPUTS f_mu (lit 0))] ++ [ObjResults r]) /\
    (forall s, mu (set_field INITIAL_INPUTS f_mu (lit 0)) = S754_zero s ->
       B64.is_finite (Re_rot r) = false /\ B64.is_finite (Re_ax r) = false) /\
    (forall s, delta_gap (set_field INITIAL_INPUTS f_mu (lit 0)) = S754_zero s ->
       B64.is_finite (H_s r) = false).
Proof.
  apply (@domain_violation_returns B64.reference_pow
           [ObjInputs (set_field INITIAL_INPUTS f_mu (lit 0))] 0%nat).
  reflexivity.
Defined.

(** ** C4: finiteness on valid inputs *)

(** C4, as stated, fails: the inputs of the reference case with
    [d_outer = 1e300] and [n_rpm = 1e300] satisfy the domain constraints, and
    the returned [Re_rot] is +Infinity (the product in its numerator leaves the
    range of binary64), whatever [Math.pow] approximates. *)
Lemma overflow_at_valid_inputs :
  let i := set_field (set_field INITIAL_INPUTS f_d_outer (lit (inject_Z (10 ^ 300))))
             f_n_rpm (lit (inject_Z (10 ^ 300))) in
  B64.valid_inputs i = true /\
  forall approx_pow,
    let r := calculateHeatTransfer (ops := B64.numeric approx_pow) i in
    Re_rot r = B64.pinf /\ B64.all_finite r = false.
Proof.
  split; [vm_compute; reflexivity |].
  intros approx_pow r; subst r. split; lazy; reflexivity.
Qed.

Section FiniteInRange.
Import B64.
Local Open Scope Z_scope.
Variable approx_pow : float -> float -> float.
Let engine : Numeric float := numeric approx_pow.
Local Existing Instance engine.

Section Bounded.
Hypothesis Hpow : pow_bounded approx_pow.

Lemma exponentiate_below (base exponent : B64.float) (k : Z) :
  List.In exponent exponents -> 0 <= k <= 400 -> below k base = true ->
  below (2 * k + 1) (B64.exponentiate approx_pow base exponent) = true.
Proof.
  intros Hin Hk Hb.
  destruct base as [s | | | [] m e]; try discriminate.
  - destruct Hin as [<- | [<- | [<- | [<- | []]]]]; destruct s; reflexivity.
  - cbn [below] in Hb. apply Z.leb_le in Hb.
    assert (E : B64.exponentiate approx_pow (S754_finite false m e) exponent
                = approx_pow (S754_finite false m e) exponent)
      by (destruct Hin as [<- | [<- | [<- | [<- | []]]]]; reflexivity).
    rewrite E. apply Hpow; assumption.
Qed.

Ltac below_step :=
  lazymatch goal with
  | |- below _ (B64.fmul _ _) = true =>
      eapply below_mono; [| eapply fmul_below; [eassumption | eassumption | lia | lia]]; lia
  | |- below _ (B64.fdiv _ _) = true =>
      eapply below_mono; [| eapply fdiv_below; [eassumption | eassumption | lia | lia]]; lia
  | |- below _ (B64.fadd _ _) = true =>
      eapply below_mono; [| eapply fadd_below; [eassumption | eassumption | lia | lia]]; lia
  | |- below _ (B64.exponentiate _ _ _) = true =>
      eapply below_mono;
      [| eapply exponentiate_below;
         [unfold exponents; cbn [List.In]; auto 6 | | eassumption]; lia]; lia
  end.

(** With a bounded [Math.pow] and the ten inputs in [2^-32, 2^33), no
    intermediate value reaches 2^811: the six outputs are finite. *)
Lemma outputs_finite_in_range (i : SealInputs B64.float) :
  inputs_in_range 32 i = true ->
  B64.all_finite (calculateHeatTransfer i) = true.
Proof.
  intros Hi. destruct (inputs_in_range_inv 32 i Hi)
    as (Hd & Hn & Hrho & Hmu & Hlam & HPr & Hu & Hdelta & Hdh & HB).
  apply in_range_inv in Hd, Hrho, Hmu, Hlam, HPr, Hdelta, Hdh, HB.
  destruct Hd as (_ & _ & Hd), Hrho as (_ & _ & Hrho), Hlam as (_ & _ & Hlam),
    HPr as (_ & _ & HPr), HB as (_ & _ & HB).
  destruct Hmu as (Hmu_v & Hmu_a & Hmu_b), Hdelta as (Hdelta_v & Hdelta_a & Hdelta_b),
    Hdh as (_ & Hdh_a & Hdh_b).
  apply in_range0_below in Hn, Hu.
  change (1 - 32) with (-31) in *. change (32 + 1) with 33 in *.
  unfold calculateHeatTransfer, B64.all_finite. cbn [Re_rot Re_ax Nu_s H_s Nu_r H_r].
  cbn [mul div add Math_pow Math_PI engine B64.numeric].
  (* the constants *)
  assert (C2pi : below 3 (B64.fmul (lit 2%Q) B64.PI64) = true) by (vm_compute; reflexivity).
  assert (C60 : above 6 (lit 60%Q) = true) by (vm_compute; reflexivity).
  assert (C2 : below 2 (lit 2%Q) = true) by (vm_compute; reflexivity).
  assert (C23 : below (-5) (lit (23 # 1000)%Q) = true) by (vm_compute; reflexivity).
  assert (C5 : below 0 (lit (5 # 10)%Q) = true) by (vm_compute; reflexivity).
  assert (C135 : below (-2) (lit (135 # 1000)%Q) = true) by (vm_compute; reflexivity).
  (* the divisors *)
  assert (D2mu : above (-30) (B64.fmul (lit 2%Q) (mu i)) = true)
    by (apply (@fmul_two_above (-31) 33); [assumption .. | lia]).
  assert (D2delta : above (-30) (B64.fmul (lit 2%Q) (delta_gap i)) = true)
    by (apply (@fmul_two_above (-31) 33); [assumption .. | lia]).
  (* omega *)
  set (x1 := B64.fmul (B64.fmul (lit 2%Q) B64.PI64) (n_rpm i)).
  assert (B1 : below 37 x1 = true) by (unfold x1; below_step).
  set (omega := B64.fdiv x1 (lit 60%Q)).
  assert (Bomega : below 33 omega = true) by (unfold omega; below_step).
  (* Re_rot *)
  set (x2 := B64.fmul (rho i) omega).
  assert (B2 : below 67 x2 = true) by (unfold x2; below_step).
  set (x3 := B64.fmul x2 (d_outer i)).
  assert (B3 : below 101 x3 = true) by (unfold x3; below_step).
  set (x4 := B64.fmul x3 (d_hyd i)).
  assert (B4 : below 135 x4 = true) by (unfold x4; below_step).
  set (vRe_rot := B64.fdiv x4 (B64.fmul (lit 2%Q) (mu i))).
  assert (BRe_rot : below 167 vRe_rot = true) by (unfold vRe_rot; below_step).
  (* Re_ax *)
  set (y1 := B64.fmul (lit 2%Q) (rho i)).
  assert (A1 : below 36 y1 = true) by (unfold y1; below_step).
  set (y2 := B64.fmul y1 (u_axial i)).
  assert (A2 : below 70 y2 = true) by (unfold y2; below_step).
  set (y3 := B64.fmul y2 (delta_gap i)).
  assert (A3 : below 104 y3 = true) by (unfold y3; below_step).
  set (vRe_ax := B64.fdiv y3 (mu i)).
  assert (BRe_ax : below 137 vRe_ax = true) by (unfold vRe_ax; below_step).
  (* Nu_s, H_s *)
  set (p1 := B64.exponentiate approx_pow vRe_ax (lit (8 # 10)%Q)).
  assert (P1 : below 275 p1 = true) by (unfold p1; below_step).
  set (p2 := B64.exponentiate approx_pow (Pr i) (lit (4 # 10)%Q)).
  assert (P2 : below 67 p2 = true) by (unfold p2; below_step).
  set (z1 := B64.fmul (lit (23 # 1000)%Q) (B i)).
  assert (S1 : below 29 z1 = true) by (unfold z1; below_step).
  set (z2 := B64.fmul z1 p1).
  assert (S2 : below 305 z2 = true) by (unfold z2; below_step).
  set (vNu_s := B64.fmul z2 p2).
  assert (BNu_s : below 373 vNu_s = true) by (unfold vNu_s; below_step).
  set (z3 := B64.fmul vNu_s (lambda_gas i)).
  assert (S3 : below 407 z3 = true) by (unfold z3; below_step).
  set (vH_s := B64.fdiv z3 (B64.fmul (lit 2%Q) (delta_gap i))).
  assert (BH_s : below 439 vH_s = true) by (unfold vH_s; below_step).
  (* Nu_r, H_r *)
  set (p3 := B64.exponentiate approx_pow vRe_rot (lit 2%Q)).
  assert (P3 : below 335 p3 = true) by (unfold p3; below_step).
  set (p4 := B64.exponentiate approx_pow vRe_ax (lit 2%Q)).
  assert (P4 : below 275 p4 = true) by (unfold p4; below_step).
  set (t1 := B64.fmul (lit (5 # 10)%Q) p3).
  assert (T1 : below 336 t1 = true) by (unfold t1; below_step).
  set (t2 := B64.fadd t1 p4).
  assert (T2 : below 338 t2 = true) by (unfold t2; below_step).
  set (t3 := B64.fmul t2 (Pr i)).
  assert (T3 : below 372 t3 = true) by (unfold t3; below_step).
  set (p5 := B64.exponentiate approx_pow t3 (B64.fdiv (lit 1%Q) (lit 3%Q))).
  assert (P5 : below 745 p5 = true) by (unfold p5; below_step).
  set (vNu_r := B64.fmul (lit (135 # 1000)%Q) p5).
  assert (BNu_r : below 744 vNu_r = true) by (unfold vNu_r; below_step).
  set (w1 := B64.fmul vNu_r (lambda_gas i)).
  assert (W1 : below 778 w1 = true) by (unfold w1; below_step).
  set (vH_r := B64.fdiv w1 (d_hyd i)).
  assert (BH_r : below 811 vH_r = true) by (unfold vH_r; below_step).
  rewrite (below_finite _ _ BRe_rot), (below_finite _ _ BRe_ax), (below_finite _ _ BNu_s),
    (below_finite _ _ BH_s), (below_finite _ _ BNu_r), (below_finite _ _ BH_r).
  reflexivity.
Qed.

End Bounded.

(** C4, amended.  For every input record that satisfies the domain
    constraints the call completes normally.  The six outputs are finite
    when, moreover, the ten inputs lie in [2^-32, 2^33) (the two speeds may be
    zero) and [Math.pow] is bounded as an accurate implementation is
    ([pow_bounded]). *)
Theorem finite_in_range (st : store float) (inputs : ref) (i : SealInputs float) :
  nth_error st inputs = Some (ObjInputs i) ->
  valid_inputs i = true ->
  exists r : SealResults float,
    call_calculateHeatTransfer inputs st = (Normal (length st), (st ++ [ObjResults r])%list) /\
    (pow_bounded approx_pow -> inputs_in_range 32 i = true -> all_finite r = true).
Proof.
  intros Hget _. exists (calculateHeatTransfer i).
  unfold call_calculateHeatTransfer. rewrite Hget. split; [reflexivity |].
  intros Hpow Hrange. apply outputs_finite_in_range; assumption.
Qed.

End FiniteInRange.

Section ReferenceEngine.
Import B64.
Local Open Scope Z_scope.

(** The engine of the examples is bounded. *)
Lemma reference_pow_bounded : pow_bounded reference_pow.
Proof.
  intros m e exponent k _ Hk Hmag. unfold reference_pow.
  destruct (lookup_power reference_powers (S754_finite false m e) exponent) as [v |] eqn:E.
  - apply lookup_power_In in E. destruct E as [e' He'].
    unfold reference_powers in He'. cbn [In] in He'.
    repeat match goal with
           | H : _ \/ _ |- _ => destruct H as [H | H]
           | H : False |- _ => destruct H
           end;
      injection He' as <- <- <- <-;
      match type of Hmag with
      | context [digits2_pos ?p] =>
          let d := eval vm_compute in (digits2_pos p) in
          change (digits2_pos p) with d in Hmag
      end;
      cbn [below]; apply Z.leb_le;
      match goal with
      | |- context [digits2_pos ?p] =>
          let d := eval vm_compute in (digits2_pos p) in
          change (digits2_pos p) with d
      end; lia.
  - change one with (S754_finite false 4503599627370496 (-52)).
    cbn [below]. apply Z.leb_le.
    change (digits2_pos 4503599627370496) with 53%positive. lia.
Qed.

(** The reference inputs are valid and in range. *)
Lemma finite_in_range_witness :
  exists r : SealResults float,
    call_calculateHeatTransfer (ops := numeric reference_pow) 0%nat [ObjInputs INITIAL_INPUTS]
    = (Normal 1%nat, ([ObjInputs INITIAL_INPUTS] ++ [ObjResults r])%list) /\
    (pow_bounded reference_pow -> inputs_in_range 32 INITIAL_INPUTS = true ->
     all_finite r = true).
Proof.
  apply (@finite_in_range reference_pow [ObjInputs INITIAL_INPUTS] 0%nat INITIAL_INPUTS).
  - reflexivity.
  - vm_compute; reflexivity.
Defined.

(** Both conditions hold there: the outputs at the reference inputs are
    finite. *)
Lemma reference_outputs_finite :
  all_finite (calculateHeatTransfer (ops := numeric reference_pow) INITIAL_INPUTS) = true.
Proof.
  apply outputs_finite_in_range; [exact reference_pow_bounded | vm_compute; reflexivity].
Qed.

End ReferenceEngine.

(** ** C5: monotonicity of the Reynolds numbers *)

(** C5, as stated, fails in binary64: 10300 and the next double
    (10300.000000000002) as [n_rpm], the other inputs those of the reference
    case, give the same [Re_rot]; 5.000000000000001 and the next double as
    [u_axial] give the same [Re_ax]. *)
Lemma rounding_ties :
  let n1 : B64.float := lit 10300 in
  let n2 := SFsucc B64.prec B64.emax n1 in
  let u1 := SFsucc B64.prec B64.emax (lit 5) in
  let u2 := SFsucc B64.prec B64.emax u1 in
  (SFltb n1 n2 = true /\ SFltb u1 u2 = true) /\
  (B64.valid_inputs (set_field INITIAL_INPUTS f_n_rpm n1) = true /\
   B64.valid_inputs (set_field INITIAL_INPUTS f_n_rpm n2) = true /\
   B64.valid_inputs (set_field INITIAL_INPUTS f_u_axial u1) = true /\
   B64.valid_inputs (set_field INITIAL_INPUTS f_u_axial u2) = true) /\
  forall approx_pow,
    let calc := calculateHeatTransfer (ops := B64.numeric approx_pow) in
    Re_rot (calc (set_field INITIAL_INPUTS f_n_rpm n1))
      = Re_rot (calc (set_field INITIAL_INPUTS f_n_rpm n2)) /\
    Re_ax (calc (set_field INITIAL_INPUTS f_u_axial u1))
      = Re_ax (calc (set_field INITIAL_INPUTS f_u_axial u2)).
Proof.
  split; [split; vm_compute; reflexivity |].
  split; [repeat split; vm_compute; reflexivity |].
  intros approx_pow calc; subst calc. split; lazy; reflexivity.
Qed.

Section Monotone.
Import B64 Rounding.
Variable approx_pow : float -> float -> float.
Let engine : Numeric float := numeric approx_pow.
Local Existing Instance engine.

Lemma nonneg_finite_nonnegative (x : float) : nonneg_finite x = true -> nonnegative x = true.
Proof. destruct x as [s | [] | | [] m e]; try discriminate; auto. Qed.

Lemma positive_finite_nonnegative (x : float) : positive_finite x = true -> nonnegative x = true.
Proof. destruct x as [s | [] | | [] m e]; try discriminate; auto. Qed.

Lemma fmul_two_positive_finite (x : float) :
  positive_finite x = true -> is_finite (fmul (lit 2%Q) x) = true ->
  positive_finite (fmul (lit 2%Q) x) = true.
Proof.
  intros Hx Hfin.
  assert (H2 : positive_finite (lit 2%Q) = true) by (vm_compute; reflexivity).
  pose proof (@fmul_nonnegative (lit 2%Q) x H2 (positive_finite_nonnegative x Hx)) as Hn.
  destruct (fmul_two_positive x Hx) as [(m & e & E) | E]; rewrite E in *.
  - exact Hn.
  - discriminate Hfin.
Qed.

Ltac monotone_step :=
  first
    [ assumption
    | apply fmul_mono_r; [assumption | | |]
    | apply fmul_mono_l; [assumption | | |]
    | apply fdiv_mono; [assumption | | |]
    | apply fmul_nonnegative; [assumption |]
    | apply fmul_nonnegative_l; [assumption |]
    | apply fdiv_nonnegative; [assumption |] ].

(** C5, amended.  In binary64, for inputs that satisfy the domain
    constraints: a larger [n_rpm] never gives a smaller [Re_rot], provided
    [2 * mu] is finite, and a larger [u_axial] never gives a smaller [Re_ax],
    provided [2 * rho] is finite.  The order is that of the doubles
    ([SFleb], the comparison [<=] of the language); it is not strict, two
    neighbouring inputs can give the same output. *)
Theorem Reynolds_nondecreasing (i : SealInputs float) (n2 u2 : float) :
  valid_inputs i = true ->
  (nonneg_finite n2 = true -> SFleb (n_rpm i) n2 = true ->
   is_finite (fmul (lit 2%Q) (mu i)) = true ->
   SFleb (Re_rot (calculateHeatTransfer i))
         (Re_rot (calculateHeatTransfer (set_field i f_n_rpm n2))) = true) /\
  (nonneg_finite u2 = true -> SFleb (u_axial i) u2 = true ->
   is_finite (fmul (lit 2%Q) (rho i)) = true ->
   SFleb (Re_ax (calculateHeatTransfer i))
         (Re_ax (calculateHeatTransfer (set_field i f_u_axial u2))) = true).
Proof.
  intros Hvalid.
  destruct (valid_inputs_inv i Hvalid)
    as (Hd & Hn & Hrho & Hmu & Hlam & HPr & Hu & Hdelta & Hdh & HB).
  apply nonneg_finite_nonnegative in Hn, Hu.
  assert (H2pi : positive_finite (fmul (lit 2%Q) PI64) = true) by (vm_compute; reflexivity).
  assert (H60 : positive_finite (lit 60%Q) = true) by (vm_compute; reflexivity).
  split.
  - intros Hn2 Hle Hfin. apply nonneg_finite_nonnegative in Hn2.
    pose proof (fmul_two_positive_finite (mu i) Hmu Hfin) as H2mu.
    unfold calculateHeatTransfer, set_field, of_fields.
    cbn [Re_rot d_outer n_rpm rho mu lambda_gas Pr u_axial delta_gap d_hyd B get_field].
    cbn [mul div Math_PI engine numeric].
    repeat match goal with
           | |- context [field_eq_dec ?a ?b] =>
               let c := eval cbv in (field_eq_dec a b) in
               change (field_eq_dec a b) with c; cbv iota
           end.
    repeat monotone_step.
  - intros Hu2 Hle Hfin. apply nonneg_finite_nonnegative in Hu2.
    pose proof (fmul_two_positive_finite (rho i) Hrho Hfin) as H2rho.
    unfold calculateHeatTransfer, set_field, of_fields.
    cbn [Re_ax d_outer n_rpm rho mu lambda_gas Pr u_axial delta_gap d_hyd B get_field].
    cbn [mul div Math_PI engine numeric].
    repeat match goal with
           | |- context [field_eq_dec ?a ?b] =>
               let c := eval cbv in (field_eq_dec a b) in
               change (field_eq_dec a b) with c; cbv iota
           end.
    repeat monotone_step.
Qed.

End Monotone.

(** The condition on [2 * mu] cannot be dropped.  With [mu] = 1e308 the
    divisor [2 * mu] is +Infinity; with [rho] = 1e300, a speed of 1 gives a
    finite dividend and [Re_rot] = 0, a speed of 1e300 gives an infinite
    dividend and [Re_rot] = NaN, which compares with nothing. *)
Lemma Reynolds_order_lost_on_overflow :
  let i := set_field (set_field (set_field INITIAL_INPUTS f_mu (lit (inject_Z (10 ^ 308))))
                        f_rho (lit (inject_Z (10 ^ 300)))) f_n_rpm (lit 1) in
  let n2 : B64.float := lit (inject_Z (10 ^ 300)) in
  B64.valid_inputs i = true /\ B64.nonneg_finite n2 = true /\ SFleb (n_rpm i) n2 = true /\
  forall approx_pow,
    let calc := calculateHeatTransfer (ops := B64.numeric approx_pow) in
    Re_rot (calc i) = B64.pzero /\
    Re_rot (calc (set_field i f_n_rpm n2)) = S754_nan /\
    SFleb (Re_rot (calc i)) (Re_rot (calc (set_field i f_n_rpm n2))) = false.
Proof.
  split; [vm_compute; reflexivity |].
  split; [vm_compute; reflexivity |].
  split; [vm_compute; reflexivity |].
  intros approx_pow calc; subst calc. repeat split; lazy; reflexivity.
Qed.

(** The reference inputs, with the speed raised to 20000 and the axial
    velocity to 6. *)
Lemma Reynolds_nondecreasing_witness :
  let calc := calculateHeatTransfer (ops := B64.numeric B64.reference_pow) in
  SFleb (Re_rot (calc INITIAL_INPUTS))
        (Re_rot (calc (set_field INITIAL_INPUTS f_n_rpm (lit 20000)))) = true /\
  SFleb (Re_ax (calc INITIAL_INPUTS))
        (Re_ax (calc (set_field INITIAL_INPUTS f_u_axial (lit 6)))) = true.
Proof.
  destruct (@Reynolds_nondecreasing B64.reference_pow INITIAL_INPUTS (lit 20000) (lit 6))
    as [H1 H2]; [vm_compute; reflexivity |].
  split; [apply H1 | apply H2]; vm_compute; reflexivity.
Defined.

(** ** C6: the zero-speed boundary *)

(** C6, as stated, fails in binary64: [rho = 1e308] satisfies its domain
    constraint, and with [u_axial = 0] the returned [Re_ax] is NaN, not 0:
    [2 * rho] overflows to +Infinity, and Infinity times zero is NaN. *)
Lemma zero_axial_velocity_nan :
  let i := set_field (set_field INITIAL_INPUTS f_rho (lit (inject_Z (10 ^ 308))))
             f_u_axial (lit 0) in
  B64.valid_inputs i = true /\ u_axial i = B64.pzero /\
  forall approx_pow,
    Re_ax (calculateHeatTransfer (ops := B64.numeric approx_pow) i) = S754_nan.
Proof.
  split; [vm_compute; reflexivity |]. split; [reflexivity |].
  intros approx_pow. lazy; reflexivity.
Qed.

Section ZeroSpeed.
Import B64.
Local Open Scope Z_scope.
Variable approx_pow : float -> float -> float.
Let engine : Numeric float := numeric approx_pow.
Local Existing Instance engine.

(** C6, amended.  In binary64, for inputs that satisfy the domain
    constraints: [n_rpm] a zero gives [Re_rot] that zero; [u_axial] a zero
    gives [Re_ax] that zero provided [2 * rho] is finite (it overflows for
    rho >= 2^1023); and when [Re_ax] is a zero, [Math.pow(Re_ax, 0.8)] is +0
    and [Nu_s] is a zero provided [Math.pow(Pr, 0.4)] is finite. *)
Theorem zero_speed_binary64 (i : SealInputs B64.float) :
  B64.valid_inputs i = true ->
  let r := calculateHeatTransfer i in
  (forall s, n_rpm i = S754_zero s -> Re_rot r = S754_zero s) /\
  (forall s, u_axial i = S754_zero s ->
     B64.is_finite (B64.fmul (lit 2%Q) (rho i)) = true -> Re_ax r = S754_zero s) /\
  (forall s, Re_ax r = S754_zero s ->
     Math_pow (Re_ax r) (lit (8 # 10)%Q) = B64.pzero /\
     (B64.is_finite (Math_pow (Pr i) (lit (4 # 10)%Q)) = true ->
      exists s', Nu_s r = S754_zero s')).
Proof.
  intros Hvalid r; subst r.
  destruct (valid_inputs_inv i Hvalid)
    as (Hd & Hn & Hrho & Hmu & Hlam & HPr & Hu & Hdelta & Hdh & HB).
  destruct (positive_finite_inv _ Hd) as (md & ed & Ed & _).
  destruct (positive_finite_inv _ Hrho) as (mr & er & Er & Hbr).
  destruct (positive_finite_inv _ Hmu) as (mm & em & Em & Hbm).
  destruct (positive_finite_inv _ Hdelta) as (mg & eg & Eg & _).
  destruct (positive_finite_inv _ Hdh) as (mh & eh & Eh & _).
  destruct (positive_finite_inv _ HB) as (mb & eb & Eb & Hbb).
  unfold calculateHeatTransfer; cbn [Re_rot Re_ax Nu_s].
  cbn [mul div add Math_pow Math_PI engine B64.numeric].
  split; [| split].
  - intros s Hz. rewrite Hz, Ed, Er, Eh.
    destruct (fmul_two_positive _ Hmu) as [(m2 & e2 & E2) | E2]; rewrite E2;
      destruct s; reflexivity.
  - intros s Hz Hfin. rewrite Hz, Eg, Em.
    destruct (fmul_two_positive _ Hrho) as [(m2 & e2 & E2) | E2]; rewrite E2 in *;
      [destruct s; reflexivity | discriminate Hfin].
  - intros s Hz. rewrite Hz. split; [destruct s; reflexivity |].
    intros Hfin. rewrite Eb.
    assert (Hc : B64.is_finite (B64.fmul (lit (23 # 1000)%Q) (S754_finite false mb eb)) = true).
    { destruct (bounded_cases mb eb Hbb) as [He Hcases].
      change (lit (23 # 1000)%Q) with (S754_finite false 6629298651489370 (-58)).
      apply fmul_finite; unfold B64.emax, B64.prec.
      - change (Zpos (digits2_pos 6629298651489370)) with 53. lia.
      - lia. }
    assert (Hp : B64.exponentiate approx_pow (S754_zero s) (lit (8 # 10)%Q) = B64.pzero)
      by (destruct s; reflexivity).
    rewrite Hp.
    destruct (B64.fmul (lit (23 # 1000)%Q) (S754_finite false mb eb)) as [sx | sx | | sx mx ex];
      try discriminate Hc;
      destruct (B64.exponentiate approx_pow (Pr i) (lit (4 # 10)%Q)) as [sp | sp | | sp mp ep];
      try discriminate Hfin; eexists; reflexivity.
Qed.
End ZeroSpeed.

(** The boundary at the reference inputs with both speeds set to zero. *)
Lemma zero_speed_binary64_witness :
  let i := set_field (set_field INITIAL_INPUTS f_n_rpm (lit 0)) f_u_axial (lit 0) in
  let r := calculateHeatTransfer (ops := B64.numeric B64.reference_pow) i in
  (forall s, n_rpm i = S754_zero s -> Re_rot r = S754_zero s) /\
  (forall s, u_axial i = S754_zero s ->
     B64.is_finite (B64.fmul (lit 2) (rho i)) = true -> Re_ax r = S754_zero s) /\
  (forall s, Re_ax r = S754_zero s ->
     Math_pow (Numeric := B64.numeric B64.reference_pow) (Re_ax r) (lit (8 # 10)) = B64.pzero /\
     (B64.is_finite (Math_pow (Numeric := B64.numeric B64.reference_pow) (Pr i) (lit (4 # 10)))
      = true ->
      exists s', Nu_s r = S754_zero s')).
Proof.
  apply (@zero_speed_binary64 B64.reference_pow
           (set_field (set_field INITIAL_INPUTS f_n_rpm (lit 0)) f_u_axial (lit 0))).
  vm_compute; reflexivity.
Defined.

(** ** C7: doubling [B] *)

(** C7, as stated, fails in binary64, in the subnormal range.  Take every
    input 1 except [delta_gap = 0.5] (so that [Re_ax = 1] and
    [2 * delta_gap = 1]) and [B] = 22 * 2^-1074 (1.1e-322).  Both
    [0.023 * B] and [0.023 * (2 * B)] round to the least positive double, so
    for an engine with pow(1, y) = 1 doubling [B] leaves [Nu_s] and [H_s] at
    2^-1074 instead of doubling them. *)
Lemma subnormal_B_not_doubled :
  let i (b : B64.float) : SealInputs B64.float :=
    set_field (set_field (of_fields (fun _ => lit 1)) f_delta_gap (lit (5 # 10))) f_B b in
  let b := S754_finite false 22 (-1074) in
  let b2 := B64.fmul (lit 2) b in
  (B64.valid_inputs (i b) = true /\ B64.valid_inputs (i b2) = true) /\
  forall approx_pow,
    approx_pow B64.one (lit (8 # 10)) = B64.one ->
    approx_pow B64.one (lit (4 # 10)) = B64.one ->
    let calc := calculateHeatTransfer (ops := B64.numeric approx_pow) in
    (Nu_s (calc (i b)) = S754_finite false 1 (-1074) /\
     Nu_s (calc (i b2)) = S754_finite false 1 (-1074)) /\
    (H_s (calc (i b)) = S754_finite false 1 (-1074) /\
     H_s (calc (i b2)) = S754_finite false 1 (-1074)).
Proof.
  split; [split; vm_compute; reflexivity |].
  intros approx_pow H8 H4 calc; subst calc.
  unfold calculateHeatTransfer; cbn [Nu_s H_s].
  cbn [mul div add Math_pow Math_PI B64.numeric].
  repeat match goal with
         | |- context [B64.exponentiate approx_pow ?a ?b] =>
             let v := eval lazy in (B64.exponentiate approx_pow a b) in
             change (B64.exponentiate approx_pow a b) with v
         end.
  change (lit (8 # 10)) with (S754_finite false 7205759403792794 (-53)) in H8.
  change (lit (4 # 10)) with (S754_finite false 7205759403792794 (-54)) in H4.
  change B64.one with (S754_finite false 4503599627370496 (-52)) in H8, H4.
  rewrite H8, H4.
  repeat split; vm_compute; reflexivity.
Qed.

Section Doubling.
Import B64.
Local Open Scope Z_scope.
Variable approx_pow : float -> float -> float.
Let engine : Numeric float := numeric approx_pow.
Local Existing Instance engine.

(** C7, amended.  In binary64, replacing [B] by [2 * B], all other inputs
    fixed, replaces [Nu_s] and [H_s] by exactly their doubles, provided [B]
    and the five values computed from it on the way ([0.023 * B], its product
    with [Re_ax^0.8], [Nu_s], [Nu_s * lambda_gas] and [H_s]) are [inner]:
    finite, not zero, and at least a binade away from the subnormal range and
    from overflow. *)
Theorem doubling_B_binary64 (i : SealInputs B64.float) :
  let r := calculateHeatTransfer i in
  let r2 := calculateHeatTransfer (set_field i f_B (B64.fmul (lit 2%Q) (B i))) in
  let x1 := B64.fmul (lit (23 # 1000)%Q) (B i) in
  let x2 := B64.fmul x1 (Math_pow (Re_ax r) (lit (8 # 10)%Q)) in
  valid_binary B64.prec B64.emax (B i) = true ->
  inner (B i) = true -> inner x1 = true -> inner x2 = true -> inner (Nu_s r) = true ->
  inner (B64.fmul (Nu_s r) (lambda_gas i)) = true -> inner (H_s r) = true ->
  Nu_s r2 = twice (Nu_s r) /\ H_s r2 = twice (H_s r).
Proof.
  intros r r2 x1 x2 Hv HB H1 H2 H3 H4 H5. subst r r2 x1 x2.
  revert H1 H2 H3 H4 H5.
  unfold calculateHeatTransfer, set_field, of_fields.
  cbn [Re_ax Nu_s H_s d_outer n_rpm rho mu lambda_gas Pr u_axial delta_gap d_hyd B get_field].
  cbn [mul div add Math_pow Math_PI engine B64.numeric].
  repeat match goal with
         | |- context [field_eq_dec ?a ?b] =>
             let c := eval cbv in (field_eq_dec a b) in
             change (field_eq_dec a b) with c; cbv iota
         end.
  rewrite (fmul_two_twice _ Hv HB).
  intros H1 H2 H3 H4 H5.
  rewrite (fmul_twice_r _ _ H1), (fmul_twice_l _ _ H2), (fmul_twice_l _ _ H3).
  split; [reflexivity |].
  rewrite (fmul_twice_l _ _ H4), (fdiv_twice_l _ _ H5). reflexivity.
Qed.
End Doubling.

(** The scaling law at the reference inputs: B = 2 against B = 4. *)
Lemma doubling_B_binary64_witness :
  let calc := calculateHeatTransfer (ops := B64.numeric B64.reference_pow) in
  let i := INITIAL_INPUTS in
  Nu_s (calc (set_field i f_B (B64.fmul (lit 2) (B i)))) = B64.twice (Nu_s (calc i)) /\
  H_s (calc (set_field i f_B (B64.fmul (lit 2) (B i)))) = B64.twice (H_s (calc i)).
Proof.
  apply (@doubling_B_binary64 B64.reference_pow INITIAL_INPUTS); vm_compute; reflexivity.
Defined.

(** ** C8, C9, C10: the call *)

Section CallProperties.
Context {number : Type} {literal : Literal number} {ops : Numeric number}.

Lemma call_returns (st : store number) (inputs : ref) (i : SealInputs number) :
  nth_error st inputs = Some (ObjInputs i) ->
  call_calculateHeatTransfer inputs st
  = (Normal (length st), st ++ [ObjResults (calculateHeatTransfer i)]).
Proof.
  intros Hget. unfold call_calculateHeatTransfer. rewrite Hget. reflexivity.
Qed.

Lemma nth_error_old (st : store number) (o : object number) (a : ref) (x : object number) :
  nth_error st a = Some x -> nth_error (st ++ [o]) a = Some x.
Proof.
  intros Hget. rewrite nth_error_app1; [assumption |].
  apply nth_error_Some. rewrite Hget. discriminate.
Qed.

Lemma nth_error_new (st : store number) (o : object number) :
  nth_error (st ++ [o]) (length st) = Some o.
Proof.
  rewrite nth_error_app2 by apply Nat.le_refl. rewrite Nat.sub_diag. reflexivity.
Qed.

(** C8.  The result depends on the fields of the inputs and on nothing else:
    two invocations on objects with identical fields, in any two stores (in
    particular the second in the store the first one left), complete normally
    and allocate identical records; each leaves the objects of its store as
    they were. *)
Theorem deterministic (st1 st2 : store number) (a1 a2 : ref) (i : SealInputs number) :
  nth_error st1 a1 = Some (ObjInputs i) ->
  nth_error st2 a2 = Some (ObjInputs i) ->
  exists (r : SealResults number) (st1' st2' : store number),
    call_calculateHeatTransfer a1 st1 = (Normal (length st1), st1') /\
    call_calculateHeatTransfer a2 st2 = (Normal (length st2), st2') /\
    nth_error st1' (length st1) = Some (ObjResults r) /\
    nth_error st2' (length st2) = Some (ObjResults r) /\
    st1' = st1 ++ [ObjResults r] /\ st2' = st2 ++ [ObjResults r] /\
    call_calculateHeatTransfer a1 st1'
    = (Normal (length st1'), st1' ++ [ObjResults r]).
Proof.
  intros H1 H2.
  exists (calculateHeatTransfer i), (st1 ++ [ObjResults (calculateHeatTransfer i)]),
    (st2 ++ [ObjResults (calculateHeatTransfer i)]).
  rewrite (call_returns _ _ H1), (call_returns _ _ H2).
  repeat split; try apply nth_error_new.
  apply call_returns, nth_error_old, H1.
Qed.

(** C10.  The call does not mutate its argument: after it the inputs object
    is the one it was, field for field, as is every other object of the store;
    the result is a new object, at a reference that was not allocated before
    and so differs from that of the inputs. *)
Theorem argument_not_mutated (st : store number) (inputs : ref) (i : SealInputs number) :
  nth_error st inputs = Some (ObjInputs i) ->
  exists (r : ref) (st' : store number),
    call_calculateHeatTransfer inputs st = (Normal r, st') /\
    nth_error st' inputs = Some (ObjInputs i) /\
    (forall (a : ref) (o : object number),
       nth_error st a = Some o -> nth_error st' a = Some o) /\
    nth_error st r = None /\
    r <> inputs /\
    (exists res : SealResults number, nth_error st' r = Some (ObjResults res)).
Proof.
  intros Hget. exists (length st), (st ++ [ObjResults (calculateHeatTransfer i)]).
  split; [apply call_returns, Hget |].
  split; [apply nth_error_old, Hget |].
  split; [intros a o Ha; apply nth_error_old, Ha |].
  split; [apply nth_error_None, Nat.le_refl |].
  split.
  - intros E. assert (Hlt : (inputs < length st)%nat)
      by (apply nth_error_Some; rewrite Hget; discriminate).
    rewrite E in Hlt. exact (Nat.lt_irrefl _ Hlt).
  - exists (calculateHeatTransfer i). apply nth_error_new.
Qed.

End CallProperties.

Section Total.
Import B64.
Variable approx_pow : float -> float -> float.
Let engine : Numeric float := numeric approx_pow.
Local Existing Instance engine.

Lemma nan_fmul_l (y : float) : fmul S754_nan y = S754_nan.
Proof. destruct y; reflexivity. Qed.

Lemma nan_fmul_r (x : float) : fmul x S754_nan = S754_nan.
Proof. destruct x; reflexivity. Qed.

Lemma nan_fdiv_l (y : float) : fdiv S754_nan y = S754_nan.
Proof. destruct y; reflexivity. Qed.

Lemma nan_fdiv_r (x : float) : fdiv x S754_nan = S754_nan.
Proof. destruct x; reflexivity. Qed.

(** A viscosity that is NaN: every output is NaN. *)
Lemma nan_viscosity (i : SealInputs float) :
  mu i = S754_nan ->
  calculateHeatTransfer i =
  {| Re_rot := S754_nan; Re_ax := S754_nan; Nu_s := S754_nan;
     H_s := S754_nan; Nu_r := S754_nan; H_r := S754_nan |}.
Proof.
  intros Hmu. unfold calculateHeatTransfer. cbn [mul div add Math_pow Math_PI engine numeric].
  assert (P8 : exponentiate approx_pow S754_nan (lit (8 # 10)%Q) = S754_nan)
    by (vm_compute; reflexivity).
  assert (P2 : exponentiate approx_pow S754_nan (lit 2%Q) = S754_nan)
    by (vm_compute; reflexivity).
  assert (P3 : exponentiate approx_pow S754_nan (fdiv (lit 1%Q) (lit 3%Q)) = S754_nan)
    by (vm_compute; reflexivity).
  assert (A : fadd S754_nan S754_nan = S754_nan) by reflexivity.
  rewrite Hmu.
  repeat (progress rewrite ?nan_fmul_r, ?nan_fmul_l, ?nan_fdiv_l, ?nan_fdiv_r,
            ?P8, ?P2, ?P3, ?A).
  reflexivity.
Qed.

(** A negative axial Reynolds number has no power 0.8: the static-ring
    outputs are NaN. *)
Lemma negative_axial_static_nan (i : SealInputs float) (m : positive) (e : Z) :
  Re_ax (calculateHeatTransfer i) = S754_finite true m e ->
  Nu_s (calculateHeatTransfer i) = S754_nan /\ H_s (calculateHeatTransfer i) = S754_nan.
Proof.
  unfold calculateHeatTransfer. cbn [Re_ax Nu_s H_s].
  cbn [mul div add Math_pow engine numeric].
  intros H. rewrite H.
  assert (Hp : exponentiate approx_pow (S754_finite true m e) (lit (8 # 10)%Q) = S754_nan)
    by (vm_compute; reflexivity).
  rewrite Hp. repeat (progress rewrite ?nan_fmul_r, ?nan_fmul_l, ?nan_fdiv_l).
  split; reflexivity.
Qed.

(** C9.  The function is total: for every input record, whatever the values
    of its fields (zero, negative, infinite, NaN), the call completes normally
    with a reference to a [SealResults] record holding the values of the
    formulas; no path of it throws.  A violation of a domain constraint shows
    in the numbers returned, not in a failure: a zero viscosity gives a
    [Re_rot] and a [Re_ax] that are not finite, a zero gap an [H_s] that is not
    finite, a zero hydraulic diameter an [H_r] that is not finite; a negative
    axial Reynolds number gives NaN for [Nu_s] and [H_s]; a viscosity that is
    NaN gives NaN for all six outputs. *)
Theorem total (st : store float) (inputs : ref) (i : SealInputs float) :
  nth_error st inputs = Some (ObjInputs i) ->
  exists (r : ref) (st' : store float),
    call_calculateHeatTransfer inputs st = (Normal r, st') /\
    nth_error st' r = Some (ObjResults (calculateHeatTransfer i)) /\
    (forall s, mu i = S754_zero s ->
       is_finite (Re_rot (calculateHeatTransfer i)) = false /\
       is_finite (Re_ax (calculateHeatTransfer i)) = false) /\
    (forall s, delta_gap i = S754_zero s ->
       is_finite (H_s (calculateHeatTransfer i)) = false) /\
    (forall s, d_hyd i = S754_zero s ->
       is_finite (H_r (calculateHeatTransfer i)) = false) /\
    (forall m e, Re_ax (calculateHeatTransfer i) = S754_finite true m e ->
       Nu_s (calculateHeatTransfer i) = S754_nan /\
       H_s (calculateHeatTransfer i) = S754_nan) /\
    (mu i = S754_nan ->
       calculateHeatTransfer i =
       {| Re_rot := S754_nan; Re_ax := S754_nan; Nu_s := S754_nan;
          H_s := S754_nan; Nu_r := S754_nan; H_r := S754_nan |}).
Proof.
  intros Hget. exists (length st), (st ++ [ObjResults (calculateHeatTransfer i)]).
  split; [apply call_returns, Hget |].
  split; [apply nth_error_new |].
  split; [intros s Hz; exact (@zero_viscosity approx_pow i s Hz) |].
  split; [intros s Hz; exact (@zero_gap approx_pow i s Hz) |].
  split; [intros s Hz; exact (@zero_hydraulic_diameter approx_pow i s Hz) |].
  split; [intros m e H; exact (negative_axial_static_nan i H) |].
  apply nan_viscosity.
Qed.

End Total.

(** *** The call at concrete objects

    The engine is [B64.reference_pow]; the inputs object is the one the form
    holds after an unparsable entry in the viscosity field. *)

Lemma handleInputChange_unparsable (prev : SealInputs B64.float) (name : field)
  (parsed : B64.float) :
  B64.falsy parsed = true ->
  get_field (B64.handleInputChange prev name parsed) name = B64.pzero.
Proof.
  intros Hfalsy. unfold B64.handleInputChange. rewrite Hfalsy.
  destruct name; reflexivity.
Qed.

Lemma deterministic_witness :
  exists (r : SealResults B64.float) (st1' st2' : store B64.float),
    call_calculateHeatTransfer (ops := B64.numeric B64.reference_pow) 0%nat
      [ObjInputs INITIAL_INPUTS] = (Normal 1%nat, st1') /\
    call_calculateHeatTransfer (ops := B64.numeric B64.reference_pow) 1%nat
      [ObjInputs (set_field INITIAL_INPUTS f_mu (lit 0)); ObjInputs INITIAL_INPUTS]
    = (Normal 2%nat, st2') /\
    nth_error st1' 1%nat = Some (ObjResults r) /\
    nth_error st2' 2%nat = Some (ObjResults r) /\
    st1' = [ObjInputs INITIAL_INPUTS] ++ [ObjResults r] /\
    st2' = [ObjInputs (set_field INITIAL_INPUTS f_mu (lit 0)); ObjInputs INITIAL_INPUTS]
           ++ [ObjResults r] /\
    call_calculateHeatTransfer (ops := B64.numeric B64.reference_pow) 0%nat st1'
    = (Normal (length st1'), st1' ++ [ObjResults r]).
Proof.
  apply (@deterministic B64.float _ (B64.numeric B64.reference_pow)
           [ObjInputs INITIAL_INPUTS]
           [ObjInputs (set_field INITIAL_INPUTS f_mu (lit 0)); ObjInputs INITIAL_INPUTS]
           0%nat 1%nat INITIAL_INPUTS); reflexivity.
Defined.

Lemma total_witness :
  let i := B64.handleInputChange INITIAL_INPUTS f_mu S754_nan in
  let results := calculateHeatTransfer (ops := B64.numeric B64.reference_pow) i in
  exists (r : ref) (st' : store B64.float),
    call_calculateHeatTransfer (ops := B64.numeric B64.reference_pow) 0%nat [ObjInputs i]
    = (Normal r, st') /\
    nth_error st' r = Some (ObjResults results) /\
    (forall s, mu i = S754_zero s ->
       B64.is_finite (Re_rot results) = false /\ B64.is_finite (Re_ax results) = false) /\
    (forall s, delta_gap i = S754_zero s -> B64.is_finite (H_s results) = false) /\
    (forall s, d_hyd i = S754_zero s -> B64.is_finite (H_r results) = false) /\
    (forall m e, Re_ax results = S754_finite true m e ->
       Nu_s results = S754_nan /\ H_s results = S754_nan) /\
    (mu i = S754_nan ->
       results =
       {| Re_rot := S754_nan; Re_ax := S754_nan; Nu_s := S754_nan;
          H_s := S754_nan; Nu_r := S754_nan; H_r := S754_nan |}).
Proof.
  apply (@total B64.reference_pow
           [ObjInputs (B64.handleInputChange INITIAL_INPUTS f_mu S754_nan)] 0%nat).
  reflexivity.
Defined.

Lemma argument_not_mutated_witness :
  exists (r : ref) (st' : store B64.float),
    call_calculateHeatTransfer (ops := B64.numeric B64.reference_pow) 0%nat
      [ObjInputs INITIAL_INPUTS] = (Normal r, st') /\
    nth_error st' 0%nat = Some (ObjInputs INITIAL_INPUTS) /\
    (forall (a : ref) (o : object B64.float),
       nth_error [ObjInputs INITIAL_INPUTS] a = Some o -> nth_error st' a = Some o) /\
    nth_error [ObjInputs (INITIAL_INPUTS (number := B64.float))] r = None /\
    r <> 0%nat /\
    (exists res : SealResults B64.float, nth_error st' r = Some (ObjResults res)).
Proof.
  apply (@argument_not_mutated B64.float _ (B64.numeric B64.reference_pow)
           [ObjInputs INITIAL_INPUTS] 0%nat INITIAL_INPUTS).
  reflexivity.
Defined.

(** * The code around the calculation *)

(** ** The form: [handleInputChange] *)

Section FormProperties.
Import B64 Form.

Lemma get_set_field (number : Type) (prev : SealInputs number) (name other : field) (v : number) :
  get_field (set_field prev name v) other =
  if field_eq_dec other name then v else get_field prev other.
Proof. destruct other; reflexivity. Qed.

Lemma of_fields_get_field (number : Type) (i : SealInputs number) :
  of_fields (get_field i) = i.
Proof. destruct i; reflexivity. Qed.

Lemma inputs_ext (number : Type) (i j : SealInputs number) :
  (forall name, get_field i name = get_field j name) -> i = j.
Proof.
  intros H. rewrite <- (of_fields_get_field i), <- (of_fields_get_field j).
  unfold of_fields. rewrite !H. reflexivity.
Qed.

(** Two change events in a row: on the same field the second one wins; on
    different fields they commute. *)
Theorem handleInputChange_twice (prev : SealInputs float) (name1 name2 : field)
  (parsed1 parsed2 : float) :
  handleInputChange (handleInputChange prev name1 parsed1) name2 parsed2 =
  if field_eq_dec name1 name2 then handleInputChange prev name2 parsed2
  else handleInputChange (handleInputChange prev name2 parsed2) name1 parsed1.
Proof.
  destruct (field_eq_dec name1 name2) as [-> | Hne]; apply inputs_ext; intros other;
    unfold handleInputChange; rewrite !get_set_field.
  - destruct (field_eq_dec other name2); reflexivity.
  - destruct (field_eq_dec other name2) as [E2 | H2];
      destruct (field_eq_dec other name1) as [E1 | H1]; try reflexivity.
    contradiction Hne. congruence.
Qed.

Lemma stored_not_nan (parsed : float) :
  is_nan (if falsy parsed then lit 0%Q else parsed) = false /\
  is_negative_zero (if falsy parsed then lit 0%Q else parsed) = false.
Proof. destruct parsed as [[] | [] | | [] m e]; split; reflexivity. Qed.

(** Whatever is typed, and in whatever order, the record the form holds
    never has a NaN or a negative zero in a field: NaN in the results comes
    from the arithmetic, never from an input. *)
Theorem change_events_store_no_nan (events : list (field * float)) (name : field) :
  is_nan (get_field (apply_changes events INITIAL_INPUTS) name) = false /\
  is_negative_zero (get_field (apply_changes events INITIAL_INPUTS) name) = false.
Proof.
  revert name. unfold apply_changes.
  assert (Hinit : forall name,
    is_nan (get_field (INITIAL_INPUTS (number := float)) name) = false /\
    is_negative_zero (get_field (INITIAL_INPUTS (number := float)) name) = false)
    by (intros []; split; vm_compute; reflexivity).
  revert Hinit. generalize (INITIAL_INPUTS (number := float)) as i.
  induction events as [| [n p] rest IH]; intros i Hi name; cbn [fold_left fst snd].
  - apply Hi.
  - apply IH. intros other. unfold handleInputChange. rewrite get_set_field.
    destruct (field_eq_dec other n); [apply stored_not_nan | apply Hi].
Qed.

Lemma positive_finite_truthy (v : float) : positive_finite v = true -> falsy v = false.
Proof. destruct v as [| | | [] m e]; try discriminate; reflexivity. Qed.

(** The handler keeps the inputs within the domain constraints when the
    parsed number is a strictly positive finite double, and also when one of
    the two speed fields receives text that does not parse (it becomes 0). *)
Theorem valid_entry_keeps_valid (prev : SealInputs float) (name : field) (parsed : float) :
  valid_inputs prev = true ->
  positive_finite parsed = true \/
  (falsy parsed = true /\ (name = f_n_rpm \/ name = f_u_axial)) ->
  valid_inputs (handleInputChange prev name parsed) = true.
Proof.
  intros Hv H.
  destruct (valid_inputs_inv prev Hv)
    as (Hd & Hn & Hrho & Hmu & Hlam & HPr & Hu & Hdelta & Hdh & HB).
  assert (Hnn : forall v, positive_finite v = true -> nonneg_finite v = true)
    by (intros [| | | [] m e]; try discriminate; intros Hb; exact Hb || reflexivity).
  unfold handleInputChange, valid_inputs.
  destruct H as [Hp | [Hf [-> | ->]]].
  - rewrite (positive_finite_truthy _ Hp). pose proof (Hnn _ Hp) as Hp'.
    destruct name; cbn -[positive_finite nonneg_finite];
      rewrite ?Hd, ?Hn, ?Hrho, ?Hmu, ?Hlam, ?HPr, ?Hu, ?Hdelta, ?Hdh, ?HB, ?Hp, ?Hp';
      reflexivity.
  - rewrite Hf. cbn -[positive_finite nonneg_finite].
    rewrite ?Hd, ?Hn, ?Hrho, ?Hmu, ?Hlam, ?HPr, ?Hu, ?Hdelta, ?Hdh, ?HB. reflexivity.
  - rewrite Hf. cbn -[positive_finite nonneg_finite].
    rewrite ?Hd, ?Hn, ?Hrho, ?Hmu, ?Hlam, ?HPr, ?Hu, ?Hdelta, ?Hdh, ?HB. reflexivity.
Qed.

(** The handler checks nothing: text that does not parse (or a zero) in any
    field other than the two speeds stores 0 there, and the record leaves the
    domain constraints, whatever it held before. *)
Theorem cleared_field_invalid (prev : SealInputs float) (name : field) (parsed : float) :
  falsy parsed = true ->
  name <> f_n_rpm -> name <> f_u_axial ->
  valid_inputs (handleInputChange prev name parsed) = false.
Proof.
  intros Hf H1 H2. unfold handleInputChange, valid_inputs. rewrite Hf.
  replace (lit 0%Q) with pzero by (vm_compute; reflexivity).
  destruct name; try contradiction;
    cbn [set_field of_fields get_field d_outer n_rpm rho mu lambda_gas Pr u_axial delta_gap
         d_hyd B positive_finite pzero];
    rewrite ?andb_false_r; reflexivity.
Qed.

End FormProperties.

Section ClearedDivisor.
Import B64 Form.
Variable approx_pow : float -> float -> float.
Let engine : Numeric float := numeric approx_pow.
Local Existing Instance engine.

(** Emptying a divisor's field shows in the results that are recomputed:
    with the viscosity emptied both Reynolds numbers are an infinity or NaN,
    with the gap emptied [H_s] is, and with the hydraulic diameter emptied
    [H_r] is, whatever the other fields hold. *)
Theorem cleared_divisor_not_finite (prev : SealInputs float) (parsed : float) :
  falsy parsed = true ->
  let after name := calculateHeatTransfer (handleInputChange prev name parsed) in
  is_finite (Re_rot (after f_mu)) = false /\
  is_finite (Re_ax (after f_mu)) = false /\
  is_finite (H_s (after f_delta_gap)) = false /\
  is_finite (H_r (after f_d_hyd)) = false.
Proof.
  intros Hf after; subst after. unfold handleInputChange. rewrite Hf.
  replace (lit 0%Q) with pzero by (vm_compute; reflexivity).
  split; [| split; [| split]].
  - exact (proj1 (@zero_viscosity approx_pow (set_field prev f_mu pzero) false eq_refl)).
  - exact (proj2 (@zero_viscosity approx_pow (set_field prev f_mu pzero) false eq_refl)).
  - exact (@zero_gap approx_pow (set_field prev f_delta_gap pzero) false eq_refl).
  - exact (@zero_hydraulic_diameter approx_pow (set_field prev f_d_hyd pzero) false eq_refl).
Qed.

End ClearedDivisor.

(** *** At concrete inputs *)

(** Typing a viscosity of 2e-5 into the initial form. *)
Lemma valid_entry_keeps_valid_witness :
  B64.valid_inputs (B64.handleInputChange INITIAL_INPUTS f_mu (lit (2 # 100000))) = true.
Proof.
  apply (@valid_entry_keeps_valid INITIAL_INPUTS f_mu (lit (2 # 100000))).
  - vm_compute; reflexivity.
  - left. vm_compute; reflexivity.
Defined.

(** Emptying the viscosity field of the initial form. *)
Lemma cleared_field_invalid_witness :
  B64.valid_inputs (B64.handleInputChange INITIAL_INPUTS f_mu S754_nan) = false.
Proof.
  apply (@cleared_field_invalid INITIAL_INPUTS f_mu S754_nan).
  - reflexivity.
  - discriminate.
  - discriminate.
Defined.

Lemma cleared_divisor_not_finite_witness :
  let after name :=
    calculateHeatTransfer (ops := B64.numeric B64.reference_pow)
      (B64.handleInputChange INITIAL_INPUTS name S754_nan) in
  B64.is_finite (Re_rot (after f_mu)) = false /\
  B64.is_finite (Re_ax (after f_mu)) = false /\
  B64.is_finite (H_s (after f_delta_gap)) = false /\
  B64.is_finite (H_r (after f_d_hyd)) = false.
Proof.
  apply (@cleared_divisor_not_finite B64.reference_pow INITIAL_INPUTS S754_nan).
  reflexivity.
Defined.

(** ** What the outputs depend on *)

Section Dependencies.
Context {number : Type} {literal : Literal number} {ops : Numeric number}.

(** What the outputs do not read.  The axial Reynolds number and the two
    static-ring outputs are the same for every rotation speed, outer diameter
    and hydraulic diameter; the correction factor [B] changes no output other
    than [Nu_s] and [H_s]. *)
Theorem rings_are_separate (i : SealInputs number) (n d h b : number) :
  let r := calculateHeatTransfer i in
  let rotation := calculateHeatTransfer
    (set_field (set_field (set_field i f_n_rpm n) f_d_outer d) f_d_hyd h) in
  let correction := calculateHeatTransfer (set_field i f_B b) in
  (Re_ax rotation = Re_ax r /\ Nu_s rotation = Nu_s r /\ H_s rotation = H_s r) /\
  (Re_rot correction = Re_rot r /\ Re_ax correction = Re_ax r /\
   Nu_r correction = Nu_r r /\ H_r correction = H_r r).
Proof. cbv zeta. repeat split. Qed.

End Dependencies.

(** ** Standstill *)

Section Standstill.
Import B64.
Local Open Scope Z_scope.
Variable approx_pow : float -> float -> float.
Let engine : Numeric float := numeric approx_pow.
Local Existing Instance engine.

Lemma exponentiate_zero (s : bool) (exponent : float) :
  In exponent exponents ->
  exponentiate approx_pow (S754_zero s) exponent = pzero.
Proof.
  unfold exponents. cbn [In].
  intros [<- | [<- | [<- | [<- | []]]]]; destruct s; vm_compute; reflexivity.
Qed.

Lemma fmul_zero_l (s : bool) (m : positive) (e : Z) :
  fmul (S754_zero s) (S754_finite false m e) = S754_zero s.
Proof. destruct s; reflexivity. Qed.

Lemma fmul_zero_r (s : bool) (m : positive) (e : Z) :
  fmul (S754_finite false m e) (S754_zero s) = S754_zero s.
Proof. destruct s; reflexivity. Qed.

Lemma fdiv_zero_l (s : bool) (y : float) :
  (exists m e, y = S754_finite false m e) \/ y = S754_infinity false ->
  fdiv (S754_zero s) y = S754_zero s.
Proof. intros [(m & e & ->) | ->]; destruct s; reflexivity. Qed.

(** At standstill (both speeds a zero, the other inputs within their
    constraints, [2 * rho] finite) nothing is transferred: both Reynolds
    numbers are zero and the dynamic-ring outputs [Nu_r] and [H_r] are +0,
    whatever [Math.pow] approximates; [Nu_s] and [H_s] are a zero as well
    when [Math.pow(Pr, 0.4)] is finite. *)
Theorem standstill_all_zero (i : SealInputs float) (s1 s2 : bool) :
  valid_inputs i = true ->
  n_rpm i = S754_zero s1 -> u_axial i = S754_zero s2 ->
  is_finite (fmul (lit 2%Q) (rho i)) = true ->
  let r := calculateHeatTransfer i in
  Re_rot r = S754_zero s1 /\ Re_ax r = S754_zero s2 /\
  Nu_r r = pzero /\ H_r r = pzero /\
  (is_finite (Math_pow (Pr i) (lit (4 # 10)%Q)) = true ->
   exists s, Nu_s r = S754_zero s /\ H_s r = S754_zero s).
Proof.
  intros Hvalid Hn Hu Hfin r; subst r.
  destruct (valid_inputs_inv i Hvalid)
    as (Hd & _ & Hrho & Hmu & Hlam & HPr & _ & Hdelta & Hdh & HB).
  destruct (positive_finite_inv _ Hd) as (md & ed & Ed & _).
  destruct (positive_finite_inv _ Hrho) as (mr & er & Er & Hbr).
  destruct (positive_finite_inv _ Hmu) as (mm & em & Em & Hbm).
  destruct (positive_finite_inv _ Hlam) as (ml & el & El & _).
  destruct (positive_finite_inv _ HPr) as (mp & ep & Ep & _).
  destruct (positive_finite_inv _ Hdelta) as (mg & eg & Eg & _).
  destruct (positive_finite_inv _ Hdh) as (mh & eh & Eh & _).
  destruct (positive_finite_inv _ HB) as (mb & eb & Eb & Hbb).
  assert (Hrot : Re_rot (calculateHeatTransfer i) = S754_zero s1).
  { unfold calculateHeatTransfer; cbn [Re_rot]. cbn [mul div Math_PI engine numeric].
    rewrite Hn, Ed, Er, Eh.
    destruct (fmul_two_positive _ Hmu) as [(m2 & e2 & E2) | E2]; rewrite E2;
      destruct s1; reflexivity. }
  assert (Hax : Re_ax (calculateHeatTransfer i) = S754_zero s2).
  { unfold calculateHeatTransfer; cbn [Re_ax]. cbn [mul div engine numeric].
    rewrite Hu, Eg, Em.
    destruct (fmul_two_positive _ Hrho) as [(m2 & e2 & E2) | E2]; rewrite E2 in *;
      [destruct s2; reflexivity | discriminate Hfin]. }
  assert (Hnur : Nu_r (calculateHeatTransfer i) = pzero).
  { unfold calculateHeatTransfer in *. cbn [Re_rot Re_ax Nu_r] in *.
    cbn [Math_pow mul add div engine numeric] in *.
    rewrite Hrot, Hax.
    rewrite !exponentiate_zero by (unfold exponents; cbn [In]; auto).
    rewrite Ep.
    change (fmul (lit (5 # 10)%Q) pzero) with pzero.
    change (fadd pzero pzero) with pzero.
    unfold pzero at 1. rewrite fmul_zero_l.
    rewrite exponentiate_zero by (unfold exponents; cbn [In]; auto 6).
    reflexivity. }
  split; [exact Hrot |]. split; [exact Hax |]. split; [exact Hnur |].
  split.
  - unfold calculateHeatTransfer in *. cbn [Re_rot Re_ax Nu_r H_r] in *.
    cbn [Math_pow mul add div engine numeric] in *.
    rewrite Hnur, El, Eh. reflexivity.
  - intros Hpow.
    assert (Hc : is_finite (fmul (lit (23 # 1000)%Q) (S754_finite false mb eb)) = true).
    { destruct (bounded_cases mb eb Hbb) as [He Hcases].
      change (lit (23 # 1000)%Q) with (S754_finite false 6629298651489370 (-58)).
      apply fmul_finite; unfold emax, prec.
      - change (Zpos (digits2_pos 6629298651489370)) with 53. lia.
      - lia. }
    assert (Hnus : exists s, Nu_s (calculateHeatTransfer i) = S754_zero s).
    { unfold calculateHeatTransfer in *. cbn [Re_rot Re_ax Nu_s] in *.
      cbn [Math_pow mul add div engine numeric] in *.
      rewrite Hax, Eb.
      rewrite exponentiate_zero by (unfold exponents; cbn [In]; auto).
      destruct (fmul (lit (23 # 1000)%Q) (S754_finite false mb eb)) as [sx | sx | | sx mx ex];
        try discriminate Hc;
        destruct (exponentiate approx_pow (Pr i) (lit (4 # 10)%Q)) as [sp | sp | | sp mp' ep'];
        try discriminate Hpow; eexists; reflexivity. }
    destruct Hnus as [s Hs]. exists s. split; [exact Hs |].
    unfold calculateHeatTransfer in *. cbn [Re_rot Re_ax Nu_s H_s] in *.
    cbn [Math_pow mul add div engine numeric] in *.
    rewrite Hs, El. rewrite fmul_zero_l.
    apply fdiv_zero_l. apply fmul_two_positive. exact Hdelta.
Qed.

End Standstill.

(** The initial form with both speed fields emptied. *)
Lemma standstill_all_zero_witness :
  let i := B64.handleInputChange (B64.handleInputChange INITIAL_INPUTS f_n_rpm S754_nan)
             f_u_axial S754_nan in
  let r := calculateHeatTransfer (ops := B64.numeric B64.reference_pow) i in
  Re_rot r = B64.pzero /\ Re_ax r = B64.pzero /\
  Nu_r r = B64.pzero /\ H_r r = B64.pzero /\
  (B64.is_finite (Math_pow (Numeric := B64.numeric B64.reference_pow) (Pr i) (lit (4 # 10)))
   = true ->
   exists s, Nu_s r = S754_zero s /\ H_s r = S754_zero s).
Proof.
  apply (@standstill_all_zero B64.reference_pow
           (B64.handleInputChange (B64.handleInputChange INITIAL_INPUTS f_n_rpm S754_nan)
              f_u_axial S754_nan) false false); vm_compute; reflexivity.
Defined.

(** ** Reverse flow *)

Section ReverseFlow.
Import B64.
Variable approx_pow : float -> float -> float.
Let engine : Numeric float := numeric approx_pow.
Local Existing Instance engine.

Lemma fmul_nan_r (x : float) : fmul x S754_nan = S754_nan.
Proof. destruct x; reflexivity. Qed.

(** A negative axial Reynolds number (a negative axial velocity, or a
    negative viscosity, among otherwise positive inputs) has no real power
    0.8: [Math.pow] returns NaN there, whatever the engine, and the two
    static-ring outputs are NaN. *)
Theorem negative_axial_Reynolds_nan (i : SealInputs float) (m : positive) (e : Z) :
  let r := calculateHeatTransfer i in
  Re_ax r = S754_finite true m e ->
  Math_pow (Re_ax r) (lit (8 # 10)%Q) = S754_nan /\
  Nu_s r = S754_nan /\ H_s r = S754_nan.
Proof.
  intros r; subst r. unfold calculateHeatTransfer. cbn [Re_ax Nu_s H_s].
  cbn [mul div add Math_pow engine numeric].
  intros H. rewrite H.
  assert (Hp : exponentiate approx_pow (S754_finite true m e) (lit (8 # 10)%Q) = S754_nan)
    by (vm_compute; reflexivity).
  rewrite Hp, fmul_nan_r. repeat split.
Qed.

End ReverseFlow.

(** The initial form with -5 typed into the axial velocity. *)
Lemma negative_axial_Reynolds_nan_witness :
  let i := B64.handleInputChange INITIAL_INPUTS f_u_axial (lit (-5)) in
  let r := calculateHeatTransfer (ops := B64.numeric B64.reference_pow) i in
  Math_pow (Numeric := B64.numeric B64.reference_pow) (Re_ax r) (lit (8 # 10)) = S754_nan /\
  Nu_s r = S754_nan /\ H_s r = S754_nan.
Proof.
  apply (@negative_axial_Reynolds_nan B64.reference_pow
           (B64.handleInputChange INITIAL_INPUTS f_u_axial (lit (-5)))
           7620040805979087 (-51)).
  vm_compute; reflexivity.
Defined.

(** ** Scaling laws *)

Section Scaling.
Import B64.
Local Open Scope Z_scope.
Variable approx_pow : float -> float -> float.
Let engine : Numeric float := numeric approx_pow.
Local Existing Instance engine.

Ltac eval_fields :=
  unfold calculateHeatTransfer, set_field, of_fields;
  cbn [Re_rot Re_ax Nu_s H_s Nu_r H_r
       d_outer n_rpm rho mu lambda_gas Pr u_axial delta_gap d_hyd B get_field];
  cbn [mul div add Math_pow Math_PI engine numeric];
  repeat match goal with
         | |- context [field_eq_dec ?a ?b] =>
             let c := eval cbv in (field_eq_dec a b) in
             change (field_eq_dec a b) with c; cbv iota
         end.

(** Both coefficients are linear in the thermal conductivity: replacing
    [lambda_gas] by [2 * lambda_gas] replaces [H_s] and [H_r] by exactly their
    doubles, when the conductivity, the two products with it and the two
    coefficients are [inner]. *)
Theorem doubling_conductivity (i : SealInputs float) :
  let r := calculateHeatTransfer i in
  let r2 := calculateHeatTransfer (set_field i f_lambda_gas (fmul (lit 2%Q) (lambda_gas i))) in
  valid_binary prec emax (lambda_gas i) = true -> inner (lambda_gas i) = true ->
  inner (fmul (Nu_s r) (lambda_gas i)) = true -> inner (H_s r) = true ->
  inner (fmul (Nu_r r) (lambda_gas i)) = true -> inner (H_r r) = true ->
  H_s r2 = twice (H_s r) /\ H_r r2 = twice (H_r r).
Proof.
  intros r r2 Hv Hl H1 H2 H3 H4. subst r r2.
  revert H1 H2 H3 H4. eval_fields.
  rewrite (fmul_two_twice _ Hv Hl).
  intros H1 H2 H3 H4.
  rewrite (fmul_twice_r _ _ H1), (fdiv_twice_l _ _ H2).
  rewrite (fmul_twice_r _ _ H3), (fdiv_twice_l _ _ H4).
  split; reflexivity.
Qed.

(** The rotational Reynolds number is linear in the speed: replacing [n_rpm]
    by [2 * n_rpm] replaces [Re_rot] by exactly its double, when the speed and
    the values computed from it on the way are [inner]. *)
Theorem doubling_rotation_speed (i : SealInputs float) :
  let r := calculateHeatTransfer i in
  let two_pi_n := fmul (fmul (lit 2%Q) Math_PI) (n_rpm i) in
  let omega := fdiv two_pi_n (lit 60%Q) in
  let x1 := fmul (rho i) omega in
  let x2 := fmul x1 (d_outer i) in
  let x3 := fmul x2 (d_hyd i) in
  valid_binary prec emax (n_rpm i) = true -> inner (n_rpm i) = true ->
  inner two_pi_n = true -> inner omega = true -> inner x1 = true -> inner x2 = true ->
  inner x3 = true -> inner (Re_rot r) = true ->
  Re_rot (calculateHeatTransfer (set_field i f_n_rpm (fmul (lit 2%Q) (n_rpm i))))
  = twice (Re_rot r).
Proof.
  intros r two_pi_n omega x1 x2 x3. subst r two_pi_n omega x1 x2 x3.
  intros Hv Hn. eval_fields. rewrite (fmul_two_twice _ Hv Hn).
  intros H1 H2 H3 H4 H5 H6.
  rewrite (fmul_twice_r _ _ H1), (fdiv_twice_l _ _ H2), (fmul_twice_r _ _ H3).
  rewrite (fmul_twice_l _ _ H4), (fmul_twice_l _ _ H5), (fdiv_twice_l _ _ H6).
  reflexivity.
Qed.

(** The axial Reynolds number is linear in the axial velocity: replacing
    [u_axial] by [2 * u_axial] replaces [Re_ax] by exactly its double, when the
    velocity and the values computed from it on the way are [inner]. *)
Theorem doubling_axial_velocity (i : SealInputs float) :
  let r := calculateHeatTransfer i in
  let y1 := fmul (fmul (lit 2%Q) (rho i)) (u_axial i) in
  let y2 := fmul y1 (delta_gap i) in
  valid_binary prec emax (u_axial i) = true -> inner (u_axial i) = true ->
  inner y1 = true -> inner y2 = true -> inner (Re_ax r) = true ->
  Re_ax (calculateHeatTransfer (set_field i f_u_axial (fmul (lit 2%Q) (u_axial i))))
  = twice (Re_ax r).
Proof.
  intros r y1 y2. subst r y1 y2.
  intros Hv Hu. eval_fields. rewrite (fmul_two_twice _ Hv Hu).
  intros H1 H2 H3.
  rewrite (fmul_twice_r _ _ H1), (fmul_twice_l _ _ H2), (fdiv_twice_l _ _ H3).
  reflexivity.
Qed.

End Scaling.

(** The two laws at the reference inputs. *)
Lemma doubling_conductivity_witness :
  let calc := calculateHeatTransfer (ops := B64.numeric B64.reference_pow) in
  let i := INITIAL_INPUTS in
  H_s (calc (set_field i f_lambda_gas (B64.fmul (lit 2) (lambda_gas i)))) = B64.twice (H_s (calc i)) /\
  H_r (calc (set_field i f_lambda_gas (B64.fmul (lit 2) (lambda_gas i)))) = B64.twice (H_r (calc i)).
Proof.
  apply (@doubling_conductivity B64.reference_pow INITIAL_INPUTS); vm_compute; reflexivity.
Defined.

Lemma doubling_rotation_speed_witness :
  let calc := calculateHeatTransfer (ops := B64.numeric B64.reference_pow) in
  let i := INITIAL_INPUTS in
  Re_rot (calc (set_field i f_n_rpm (B64.fmul (lit 2) (n_rpm i)))) = B64.twice (Re_rot (calc i)).
Proof.
  apply (@doubling_rotation_speed B64.reference_pow INITIAL_INPUTS); vm_compute; reflexivity.
Defined.

Lemma doubling_axial_velocity_witness :
  let calc := calculateHeatTransfer (ops := B64.numeric B64.reference_pow) in
  let i := INITIAL_INPUTS in
  Re_ax (calc (set_field i f_u_axial (B64.fmul (lit 2) (u_axial i)))) = B64.twice (Re_ax (calc i)).
Proof.
  apply (@doubling_axial_velocity B64.reference_pow INITIAL_INPUTS); vm_compute; reflexivity.
Defined.

(** ** The insight service *)

Section InsightProperties.
Import String Insight.
Local Open Scope string_scope.
Context {number foreign client : Type}.
Variable ToString : number -> string.
Variable toFixed : number -> nat -> string.
Variable API_KEY : option string.
Variable GoogleGenAI : option string -> outcome foreign client.
Variable generateContent : client -> string -> string -> outcome foreign (option string).

Local Abbreviation analyze :=
  (analyzeResults ToString toFixed API_KEY GoogleGenAI generateContent).
Local Abbreviation click :=
  (handleGenerateInsight ToString toFixed API_KEY GoogleGenAI generateContent).
Local Abbreviation data := (processInputsToString ToString toFixed).

(** The text sent to the service lists nine of the ten inputs: the
    correction factor [B] is not in it.  Changing [B] alone changes neither
    the data block, nor what [analyzeResults] does and returns, nor what a
    click on the button does. *)
Theorem correction_factor_not_reported (inputs : SealInputs number)
  (results : SealResults number) (b : number) :
  data (set_field inputs f_B b) results = data inputs results /\
  analyze (set_field inputs f_B b) results = analyze inputs results /\
  click (set_field inputs f_B b) (Some results) = click inputs (Some results).
Proof.
  assert (H : data (set_field inputs f_B b) results = data inputs results) by reflexivity.
  assert (H' : analyze (set_field inputs f_B b) results = analyze inputs results)
    by (unfold analyzeResults; rewrite H; reflexivity).
  split; [exact H |]. split; [exact H' |].
  unfold handleGenerateInsight. rewrite H'. reflexivity.
Qed.

Lemma or_else_truthy (s : option string) (fallback : string) :
  truthy fallback = true -> truthy (or_else s fallback) = true.
Proof.
  intros H. destruct s as [s |]; cbn [or_else]; [| exact H].
  destruct (truthy s) eqn:E; [exact E | exact H].
Qed.

(** The four ways [analyzeResults] completes. *)
Lemma analyzeResults_cases (inputs : SealInputs number) (results : SealResults number) :
  let request := GenerateContent "gemini-2.5-flash" (prompt (data inputs results)) in
  (ToBoolean API_KEY = false /\
   analyze inputs results = (Thrown (Error "API Key 缺失"), [])) \/
  (ToBoolean API_KEY = true /\ exists e,
   GoogleGenAI API_KEY = Thrown e /\
   analyze inputs results = (Thrown e, [NewGoogleGenAI API_KEY])) \/
  (ToBoolean API_KEY = true /\ exists ai cause,
   GoogleGenAI API_KEY = Returned ai /\
   generateContent ai "gemini-2.5-flash" (prompt (data inputs results)) = Thrown cause /\
   analyze inputs results =
     (Thrown (Error "生成 AI 分析失败。"),
      [NewGoogleGenAI API_KEY; request; ConsoleError "Gemini API Error:" cause])) \/
  (ToBoolean API_KEY = true /\ exists ai text,
   GoogleGenAI API_KEY = Returned ai /\
   generateContent ai "gemini-2.5-flash" (prompt (data inputs results)) = Returned text /\
   analyze inputs results =
     (Returned (or_else text "无法生成分析结果。"), [NewGoogleGenAI API_KEY; request])).
Proof.
  intros request; subst request. unfold analyzeResults.
  destruct (ToBoolean API_KEY) eqn:Ekey; cbn [negb]; [right | left; split; reflexivity].
  unfold new_GoogleGenAI, models_generateContent, bind, try_catch, ret, emit, throw.
  destruct (GoogleGenAI API_KEY) as [ai | e] eqn:Eai.
  - right.
    destruct (generateContent ai "gemini-2.5-flash" (prompt (data inputs results)))
      as [text | cause] eqn:Egen.
    + right. split; [reflexivity |]. exists ai, text. repeat split; assumption.
    + left. split; [reflexivity |]. exists ai, cause. repeat split; assumption.
  - left. split; [reflexivity |]. exists e. split; reflexivity.
Qed.

(** When [analyzeResults] returns, the text is not empty: a response without
    text, or with an empty one, is replaced by the fallback sentence. *)
Theorem analysis_text_not_empty (inputs : SealInputs number) (results : SealResults number)
  (text : string) :
  fst (analyze inputs results) = Returned text -> truthy text = true.
Proof.
  intros H.
  destruct (analyzeResults_cases inputs results)
    as [[_ E] | [[_ (e & _ & E)] | [[_ (ai & cause & _ & _ & E)] | [_ (ai & t & _ & _ & E)]]]];
    rewrite E in H; cbn [fst] in H; try discriminate H.
  injection H as <-. apply or_else_truthy. reflexivity.
Qed.

(** A failed request: whatever [generateContent] throws is logged once to
    the console and replaced by the one [Error] of the service wrapper; the
    cause does not reach the caller. *)
Theorem service_failure_is_masked (inputs : SealInputs number) (results : SealResults number)
  (ai : client) (cause : exn foreign) :
  ToBoolean API_KEY = true ->
  GoogleGenAI API_KEY = Returned ai ->
  generateContent ai "gemini-2.5-flash" (prompt (data inputs results)) = Thrown cause ->
  analyze inputs results =
    (Thrown (Error "生成 AI 分析失败。"),
     [NewGoogleGenAI API_KEY;
      GenerateContent "gemini-2.5-flash" (prompt (data inputs results));
      ConsoleError "Gemini API Error:" cause]).
Proof.
  intros Hkey Hai Hgen. unfold analyzeResults. rewrite Hkey. cbn [negb].
  unfold new_GoogleGenAI, models_generateContent, bind, try_catch, ret, emit, throw.
  rewrite Hai, Hgen. reflexivity.
Qed.

(** [analyzeResults] sends at most one request, never a second one after a
    failure, and none without a key: a request is sent to the model
    gemini-2.5-flash, with the prompt built from the data block, after the
    client was built with a non-empty key.  A click sends the same
    requests. *)
Theorem at_most_one_request (inputs : SealInputs number) (results : SealResults number) :
  let trace := snd (analyze inputs results) in
  let request := GenerateContent "gemini-2.5-flash" (prompt (data inputs results)) in
  (requests trace = [] \/
   (requests trace = [request] /\ ToBoolean API_KEY = true /\
    hd_error trace = Some (NewGoogleGenAI API_KEY))) /\
  requests (snd (click inputs (Some results))) = requests trace.
Proof.
  intros trace request; subst trace request.
  assert (Hclick : requests (snd (click inputs (Some results)))
                   = requests (snd (analyze inputs results))).
  { unfold handleGenerateInsight.
    destruct (analyze inputs results) as [[text | e] trace].
    - unfold bind, try_catch, try_finally, emit. cbn [snd].
      unfold requests. cbn [app filter is_request]. rewrite !filter_app.
      cbn [filter is_request]. rewrite !app_nil_r. reflexivity.
    - unfold bind, try_catch, try_finally, emit. cbn [snd].
      unfold requests. cbn [app filter is_request]. rewrite !filter_app.
      cbn [filter is_request]. rewrite !app_nil_r. reflexivity. }
  split; [| exact Hclick].
  destruct (analyzeResults_cases inputs results)
    as [[_ E] | [[_ (e & _ & E)] | [[K (ai & cause & _ & _ & E)] | [K (ai & t & _ & _ & E)]]]];
    rewrite E; cbn [snd]; unfold requests; cbn [filter is_request hd_error]; auto.
Qed.

(** Without a key in the environment (undefined or empty) [analyzeResults]
    throws before it touches the library, and a click ends with the error
    sentence as the analysis and the spinner off. *)
Theorem missing_key_click (inputs : SealInputs number) (results : SealResults number) :
  ToBoolean API_KEY = false ->
  analyze inputs results = (Thrown (Error "API Key 缺失"), []) /\
  click inputs (Some results) =
    (Returned tt,
     [SetIsAnalyzing true;
      SetAiAnalysis "生成分析时出错。请检查您的网络连接或 API Key。";
      SetIsAnalyzing false]).
Proof.
  intros Hkey.
  assert (H : analyze inputs results = (Thrown (Error "API Key 缺失"), []))
    by (unfold analyzeResults; rewrite Hkey; reflexivity).
  split; [exact H |]. unfold handleGenerateInsight. rewrite H. reflexivity.
Qed.

(** A click never throws, and it settles whenever the awaited request of
    the library does.  Without results it does nothing.  With results, whatever the service does, the spinner is off at
    the end, the panel has a text to show (the analysis or the error
    sentence), and the key flag is untouched. *)
Theorem click_settles (inputs : SealInputs number) (results : SealResults number) (s : ui) :
  click inputs None = (Returned tt, []) /\
  fst (click inputs (Some results)) = Returned tt /\
  let s' := after (snd (click inputs (Some results))) s in
  isAnalyzing s' = false /\ shows_analysis s' = true /\ apiKeyMissing s' = apiKeyMissing s.
Proof.
  split; [reflexivity |].
  unfold handleGenerateInsight.
  destruct (analyzeResults_cases inputs results)
    as [[_ E] | [[_ (e & _ & E)] | [[_ (ai & cause & _ & _ & E)] | [_ (ai & t & _ & _ & E)]]]];
    rewrite E; unfold bind, try_catch, try_finally, emit; cbn [fst snd app];
    (split; [reflexivity |]);
    unfold after, shows_analysis;
    cbn [fold_left set_state isAnalyzing aiAnalysis apiKeyMissing];
    repeat split; try reflexivity.
  apply or_else_truthy. reflexivity.
Qed.

(** The two key checks agree: after the first render the button is disabled
    exactly when [analyzeResults] would stop at its own check, before any
    call to the library. *)
Theorem button_guard_agrees (inputs : SealInputs number) (results : SealResults number) :
  disabled (after (snd (check_api_key (foreign := foreign) API_KEY)) initial_ui) =
  match snd (analyze inputs results) with
  | [] => true
  | _ :: _ => false
  end.
Proof.
  unfold check_api_key.
  destruct (analyzeResults_cases inputs results)
    as [[K E] | [[K (e & _ & E)] | [[K (ai & cause & _ & _ & E)] | [K (ai & t & _ & _ & E)]]]];
    rewrite E, K; reflexivity.
Qed.

End InsightProperties.

(** *** At a concrete service *)

Section InsightExamples.
Import String Insight.
Local Open Scope string_scope.

(** A service that answers without text, and one whose request fails. *)
Lemma analysis_text_not_empty_witness :
  truthy "无法生成分析结果。" = true.
Proof.
  apply (@analysis_text_not_empty B64.float unit unit
           (fun _ => "0") (fun _ _ => "0.00") (Some "key")
           (fun _ => Returned tt) (fun _ _ _ => Returned None)
           INITIAL_INPUTS
           (calculateHeatTransfer (ops := B64.numeric B64.reference_pow) INITIAL_INPUTS)).
  reflexivity.
Defined.

Lemma service_failure_is_masked_witness :
  analyzeResults (number := B64.float) (foreign := unit) (client := unit)
    (fun _ => "0") (fun _ _ => "0.00") (Some "key")
    (fun _ => Returned tt) (fun _ _ _ => Thrown (Foreign tt))
    INITIAL_INPUTS
    (calculateHeatTransfer (ops := B64.numeric B64.reference_pow) INITIAL_INPUTS)
  = (Thrown (Error "生成 AI 分析失败。"),
     [NewGoogleGenAI (Some "key");
      GenerateContent "gemini-2.5-flash"
        (prompt (processInputsToString (fun _ => "0") (fun _ _ => "0.00") INITIAL_INPUTS
           (calculateHeatTransfer (ops := B64.numeric B64.reference_pow) INITIAL_INPUTS)));
      ConsoleError "Gemini API Error:" (Foreign tt)]).
Proof.
  apply (@service_failure_is_masked B64.float unit unit
           (fun _ => "0") (fun _ _ => "0.00") (Some "key")
           (fun _ => Returned tt) (fun _ _ _ => Thrown (Foreign tt))
           INITIAL_INPUTS
           (calculateHeatTransfer (ops := B64.numeric B64.reference_pow) INITIAL_INPUTS)
           tt (Foreign tt)); reflexivity.
Defined.

(** No key in the environment. *)
Lemma missing_key_click_witness :
  let results := calculateHeatTransfer (ops := B64.numeric B64.reference_pow) INITIAL_INPUTS in
  analyzeResults (number := B64.float) (foreign := unit) (client := unit)
    (fun _ => "0") (fun _ _ => "0.00") None
    (fun _ => Returned tt) (fun _ _ _ => Returned None) INITIAL_INPUTS results
  = (Thrown (Error "API Key 缺失"), []) /\
  handleGenerateInsight (number := B64.float) (foreign := unit) (client := unit)
    (fun _ => "0") (fun _ _ => "0.00") None
    (fun _ => Returned tt) (fun _ _ _ => Returned None) INITIAL_INPUTS (Some results)
  = (Returned tt,
     [SetIsAnalyzing true;
      SetAiAnalysis "生成分析时出错。请检查您的网络连接或 API Key。";
      SetIsAnalyzing false]).
Proof.
  apply (@missing_key_click B64.float unit unit
           (fun _ => "0") (fun _ _ => "0.00") None
           (fun _ => Returned tt) (fun _ _ _ => Returned None) INITIAL_INPUTS
           (calculateHeatTransfer (ops := B64.numeric B64.reference_pow) INITIAL_INPUTS)).
  reflexivity.
Defined.

End InsightExamples.
